(** * i3 IPC: a shallow embedding of [src/ipc.c]

    The development follows the layout of the C file: the C library
    string functions the code calls, the client registry
    ([all_clients]) with the heap of event-name buffers, the effects the
    code performs on the outside world (recorded as a trace), and then
    the functions of [ipc.c] in source order. *)

From Stdlib Require Import ZArith NArith Ascii String List.
From Stdlib Require Import Floats.PrimFloat.
From stdpp Require Import base option list gmap strings pretty.

Set Default Proof Using "Type".

(** ** C strings

    A [string] models a byte buffer whose end is a terminating NUL; the
    C library functions below stop at the first NUL byte, also when one
    occurs inside the buffer. *)

Module CString.

Definition NUL : ascii := "000"%char.

Definition is_nul (c : ascii) : bool := (N_of_ascii c =? 0)%N.

(** [tolower] as in the C locale and in UTF-8 locales: only 'A'..'Z'
    are mapped. *)
Definition tolower (c : ascii) : ascii :=
  let n := N_of_ascii c in
  if ((65 <=? n) && (n <=? 90))%N then ascii_of_N (n + 32) else c.

Definition uchar (c : ascii) : Z := Z.of_N (N_of_ascii c).

(** The byte read at [*s]: the terminator when the buffer is exhausted. *)
Definition peek (s : string) : ascii :=
  match s with
  | EmptyString => NUL
  | String c _ => c
  end.

(** The bytes of [s] as a C string sees them: up to the first NUL. *)
Fixpoint cstr (s : string) : string :=
  match s with
  | EmptyString => EmptyString
  | String c r => if is_nul c then EmptyString else String c (cstr r)
  end.

Definition strlen (s : string) : N := N.of_nat (String.length (cstr s)).

Fixpoint strcmp (s1 s2 : string) : Z :=
  match s1 with
  | EmptyString => (0 - uchar (peek s2))%Z
  | String c1 r1 =>
      if is_nul c1 then (0 - uchar (peek s2))%Z
      else match s2 with
           | EmptyString => uchar c1
           | String c2 r2 =>
               if (uchar c1 =? uchar c2)%Z then strcmp r1 r2
               else (uchar c1 - uchar c2)%Z
           end
  end.

Fixpoint strcasecmp (s1 s2 : string) : Z :=
  match s1 with
  | EmptyString => (0 - uchar (tolower (peek s2)))%Z
  | String c1 r1 =>
      if is_nul c1 then (0 - uchar (tolower (peek s2)))%Z
      else match s2 with
           | EmptyString => uchar (tolower c1)
           | String c2 r2 =>
               if (uchar (tolower c1) =? uchar (tolower c2))%Z
               then strcasecmp r1 r2
               else (uchar (tolower c1) - uchar (tolower c2))%Z
           end
  end.

(** Case-insensitive equality of two names, stated without reference to
    the comparison loop: the C strings agree after lower-casing. *)
Fixpoint lower (s : string) : string :=
  match s with
  | EmptyString => EmptyString
  | String c r => String (tolower c) (lower r)
  end.

Definition ci_equal (s1 s2 : string) : Prop := lower (cstr s1) = lower (cstr s2).

End CString.
Import CString.

(** ** The registry, the heap of event names and the trace of effects *)

(** Addresses of the buffers that [add_subscription] allocates. *)
Definition ptr := positive.

(** [ipc_client] (include/ipc.h): the file descriptor and the array
    [events] of [num_events] pointers to event names; [num_events] is
    the length of the list. *)
Record ipc_client := mk_ipc_client {
  fd : Z;
  events : list ptr
}.

Definition num_events (c : ipc_client) : nat := length (events c).

Inductive log_level := LOG | DLOG | ELOG | PERROR.

Inductive fcntl_cmd := F_GETFL | F_SETFL_O_NONBLOCK | F_SETFD_FD_CLOEXEC.

(** What the code does to the outside world, in the order it does it:
    the calls of [ipc_send_message] (libi3) with their arguments, system
    and libev calls on a descriptor, and log lines, which carry their
    format string without the final newline. *)
Inductive effect :=
  | ipc_send_message (sockfd : Z) (message_size : N) (message_type : N)
                     (payload : string)
  | sys_shutdown (sockfd : Z)
  | sys_close (sockfd : Z)
  | sys_fcntl (sockfd : Z) (cmd : fcntl_cmd)
  | ev_io_start (sockfd : Z)
  | ev_io_stop (sockfd : Z)
  | setlocale_numeric (locale : string)
  | log (level : log_level) (fmt : string).

(** The state [ipc.c] works on: the TAILQ [all_clients] from head to
    tail, the live buffers holding event names, and the trace. The
    client structs and their [events] arrays are held by value in the
    list, so that [TAILQ_REMOVE] with [free(current)] is the removal of
    the entry; the buffers that [events[i]] point to live in [heap]. *)
Record ipc_state := mk_ipc_state {
  all_clients : list ipc_client;
  heap : gmap ptr string;
  trace : list effect
}.

Definition set_clients (cs : list ipc_client) (st : ipc_state) : ipc_state :=
  {| all_clients := cs; heap := heap st; trace := trace st |}.

Definition set_heap (h : gmap ptr string) (st : ipc_state) : ipc_state :=
  {| all_clients := all_clients st; heap := h; trace := trace st |}.

Definition emit (es : list effect) (st : ipc_state) : ipc_state :=
  {| all_clients := all_clients st; heap := heap st; trace := trace st ++ es |}.

(** ** Computations that may stop the process *)

Inductive fault :=
  | AssertionFailed      (* assert(false) with assertions compiled in *)
  | InvalidPointer       (* a freed or unallocated buffer is used *)
  | BufferOverflow       (* more bytes are written than the buffer holds *)
  | ProcessExit.         (* err(): the process terminates *)

Inductive outcome (A : Type) :=
  | Done (a : A)
  | Crash (f : fault).
Arguments Done {A} a.
Arguments Crash {A} f.

Definition M (A : Type) : Type := ipc_state -> outcome A * ipc_state.

Definition ret {A} (a : A) : M A := fun st => (Done a, st).

Definition bind {A B} (m : M A) (k : A -> M B) : M B :=
  fun st =>
    match m st with
    | (Done a, st') => k a st'
    | (Crash f, st') => (Crash f, st')
    end.

Definition crash {A} (f : fault) : M A := fun st => (Crash f, st).

Definition perform (es : list effect) : M unit := fun st => (Done tt, emit es st).

Definition get : M ipc_state := fun st => (Done st, st).

Definition modify (f : ipc_state -> ipc_state) : M unit :=
  fun st => (Done tt, f st).

Declare Scope ipc_scope.
Delimit Scope ipc_scope with ipc.
Notation "x <- m ;; k" := (bind m (fun x => k))
  (at level 100, m at next level, right associativity) : ipc_scope.
Notation "m ;; k" := (bind m (fun _ => k))
  (at level 100, right associativity) : ipc_scope.
Open Scope ipc_scope.

(** [*p] for an event-name buffer. *)
Definition deref (p : ptr) : M string :=
  fun st =>
    match heap st !! p with
    | Some s => (Done s, st)
    | None => (Crash InvalidPointer, st)
    end.

(** [free(p)]. *)
Definition free (p : ptr) : M unit :=
  fun st =>
    match heap st !! p with
    | Some _ => (Done tt, set_heap (delete p (heap st)) st)
    | None => (Crash InvalidPointer, st)
    end.

(** [scalloc(len+1)] followed by [memcpy(_, s, len)]: a buffer at an
    address that is not in use, holding the [len] bytes of [s] and a
    terminating NUL. *)
Definition scalloc_copy (s : string) : M ptr :=
  fun st =>
    let p := fresh (dom (heap st)) in
    (Done p, set_heap (<[p := s]> (heap st)) st).

(** ** ipc_send_event (ipc.c, lines 75-91) *)

(** The inner loop: [events[i]] is compared with [event] until an entry
    matches, then the loop is left. *)
Fixpoint interested (evs : list ptr) (event : string) : M bool :=
  match evs with
  | [] => ret false
  | p :: rest =>
      name <- deref p ;;
      if (strcasecmp name event =? 0)%Z then ret true
      else interested rest event
  end.

Fixpoint ipc_send_event_loop (cs : list ipc_client) (event : string)
    (message_type : N) (payload : string) : M unit :=
  match cs with
  | [] => ret tt
  | current :: rest =>
      i <- interested (events current) event ;;
      (if i : bool
       then perform [ipc_send_message (fd current) (strlen payload)
                                      message_type payload]
       else ret tt) ;;
      ipc_send_event_loop rest event message_type payload
  end.

Definition ipc_send_event (event : string) (message_type : N)
    (payload : string) : M unit :=
  fun st => ipc_send_event_loop (all_clients st) event message_type payload st.

(** ** ipc_shutdown (ipc.c, lines 98-107) *)

(** One turn of the [while] loop for each client at the head of the
    queue: [shutdown], [close], [TAILQ_REMOVE], [free(current)]. The
    buffers behind [current->events] are not touched. *)
Fixpoint ipc_shutdown_loop (cs : list ipc_client) : M unit :=
  match cs with
  | [] => ret tt
  | current :: rest =>
      perform [sys_shutdown (fd current); sys_close (fd current)] ;;
      modify (set_clients rest) ;;
      ipc_shutdown_loop rest
  end.

Definition ipc_shutdown : M unit :=
  fun st => ipc_shutdown_loop (all_clients st) st.

(** ** The yajl interface

    yajl is a library outside the repository. What [ipc.c] relies on is
    kept abstract in the class [Yajl]: which parse events the text of a
    message gives rise to, and which text a sequence of generator calls
    yields. *)

(** The parse events, named after the callbacks that receive them;
    [yajl_string s] carries the bytes handed to the callback. *)
Inductive yajl_event :=
  | yajl_null
  | yajl_boolean (b : bool)
  | yajl_number (text : string)
  | yajl_string (s : string)
  | yajl_start_map
  | yajl_map_key (s : string)
  | yajl_end_map
  | yajl_start_array
  | yajl_end_array.

Inductive yajl_status :=
  | yajl_status_ok
  | yajl_status_client_canceled
  | yajl_status_error.

Inductive yajl_gen_call :=
  | yajl_gen_map_open
  | yajl_gen_map_close
  | yajl_gen_array_open
  | yajl_gen_array_close
  | yajl_gen_string (s : string)
  | yajl_gen_integer (n : Z)
  | yajl_gen_double (d : float)
  | yajl_gen_bool (b : bool)
  | yajl_gen_null.

(** A generator handle: the calls made on it so far. *)
Definition yajl_gen := list yajl_gen_call.

Class Yajl := {
  (** The events the parser reports for a text, in order, and whether it
      then stopped at a syntax error. *)
  yajl_lex : string -> list yajl_event * bool;
  (** [yajl_gen_get_buf]: the text generated by a sequence of calls. *)
  yajl_gen_get_buf : yajl_gen -> string
}.

(** The macros of include/yajl_utils.h, which is not among the sources
    at hand; they forward to the generator function their argument names:
    [y(x, ...)] is [yajl_gen_x(gen, ...)] and [ystr(s)] is
    [yajl_gen_string(gen, s, strlen(s))]. *)
Definition ygenalloc : yajl_gen := [].
Definition y (gen : yajl_gen) (c : yajl_gen_call) : yajl_gen := gen ++ [c].
Definition ystr (gen : yajl_gen) (s : string) : yajl_gen :=
  y gen (yajl_gen_string (cstr s)).

(** [yajl_parse] with a callback table in which only [yajl_string] is
    set (all other entries are NULL after the [memset]): every string
    value is handed to the callback, which cancels the parse by
    returning 0; everything else is skipped. *)
Fixpoint yajl_run (on_string : string -> N -> M Z) (evs : list yajl_event)
    : M yajl_status :=
  match evs with
  | [] => ret yajl_status_ok
  | yajl_string s :: rest =>
      r <- on_string s (N.of_nat (String.length s)) ;;
      if (r =? 0)%Z then ret yajl_status_client_canceled
      else yajl_run on_string rest
  | _ :: rest => yajl_run on_string rest
  end.

Definition yajl_parse `{Yajl} (on_string : string -> N -> M Z)
    (message : string) (message_size : N) : M yajl_status :=
  let '(evs, syntax_error) :=
    yajl_lex (substring 0 (N.to_nat message_size) message) in
  stat <- yajl_run on_string evs ;;
  match stat with
  | yajl_status_ok =>
      ret (if syntax_error : bool then yajl_status_error else yajl_status_ok)
  | _ => ret stat
  end.

(** ** The data of the window manager that the handlers read

    The structs are declared in include/data.h and include/config.h,
    which are not among the sources at hand; the records hold the fields
    [ipc.c] reads, under their names in the code. *)

Module Rect.
Record t := mk { x : Z; y : Z; width : Z; height : Z }.
End Rect.

Module Window.
Record t := mk { id : Z; name : option string }.
End Window.

Module Match.
Record t := mk { dock : Z; insert_where : Z }.
End Match.

Inductive layout_t :=
  | L_DEFAULT | L_STACKED | L_TABBED | L_DOCKAREA | L_OUTPUT
  | L_SPLITV | L_SPLITH.

Inductive scratchpad_state_t :=
  | SCRATCHPAD_NONE | SCRATCHPAD_FRESH | SCRATCHPAD_CHANGED.

Inductive border_style_t := BS_NORMAL | BS_NONE | BS_PIXEL.

Inductive floating_t :=
  | FLOATING_AUTO_OFF | FLOATING_USER_OFF | FLOATING_AUTO_ON
  | FLOATING_USER_ON.

Inductive orientation_t := NO_ORIENTATION | HORIZ | VERT.

(** [struct Con]; [addr] is the address of the node, which the code
    prints as the node's id and compares with [focused]. *)
#[warnings="-register-all"]
Inductive Con := mkCon {
  addr : Z;
  type : Z;
  scratchpad_state : scratchpad_state_t;
  percent : float;
  urgent : bool;
  mark : option string;
  layout : layout_t;
  workspace_layout : layout_t;
  border_style : border_style_t;
  current_border_width : Z;
  rect : Rect.t;
  window_rect : Rect.t;
  geometry : Rect.t;
  name : string;
  window : option Window.t;
  num : Z;
  nodes_head : list Con;
  floating_head : list Con;
  focus_head : list Z;
  fullscreen_mode : Z;
  floating : floating_t;
  swallow_head : list Match.t;
  depth : Z
}.

Module Output.
Record t := mk {
  name : string;
  active : bool;
  primary : bool;
  rect : Rect.t;
  con : option Con
}.
End Output.

Module Barconfig.
Inductive mode_t := M_DOCK | M_HIDE | M_INVISIBLE.
Inductive hidden_state_t := S_HIDE | S_SHOW.
Inductive modifier_t :=
  | M_NONE | M_CONTROL | M_SHIFT | M_MOD1 | M_MOD2 | M_MOD3 | M_MOD4 | M_MOD5.
Inductive position_t := P_BOTTOM | P_TOP.

Record bar_colors := mk_colors {
  background : option string;
  statusline : option string;
  separator : option string;
  focused_workspace_border : option string;
  focused_workspace_bg : option string;
  focused_workspace_text : option string;
  active_workspace_border : option string;
  active_workspace_bg : option string;
  active_workspace_text : option string;
  inactive_workspace_border : option string;
  inactive_workspace_bg : option string;
  inactive_workspace_text : option string;
  urgent_workspace_border : option string;
  urgent_workspace_bg : option string;
  urgent_workspace_text : option string
}.

Record t := mk {
  id : string;
  outputs : list string;
  tray_output : option string;
  socket_path : option string;
  mode : mode_t;
  hidden_state : hidden_state_t;
  modifier : modifier_t;
  position : position_t;
  status_command : option string;
  font : option string;
  hide_workspace_buttons : bool;
  hide_binding_mode_indicator : bool;
  verbose : bool;
  colors : bar_colors
}.

Definition num_outputs (config : t) : nat := length (outputs config).
End Barconfig.

(** [struct CommandResult] of the command parser. *)
Record CommandResult := mk_CommandResult {
  json_gen : yajl_gen;
  needs_tree_render : bool
}.

(** What [ipc.c] uses and the sources at hand do not define: constants
    of the headers, the build setting for [assert], the global data of
    the window manager, and functions of other files. *)
Class Host := {
  NDEBUG : bool;
  EAGAIN : Z;
  EINTR : Z;
  I3_IPC_REPLY_TYPE_COMMAND : N;
  I3_IPC_REPLY_TYPE_WORKSPACES : N;
  I3_IPC_REPLY_TYPE_SUBSCRIBE : N;
  I3_IPC_REPLY_TYPE_OUTPUTS : N;
  I3_IPC_REPLY_TYPE_TREE : N;
  I3_IPC_REPLY_TYPE_MARKS : N;
  I3_IPC_REPLY_TYPE_BAR_CONFIG : N;
  I3_IPC_REPLY_TYPE_VERSION : N;
  CT_WORKSPACE : Z;
  CT_DOCKAREA : Z;
  MAJOR_VERSION : Z;
  MINOR_VERSION : Z;
  PATCH_VERSION : Z;
  I3_VERSION : string;
  croot : Con;
  focused : Z;
  all_cons : list Con;
  outputs : list Output.t;
  barconfigs : list Barconfig.t;
  con_is_split : Con -> bool;
  con_orientation : Con -> orientation_t;
  con_get_workspace : Z -> Z;
  con_is_internal : Con -> bool;
  output_get_content : Con -> Con;
  workspace_is_visible : Con -> bool;
  con_get_fullscreen_con : Con -> option Con;
  parse_command : string -> M CommandResult;
  tree_render : M unit
}.

(** [assert(c)]: checked unless the build defines NDEBUG. *)
Definition assert `{Host} (c : bool) : M unit :=
  if NDEBUG || c then ret tt else crash AssertionFailed.

(** The text of a double quote, for the format strings and replies that
    contain one. *)
Definition dq : string := String "034"%char EmptyString.

(** [strncpy] of [n] bytes of [message] into a zeroed buffer of [n+1]
    bytes, read back as a C string. *)
Definition strncpy0 (message : string) (n : N) : string :=
  cstr (substring 0 (N.to_nat n) message).

(** [scalloc(message_size + 1)] followed by
    [strncpy(_, message, message_size)], as [handle_command] and
    [handle_get_bar_config] copy their message. [message_size] is a
    [uint32_t] and so is the sum: at 4294967295 it wraps to 0, the buffer
    has size 0, and [strncpy] writes [message_size] bytes past it. *)
Definition copy_message (message : string) (message_size : N) : M string :=
  let size := ((message_size + 1) mod 2 ^ 32)%N in
  if (size <? message_size)%N then crash BufferOverflow
  else ret (strncpy0 message message_size).

Section Handlers.
Context `{Yajl} `{Host}.

(** ** handle_command (ipc.c, lines 114-134) *)
Definition handle_command (fd : Z) (message : string) (size : Z)
    (message_size message_type : N) : M unit :=
  (* To get a properly terminated buffer, we copy message_size bytes
     out of the buffer *)
  command <- copy_message message message_size ;;
  perform [log LOG "IPC: received: *%s*"] ;;
  command_output <- parse_command command ;;
  (if needs_tree_render command_output then tree_render else ret tt) ;;
  let reply := yajl_gen_get_buf (json_gen command_output) in
  perform [ipc_send_message fd (N.of_nat (String.length reply))
                            I3_IPC_REPLY_TYPE_COMMAND reply].

(** ** dump_rect and dump_node (ipc.c, lines 136-363) *)
Definition dump_rect (gen : yajl_gen) (name : string) (r : Rect.t) : yajl_gen :=
  let gen := ystr gen name in
  let gen := y gen yajl_gen_map_open in
  let gen := ystr gen "x" in
  let gen := y gen (yajl_gen_integer (Rect.x r)) in
  let gen := ystr gen "y" in
  let gen := y gen (yajl_gen_integer (Rect.y r)) in
  let gen := ystr gen "width" in
  let gen := y gen (yajl_gen_integer (Rect.width r)) in
  let gen := ystr gen "height" in
  let gen := y gen (yajl_gen_integer (Rect.height r)) in
  y gen yajl_gen_map_close.

(** [TAILQ_FOREACH] with a body that writes to the generator. *)
Definition foreach {A} (body : A -> yajl_gen -> M yajl_gen)
    : list A -> yajl_gen -> M yajl_gen :=
  fix go (l : list A) (gen : yajl_gen) : M yajl_gen :=
    match l with
    | [] => ret gen
    | a :: rest => gen <- body a gen ;; go rest gen
    end.

(** The fields up to [focused] (lines 151-195). *)
Definition dump_node_head (gen : yajl_gen) (con : Con) : yajl_gen :=
  let gen := y gen yajl_gen_map_open in
  let gen := ystr gen "id" in
  let gen := y gen (yajl_gen_integer (addr con)) in
  let gen := ystr gen "type" in
  let gen := y gen (yajl_gen_integer (type con)) in
  (* provided for backwards compatibility only. *)
  let gen := ystr gen "orientation" in
  let gen :=
    if negb (con_is_split con) then ystr gen "none"
    else match con_orientation con with
         | HORIZ => ystr gen "horizontal"
         | _ => ystr gen "vertical"
         end in
  let gen := ystr gen "scratchpad_state" in
  let gen :=
    match scratchpad_state con with
    | SCRATCHPAD_NONE => ystr gen "none"
    | SCRATCHPAD_FRESH => ystr gen "fresh"
    | SCRATCHPAD_CHANGED => ystr gen "changed"
    end in
  let gen := ystr gen "percent" in
  let gen :=
    if PrimFloat.eqb (percent con) 0%float then y gen yajl_gen_null
    else y gen (yajl_gen_double (percent con)) in
  let gen := ystr gen "urgent" in
  let gen := y gen (yajl_gen_bool (urgent con)) in
  let gen :=
    match mark con with
    | Some m => ystr (ystr gen "mark") m
    | None => gen
    end in
  let gen := ystr gen "focused" in
  y gen (yajl_gen_bool (addr con =? focused)%Z).

(** The switch on [con->layout] (lines 198-221). *)
Definition dump_node_layout (gen : yajl_gen) (con : Con) : M yajl_gen :=
  match layout con with
  | L_DEFAULT =>
      perform [log DLOG "About to dump layout=default, this is a bug in the code."] ;;
      assert false ;;
      ret gen
  | L_SPLITV => ret (ystr gen "splitv")
  | L_SPLITH => ret (ystr gen "splith")
  | L_STACKED => ret (ystr gen "stacked")
  | L_TABBED => ret (ystr gen "tabbed")
  | L_DOCKAREA => ret (ystr gen "dockarea")
  | L_OUTPUT => ret (ystr gen "output")
  end.

(** The switch on [con->workspace_layout] (lines 224-238). *)
Definition dump_node_workspace_layout (gen : yajl_gen) (con : Con) : M yajl_gen :=
  match workspace_layout con with
  | L_DEFAULT => ret (ystr gen "default")
  | L_STACKED => ret (ystr gen "stacked")
  | L_TABBED => ret (ystr gen "tabbed")
  | _ =>
      perform [log DLOG "About to dump workspace_layout=%d (none of default/stacked/tabbed), this is a bug."] ;;
      assert false ;;
      ret gen
  end.

(** The fields from [last_split_layout] to [window] (lines 240-284). *)
Definition dump_node_middle (gen : yajl_gen) (con : Con) : yajl_gen :=
  let gen := ystr gen "last_split_layout" in
  let gen :=
    match layout con with
    | L_SPLITV => ystr gen "splitv"
    | _ => ystr gen "splith"
    end in
  let gen := ystr gen "border" in
  let gen :=
    match border_style con with
    | BS_NORMAL => ystr gen "normal"
    | BS_NONE => ystr gen "none"
    | BS_PIXEL => ystr gen "pixel"
    end in
  let gen := ystr gen "current_border_width" in
  let gen := y gen (yajl_gen_integer (current_border_width con)) in
  let gen := dump_rect gen "rect" (rect con) in
  let gen := dump_rect gen "window_rect" (window_rect con) in
  let gen := dump_rect gen "geometry" (geometry con) in
  let gen := ystr gen "name" in
  let gen :=
    match window con with
    | Some w =>
        match Window.name w with
        | Some n => ystr gen n
        | None => ystr gen (name con)
        end
    | None => ystr gen (name con)
    end in
  let gen :=
    if (type con =? CT_WORKSPACE)%Z
    then y (ystr gen "num") (yajl_gen_integer (num con))
    else gen in
  let gen := ystr gen "window" in
  match window con with
  | Some w => y gen (yajl_gen_integer (Window.id w))
  | None => y gen yajl_gen_null
  end.

(** The fields after the child nodes (lines 303-362). *)
Definition dump_node_tail (gen : yajl_gen) (con : Con) (inplace_restart : bool)
    : yajl_gen :=
  let gen := ystr gen "focus" in
  let gen := y gen yajl_gen_array_open in
  let gen := fold_left (fun gen node => y gen (yajl_gen_integer node))
                       (focus_head con) gen in
  let gen := y gen yajl_gen_array_close in
  let gen := ystr gen "fullscreen_mode" in
  let gen := y gen (yajl_gen_integer (fullscreen_mode con)) in
  let gen := ystr gen "floating" in
  let gen :=
    match floating con with
    | FLOATING_AUTO_OFF => ystr gen "auto_off"
    | FLOATING_AUTO_ON => ystr gen "auto_on"
    | FLOATING_USER_OFF => ystr gen "user_off"
    | FLOATING_USER_ON => ystr gen "user_on"
    end in
  let gen := ystr gen "swallows" in
  let gen := y gen yajl_gen_array_open in
  let gen :=
    fold_left
      (fun gen match_ =>
         if negb (Match.dock match_ =? -1)%Z then
           let gen := y gen yajl_gen_map_open in
           let gen := ystr gen "dock" in
           let gen := y gen (yajl_gen_integer (Match.dock match_)) in
           let gen := ystr gen "insert_where" in
           let gen := y gen (yajl_gen_integer (Match.insert_where match_)) in
           y gen yajl_gen_map_close
         else gen
         (* TODO: the other swallow keys *))
      (swallow_head con) gen in
  let gen :=
    if inplace_restart then
      match window con with
      | Some w =>
          let gen := y gen yajl_gen_map_open in
          let gen := ystr gen "id" in
          let gen := y gen (yajl_gen_integer (Window.id w)) in
          let gen := ystr gen "restart_mode" in
          let gen := y gen (yajl_gen_bool true) in
          y gen yajl_gen_map_close
      | None => gen
      end
    else gen in
  let gen := y gen yajl_gen_array_close in
  let gen :=
    if inplace_restart && bool_decide (is_Some (window con))
    then y (ystr gen "depth") (yajl_gen_integer (depth con))
    else gen in
  y gen yajl_gen_map_close.

Fixpoint dump_node (gen : yajl_gen) (con : Con) (inplace_restart : bool)
    {struct con} : M yajl_gen :=
  let gen := dump_node_head gen con in
  let gen := ystr gen "layout" in
  gen <- dump_node_layout gen con ;;
  let gen := ystr gen "workspace_layout" in
  gen <- dump_node_workspace_layout gen con ;;
  let gen := dump_node_middle gen con in
  let gen := ystr gen "nodes" in
  let gen := y gen yajl_gen_array_open in
  gen <- (if negb (type con =? CT_DOCKAREA)%Z || negb inplace_restart
          then foreach (fun node gen => dump_node gen node inplace_restart)
                       (nodes_head con) gen
          else ret gen) ;;
  let gen := y gen yajl_gen_array_close in
  let gen := ystr gen "floating_nodes" in
  let gen := y gen yajl_gen_array_open in
  gen <- foreach (fun node gen => dump_node gen node inplace_restart)
                 (floating_head con) gen ;;
  let gen := y gen yajl_gen_array_close in
  ret (dump_node_tail gen con inplace_restart).

(** ** handle_tree (ipc.c, lines 365-377) *)
Definition handle_tree (fd : Z) (message : string) (size : Z)
    (message_size message_type : N) : M unit :=
  perform [setlocale_numeric "C"] ;;
  let gen := ygenalloc in
  gen <- dump_node gen croot false ;;
  perform [setlocale_numeric ""] ;;
  let payload := yajl_gen_get_buf gen in
  perform [ipc_send_message fd (N.of_nat (String.length payload))
                            I3_IPC_REPLY_TYPE_TREE payload].

(** ** handle_get_workspaces (ipc.c, lines 385-444) *)
Definition handle_get_workspaces (fd : Z) (message : string) (size : Z)
    (message_size message_type : N) : M unit :=
  let gen := ygenalloc in
  let gen := y gen yajl_gen_array_open in
  let focused_ws := con_get_workspace focused in
  gen <- foreach
    (fun output gen =>
       if con_is_internal output then ret gen
       else
         foreach
           (fun ws gen =>
              assert (type ws =? CT_WORKSPACE)%Z ;;
              let gen := y gen yajl_gen_map_open in
              let gen := ystr gen "num" in
              let gen :=
                if (num ws =? -1)%Z then y gen yajl_gen_null
                else y gen (yajl_gen_integer (num ws)) in
              let gen := ystr gen "name" in
              let gen := ystr gen (name ws) in
              let gen := ystr gen "visible" in
              let gen := y gen (yajl_gen_bool (workspace_is_visible ws)) in
              let gen := ystr gen "focused" in
              let gen := y gen (yajl_gen_bool (addr ws =? focused_ws)%Z) in
              let gen := ystr gen "rect" in
              let gen := y gen yajl_gen_map_open in
              let gen := ystr gen "x" in
              let gen := y gen (yajl_gen_integer (Rect.x (rect ws))) in
              let gen := ystr gen "y" in
              let gen := y gen (yajl_gen_integer (Rect.y (rect ws))) in
              let gen := ystr gen "width" in
              let gen := y gen (yajl_gen_integer (Rect.width (rect ws))) in
              let gen := ystr gen "height" in
              let gen := y gen (yajl_gen_integer (Rect.height (rect ws))) in
              let gen := y gen yajl_gen_map_close in
              let gen := ystr gen "output" in
              let gen := ystr gen (name output) in
              let gen := ystr gen "urgent" in
              let gen := y gen (yajl_gen_bool (urgent ws)) in
              ret (y gen yajl_gen_map_close))
           (nodes_head (output_get_content output)) gen)
    (nodes_head croot) gen ;;
  let gen := y gen yajl_gen_array_close in
  let payload := yajl_gen_get_buf gen in
  perform [ipc_send_message fd (N.of_nat (String.length payload))
                            I3_IPC_REPLY_TYPE_WORKSPACES payload].

(** ** handle_get_outputs (ipc.c, lines 451-497) *)
Definition handle_get_outputs (fd : Z) (message : string) (size : Z)
    (message_size message_type : N) : M unit :=
  let gen := ygenalloc in
  let gen := y gen yajl_gen_array_open in
  let gen :=
    fold_left
      (fun gen output =>
         let gen := y gen yajl_gen_map_open in
         let gen := ystr gen "name" in
         let gen := ystr gen (Output.name output) in
         let gen := ystr gen "active" in
         let gen := y gen (yajl_gen_bool (Output.active output)) in
         let gen := ystr gen "primary" in
         let gen := y gen (yajl_gen_bool (Output.primary output)) in
         let gen := ystr gen "rect" in
         let gen := y gen yajl_gen_map_open in
         let gen := ystr gen "x" in
         let gen := y gen (yajl_gen_integer (Rect.x (Output.rect output))) in
         let gen := ystr gen "y" in
         let gen := y gen (yajl_gen_integer (Rect.y (Output.rect output))) in
         let gen := ystr gen "width" in
         let gen := y gen (yajl_gen_integer (Rect.width (Output.rect output))) in
         let gen := ystr gen "height" in
         let gen := y gen (yajl_gen_integer (Rect.height (Output.rect output))) in
         let gen := y gen yajl_gen_map_close in
         let gen := ystr gen "current_workspace" in
         let gen :=
           match Output.con output with
           | Some c =>
               match con_get_fullscreen_con c with
               | Some ws => ystr gen (name ws)
               | None => y gen yajl_gen_null
               end
           | None => y gen yajl_gen_null
           end in
         y gen yajl_gen_map_close)
      outputs gen in
  let gen := y gen yajl_gen_array_close in
  let payload := yajl_gen_get_buf gen in
  perform [ipc_send_message fd (N.of_nat (String.length payload))
                            I3_IPC_REPLY_TYPE_OUTPUTS payload].

(** ** handle_get_marks (ipc.c, lines 504-521) *)
Definition handle_get_marks (fd : Z) (message : string) (size : Z)
    (message_size message_type : N) : M unit :=
  let gen := ygenalloc in
  let gen := y gen yajl_gen_array_open in
  let gen :=
    fold_left
      (fun gen con =>
         match mark con with
         | Some m => ystr gen m
         | None => gen
         end)
      all_cons gen in
  let gen := y gen yajl_gen_array_close in
  let payload := yajl_gen_get_buf gen in
  perform [ipc_send_message fd (N.of_nat (String.length payload))
                            I3_IPC_REPLY_TYPE_MARKS payload].

(** ** handle_get_version (ipc.c, lines 527-551) *)
Definition handle_get_version (fd : Z) (message : string) (size : Z)
    (message_size message_type : N) : M unit :=
  let gen := ygenalloc in
  let gen := y gen yajl_gen_map_open in
  let gen := ystr gen "major" in
  let gen := y gen (yajl_gen_integer MAJOR_VERSION) in
  let gen := ystr gen "minor" in
  let gen := y gen (yajl_gen_integer MINOR_VERSION) in
  let gen := ystr gen "patch" in
  let gen := y gen (yajl_gen_integer PATCH_VERSION) in
  let gen := ystr gen "human_readable" in
  let gen := ystr gen I3_VERSION in
  let gen := y gen yajl_gen_map_close in
  let payload := yajl_gen_get_buf gen in
  perform [ipc_send_message fd (N.of_nat (String.length payload))
                            I3_IPC_REPLY_TYPE_VERSION payload].

(** ** handle_get_bar_config (ipc.c, lines 558-734) *)

(** [YSTR_IF_SET(name)]. *)
Definition YSTR_IF_SET (gen : yajl_gen) (key : string) (value : option string)
    : yajl_gen :=
  match value with
  | Some v => ystr (ystr gen key) v
  | None => gen
  end.

(** The search loop: the first configuration whose id is [bar_id]. *)
Fixpoint find_barconfig (configs : list Barconfig.t) (bar_id : string)
    : option Barconfig.t :=
  match configs with
  | [] => None
  | current :: rest =>
      if negb (strcmp (Barconfig.id current) bar_id =? 0)%Z
      then find_barconfig rest bar_id
      else Some current
  end.

(** The fields of a configuration that was found (lines 601-721). *)
Definition dump_bar_config (gen : yajl_gen) (config : Barconfig.t) : yajl_gen :=
  let gen := ystr gen "id" in
  let gen := ystr gen (Barconfig.id config) in
  let gen :=
    if (0 <? Barconfig.num_outputs config)%nat then
      let gen := ystr gen "outputs" in
      let gen := y gen yajl_gen_array_open in
      let gen := fold_left ystr (Barconfig.outputs config) gen in
      y gen yajl_gen_array_close
    else gen in
  let gen := YSTR_IF_SET gen "tray_output" (Barconfig.tray_output config) in
  let gen := YSTR_IF_SET gen "socket_path" (Barconfig.socket_path config) in
  let gen := ystr gen "mode" in
  let gen :=
    match Barconfig.mode config with
    | Barconfig.M_HIDE => ystr gen "hide"
    | Barconfig.M_INVISIBLE => ystr gen "invisible"
    | Barconfig.M_DOCK => ystr gen "dock"
    end in
  let gen := ystr gen "hidden_state" in
  let gen :=
    match Barconfig.hidden_state config with
    | Barconfig.S_SHOW => ystr gen "show"
    | Barconfig.S_HIDE => ystr gen "hide"
    end in
  let gen := ystr gen "modifier" in
  let gen :=
    match Barconfig.modifier config with
    | Barconfig.M_CONTROL => ystr gen "ctrl"
    | Barconfig.M_SHIFT => ystr gen "shift"
    | Barconfig.M_MOD1 => ystr gen "Mod1"
    | Barconfig.M_MOD2 => ystr gen "Mod2"
    | Barconfig.M_MOD3 => ystr gen "Mod3"
    | Barconfig.M_MOD5 => ystr gen "Mod5"
    | _ => ystr gen "Mod4"
    end in
  let gen := ystr gen "position" in
  let gen :=
    match Barconfig.position config with
    | Barconfig.P_BOTTOM => ystr gen "bottom"
    | _ => ystr gen "top"
    end in
  let gen := YSTR_IF_SET gen "status_command" (Barconfig.status_command config) in
  let gen := YSTR_IF_SET gen "font" (Barconfig.font config) in
  let gen := ystr gen "workspace_buttons" in
  let gen := y gen (yajl_gen_bool (negb (Barconfig.hide_workspace_buttons config))) in
  let gen := ystr gen "binding_mode_indicator" in
  let gen := y gen (yajl_gen_bool (negb (Barconfig.hide_binding_mode_indicator config))) in
  let gen := ystr gen "verbose" in
  let gen := y gen (yajl_gen_bool (Barconfig.verbose config)) in
  let colors := Barconfig.colors config in
  let gen := ystr gen "colors" in
  let gen := y gen yajl_gen_map_open in
  let gen := YSTR_IF_SET gen "background" (Barconfig.background colors) in
  let gen := YSTR_IF_SET gen "statusline" (Barconfig.statusline colors) in
  let gen := YSTR_IF_SET gen "separator" (Barconfig.separator colors) in
  let gen := YSTR_IF_SET gen "focused_workspace_border" (Barconfig.focused_workspace_border colors) in
  let gen := YSTR_IF_SET gen "focused_workspace_bg" (Barconfig.focused_workspace_bg colors) in
  let gen := YSTR_IF_SET gen "focused_workspace_text" (Barconfig.focused_workspace_text colors) in
  let gen := YSTR_IF_SET gen "active_workspace_border" (Barconfig.active_workspace_border colors) in
  let gen := YSTR_IF_SET gen "active_workspace_bg" (Barconfig.active_workspace_bg colors) in
  let gen := YSTR_IF_SET gen "active_workspace_text" (Barconfig.active_workspace_text colors) in
  let gen := YSTR_IF_SET gen "inactive_workspace_border" (Barconfig.inactive_workspace_border colors) in
  let gen := YSTR_IF_SET gen "inactive_workspace_bg" (Barconfig.inactive_workspace_bg colors) in
  let gen := YSTR_IF_SET gen "inactive_workspace_text" (Barconfig.inactive_workspace_text colors) in
  let gen := YSTR_IF_SET gen "urgent_workspace_border" (Barconfig.urgent_workspace_border colors) in
  let gen := YSTR_IF_SET gen "urgent_workspace_bg" (Barconfig.urgent_workspace_bg colors) in
  let gen := YSTR_IF_SET gen "urgent_workspace_text" (Barconfig.urgent_workspace_text colors) in
  y gen yajl_gen_map_close.

Definition handle_get_bar_config (fd : Z) (message : string) (size : Z)
    (message_size message_type : N) : M unit :=
  let gen := ygenalloc in
  (* If no ID was passed, we return a JSON array with all IDs *)
  if (message_size =? 0)%N then
    let gen := y gen yajl_gen_array_open in
    let gen := fold_left (fun gen current => ystr gen (Barconfig.id current))
                         barconfigs gen in
    let gen := y gen yajl_gen_array_close in
    let payload := yajl_gen_get_buf gen in
    perform [ipc_send_message fd (N.of_nat (String.length payload))
                              I3_IPC_REPLY_TYPE_BAR_CONFIG payload]
  else
    (* To get a properly terminated buffer, we copy message_size bytes
       out of the buffer *)
    bar_id <- copy_message message message_size ;;
    perform [log LOG ("IPC: looking for config for bar ID "
                      +:+ dq +:+ "%s" +:+ dq)] ;;
    let config := find_barconfig barconfigs bar_id in
    let gen := y gen yajl_gen_map_open in
    let gen :=
      match config with
      | None =>
          (* If we did not find a config for the given ID, the reply will
             contain a null 'id' field. *)
          let gen := ystr gen "id" in
          y gen yajl_gen_null
      | Some config => dump_bar_config gen config
      end in
    let gen := y gen yajl_gen_map_close in
    let payload := yajl_gen_get_buf gen in
    perform [ipc_send_message fd (N.of_nat (String.length payload))
                              I3_IPC_REPLY_TYPE_BAR_CONFIG payload].

(** ** add_subscription (ipc.c, lines 740-760)

    [client] is the position in [all_clients] of the struct that the
    callback's [extra] points to. *)
Definition subscribe_client (p : ptr) (c : ipc_client) : ipc_client :=
  {| fd := fd c; events := events c ++ [p] |}.

Definition add_subscription (client : nat) (s : string) (len : N) : M Z :=
  perform [log DLOG "should add subscription to extra %p, sub %.*s"] ;;
  st <- get ;;
  match all_clients st !! client with
  | None => crash InvalidPointer
  | Some c =>
      (* We copy the string because it is not null-terminated and
         strndup() is missing on some BSD systems *)
      p <- scalloc_copy (substring 0 (N.to_nat len) s) ;;
      modify (fun st => set_clients (alter (subscribe_client p) client
                                           (all_clients st)) st) ;;
      perform [log DLOG "client is now subscribed to:"] ;;
      perform (replicate (S (num_events c)) (log DLOG "event %s")) ;;
      perform [log DLOG "(done)"] ;;
      ret 1%Z
  end.

(** ** handle_subscribe (ipc.c, lines 767-808) *)

(** The search loop: the first client of the queue with this [fd]. *)
Definition find_client (fd0 : Z) (cs : list ipc_client)
    : option (nat * ipc_client) :=
  list_find (fun current => fd current = fd0) cs.

Definition reply_success_false : string :=
  "{" +:+ dq +:+ "success" +:+ dq +:+ ":false}".
Definition reply_success_true : string :=
  "{" +:+ dq +:+ "success" +:+ dq +:+ ":true}".

Definition handle_subscribe (fd : Z) (message : string) (size : Z)
    (message_size message_type : N) : M unit :=
  st <- get ;;
  (* Search the ipc_client structure for this connection *)
  match find_client fd (all_clients st) with
  | None =>
      perform [log ELOG "Could not find ipc_client data structure for fd %d"]
  | Some (client, _) =>
      (* Setup the JSON parser *)
      stat <- yajl_parse (add_subscription client) message message_size ;;
      match stat with
      | yajl_status_ok =>
          let reply := reply_success_true in
          perform [ipc_send_message fd (strlen reply)
                                    I3_IPC_REPLY_TYPE_SUBSCRIBE reply]
      | _ =>
          perform [log ELOG "YAJL parse error: %s"] ;;
          let reply := reply_success_false in
          perform [ipc_send_message fd (strlen reply)
                                    I3_IPC_REPLY_TYPE_SUBSCRIBE reply]
      end
  end.

(** ** The handler table (ipc.c, lines 810-821) *)

Definition handler_t : Type := Z -> string -> Z -> N -> N -> M unit.

(* The index of each callback function corresponds to the numeric
   value of the message type (see include/i3/ipc.h) *)
Definition handlers : list handler_t := [
  handle_command;
  handle_get_workspaces;
  handle_subscribe;
  handle_get_outputs;
  handle_tree;
  handle_get_marks;
  handle_get_bar_config;
  handle_get_version
].

(** ** ipc_receive_message (ipc.c, lines 833-877)

    [ret], [errno], [message_type], [message_length] and [message] are
    what [ipc_recv_message] (libi3) handed back for the descriptor
    [w_fd] of the watcher. *)

Fixpoint free_events (evs : list ptr) : M unit :=
  match evs with
  | [] => ret tt
  | p :: rest => free p ;; free_events rest
  end.

(** Delete the client from the list of clients. *)
Definition delete_client (w_fd : Z) : M unit :=
  st <- get ;;
  match find_client w_fd (all_clients st) with
  | None => ret tt
  | Some (i, current) =>
      free_events (events current) ;;
      (* We can call TAILQ_REMOVE because we break out of the
         TAILQ_FOREACH afterwards *)
      modify (fun st => set_clients (delete i (all_clients st)) st)
  end.

Definition ipc_receive_message (w_fd : Z) (ret_ errno : Z)
    (message_type message_length : N) (message : string) : M unit :=
  (* EOF or other error *)
  if (ret_ <? 0)%Z then
    (* Was this a spurious read? See ev(3) *)
    if (ret_ =? -1)%Z && (errno =? EAGAIN)%Z then ret tt
    else
      (* If not, there was some kind of error. We don't bother
         and close the connection *)
      perform [sys_close w_fd] ;;
      delete_client w_fd ;;
      perform [ev_io_stop w_fd] ;;
      perform [log DLOG "IPC: client disconnected"]
  else if (N.of_nat (length handlers) <=? message_type)%N then
    perform [log DLOG "Unhandled message type: %d"]
  else
    match handlers !! N.to_nat message_type with
    | Some h => h w_fd message 0%Z message_length message_type
    | None => crash InvalidPointer
    end.

(** ** ipc_new_client (ipc.c, lines 886-912)

    [client] and [errno] are the result of [accept] on the listening
    descriptor [w_fd]; [setfl] is the result of [fcntl(F_SETFL)]. *)

(** set_nonblock (lines 33-38). *)
Definition set_nonblock (sockfd : Z) (setfl : Z) : M unit :=
  perform [sys_fcntl sockfd F_GETFL; sys_fcntl sockfd F_SETFL_O_NONBLOCK] ;;
  if (setfl <? 0)%Z then crash ProcessExit else ret tt.

Definition ipc_new_client (w_fd : Z) (client errno setfl : Z) : M unit :=
  if (client <? 0)%Z then
    if (errno =? EINTR)%Z then ret tt
    else perform [log PERROR "accept()"]
  else
    (* Close this file descriptor on exec() *)
    perform [sys_fcntl client F_SETFD_FD_CLOEXEC] ;;
    set_nonblock client setfl ;;
    perform [ev_io_start client] ;;
    perform [log DLOG "IPC: new client connected on fd %d"] ;;
    let new := {| fd := client; events := [] |} in
    modify (fun st => set_clients (all_clients st ++ [new]) st).

End Handlers.

(** ** What the theorems speak about *)

(** The names a client is subscribed to: the contents of the buffers
    its [events] array points to, in order. *)
Definition subscriptions (st : ipc_state) (c : ipc_client) : list string :=
  omap (fun p => heap st !! p) (events c).

(** The client has an entry that equals [event] up to case. *)
Definition subscribed (st : ipc_state) (event : string) (c : ipc_client) : Prop :=
  Exists (fun name => ci_equal name event) (subscriptions st c).

(** The event-name buffers that the registry points to. *)
Definition event_ptrs (cs : list ipc_client) : list ptr := cs ≫= events.

(** The invariant of the registry: descriptors identify clients, and
    every [events] entry points to a live buffer of its own. *)
Definition registry_ok (st : ipc_state) : Prop :=
  NoDup (fd <$> all_clients st) ∧
  NoDup (event_ptrs (all_clients st)) ∧
  Forall (fun p => is_Some (heap st !! p)) (event_ptrs (all_clients st)).

#[global] Instance ci_equal_dec s1 s2 : Decision (ci_equal s1 s2).
Proof. unfold ci_equal. apply _. Defined.

#[global] Instance subscribed_dec st event c : Decision (subscribed st event c).
Proof. unfold subscribed. apply _. Defined.

#[global] Instance registry_ok_dec st : Decision (registry_ok st).
Proof. unfold registry_ok. apply _. Defined.

(** The calls of [ipc_send_message] in a trace. *)
Definition message_of (e : effect) : option (Z * N * N * string) :=
  match e with
  | ipc_send_message sockfd size ty payload => Some (sockfd, size, ty, payload)
  | _ => None
  end.

Definition messages (tr : list effect) : list (Z * N * N * string) :=
  omap message_of tr.

(** Those that went to one descriptor. *)
Definition messages_to (sockfd : Z) (tr : list effect) : list (N * N * string) :=
  omap (fun m : Z * N * N * string =>
          let '(f, size, ty, payload) := m in
          if decide (f = sockfd) then Some (size, ty, payload) else None)
       (messages tr).

(** The string values among the events of a parse, in order. *)
Definition string_values (evs : list yajl_event) : list string :=
  omap (fun ev => match ev with yajl_string s => Some s | _ => None end) evs.

(** The message [ipc_send_event] hands to [ipc_send_message] for a
    client. *)
Definition event_message (message_type : N) (payload : string)
    (c : ipc_client) : effect :=
  ipc_send_message (fd c) (strlen payload) message_type payload.

(** How a run of the parser callback relates the state before and
    after: client [i] has [names] appended to its subscriptions, and
    nothing else about the registry has changed. *)
Definition subscribed_more (i : nat) (names : list string) (st st' : ipc_state)
    : Prop :=
  registry_ok st'
  ∧ length (all_clients st') = length (all_clients st)
  ∧ (∀ j, j ≠ i → all_clients st' !! j = all_clients st !! j)
  ∧ (∃ c c', all_clients st !! i = Some c ∧ all_clients st' !! i = Some c'
             ∧ fd c' = fd c
             ∧ num_events c' = num_events c + length names
             ∧ subscriptions st' c' = subscriptions st c ++ names)
  ∧ heap st ⊆ heap st'
  ∧ messages (trace st') = messages (trace st).

(** The reply to a SUBSCRIBE request on descriptor [fd0]. *)
Definition subscribe_reply `{Host} (syntax_error : bool) (fd0 : Z)
    : Z * N * N * string :=
  let reply := if syntax_error then reply_success_false else reply_success_true in
  (fd0, strlen reply, I3_IPC_REPLY_TYPE_SUBSCRIBE, reply).

(** The text of the reply to a SUBSCRIBE request, written out byte by
    byte: an object with the one field [success]; 34 is the code of the
    double quote. *)
Definition success_reply (success : bool) : string :=
  String "{"
    (String (ascii_of_nat 34)
       ("success"
        +:+ String (ascii_of_nat 34)
              (":" +:+ (if success then "true" else "false") +:+ "}"))).

(** The text a request carries: the first [message_size] bytes of the
    message, up to the first NUL byte among them. *)
Fixpoint until_nul (bytes : list ascii) : list ascii :=
  match bytes with
  | [] => []
  | c :: rest => if Ascii.eqb c "000" then [] else c :: until_nul rest
  end.

Definition requested_text (message : string) (message_size : N) : string :=
  string_of_list_ascii
    (until_nul (take (N.to_nat message_size) (list_ascii_of_string message))).

(** The text of a C string: its bytes up to the first NUL byte. *)
Definition c_text (s : string) : string :=
  string_of_list_ascii (until_nul (list_ascii_of_string s)).

(** A length that fits the [uint32_t] of the message header. *)
Definition UINT32_MAX : N := 4294967295.

(** The line [dump_node] logs for a node whose layout is the default. *)
Definition layout_default_log : effect :=
  log DLOG "About to dump layout=default, this is a bug in the code.".

(** A computation that changes nothing but the trace. *)
Definition trace_only {A} (m : M A) : Prop :=
  ∀ st, ∃ es, (m st).2 = emit es st.

(** What happens to the process between two waits of the event loop: a
    connection is accepted, a client descriptor is readable, the window
    manager publishes an event, or it shuts the IPC down. *)
Inductive reactor_event :=
  | connection (w_fd client errno setfl : Z)
  | readable (w_fd ret_ errno : Z) (message_type message_length : N)
             (message : string)
  | published (event : string) (message_type : N) (payload : string)
  | shut_down.

Definition react `{Yajl} `{Host} (e : reactor_event) : M unit :=
  match e with
  | connection w_fd client errno setfl => ipc_new_client w_fd client errno setfl
  | readable w_fd ret_ errno message_type message_length message =>
      ipc_receive_message w_fd ret_ errno message_type message_length message
  | published event message_type payload =>
      ipc_send_event event message_type payload
  | shut_down => ipc_shutdown
  end.

(** [accept] returns a descriptor that is not in use, so none that a
    registered client holds. *)
Definition accept_is_fresh (e : reactor_event) (st : ipc_state) : Prop :=
  match e with
  | connection _ client _ _ => (0 ≤ client)%Z → client ∉ fd <$> all_clients st
  | _ => True
  end.

(** The states between events, from start-up on; a run that stops the
    process has no next state. *)
Inductive reachable `{Yajl} `{Host} : ipc_state → Prop :=
  | reachable_start :
      reachable {| all_clients := []; heap := ∅; trace := [] |}
  | reachable_step st e st' :
      reachable st → accept_is_fresh e st → react e st = (Done tt, st') →
      reachable st'.

(** The functions of other files that run inside [handle_command] leave
    a well-formed registry well formed. *)
Definition host_keeps_registry `{Host} : Prop :=
  (∀ command st, registry_ok st → registry_ok (parse_command command st).2)
  ∧ (∀ st, registry_ok st → registry_ok (tree_render st).2).

(** The token of the protocol for each layout; the default layout has
    none. *)
Definition layout_token (l : layout_t) : option string :=
  match l with
  | L_DEFAULT => None
  | L_SPLITV => Some "splitv"
  | L_SPLITH => Some "splith"
  | L_STACKED => Some "stacked"
  | L_TABBED => Some "tabbed"
  | L_DOCKAREA => Some "dockarea"
  | L_OUTPUT => Some "output"
  end.

(** *** The JSON document a sequence of generator calls denotes *)

#[warnings="-register-all"]
Inductive json :=
  | JNull
  | JBool (b : bool)
  | JInteger (n : Z)
  | JDouble (d : float)
  | JString (s : string)
  | JArray (items : list json)
  | JObject (fields : list (string * json)).

(** A container under construction; items and fields are kept in
    reverse. *)
Inductive json_frame :=
  | in_array (items : list json)
  | in_object (fields : list (string * json)) (key : option string).

(** The state of the reading: open containers, innermost first, and the
    finished document once the outermost value is closed. *)
Definition json_reading : Type := list json_frame * option json.

Definition json_value (v : json) (r : json_reading) : option json_reading :=
  match r with
  | ([], None) => Some ([], Some v)
  | ([], Some _) => None
  | (in_array items :: stack, top) => Some (in_array (v :: items) :: stack, top)
  | (in_object fields (Some k) :: stack, top) =>
      Some (in_object ((k, v) :: fields) None :: stack, top)
  | (in_object fields None :: stack, top) =>
      match v with
      | JString k => Some (in_object fields (Some k) :: stack, top)
      | _ => None
      end
  end.

Definition json_call (c : yajl_gen_call) (r : json_reading) : option json_reading :=
  match c with
  | yajl_gen_null => json_value JNull r
  | yajl_gen_bool b => json_value (JBool b) r
  | yajl_gen_integer n => json_value (JInteger n) r
  | yajl_gen_double d => json_value (JDouble d) r
  | yajl_gen_string s => json_value (JString s) r
  | yajl_gen_array_open => Some (in_array [] :: r.1, r.2)
  | yajl_gen_map_open => Some (in_object [] None :: r.1, r.2)
  | yajl_gen_array_close =>
      match r with
      | (in_array items :: stack, top) => json_value (JArray (rev items)) (stack, top)
      | _ => None
      end
  | yajl_gen_map_close =>
      match r with
      | (in_object fields None :: stack, top) =>
          json_value (JObject (rev fields)) (stack, top)
      | _ => None
      end
  end.

Fixpoint json_read (gen : yajl_gen) (r : json_reading) : option json_reading :=
  match gen with
  | [] => Some r
  | c :: rest =>
      match json_call c r with
      | Some r' => json_read rest r'
      | None => None
      end
  end.

Definition json_of (gen : yajl_gen) : option json :=
  match json_read gen ([], None) with
  | Some ([], Some v) => Some v
  | _ => None
  end.

(** ** A sample environment

    A small JSON reader and writer and a sample host, with which the
    functions above run on concrete messages. The statements below hold
    for every instance of [Yajl] and [Host]; this one serves the
    examples. *)

Module Sample.

Inductive token :=
  | T_left_bracket | T_right_bracket | T_left_brace | T_right_brace
  | T_comma | T_colon
  | T_string (s : string)
  | T_number (text : string)
  | T_bool (b : bool)
  | T_null
  | T_invalid.

Inductive scanning :=
  | between
  | in_string (acc : string)
  | in_word (acc : string).

Definition is_space (c : ascii) : bool :=
  let n := N_of_ascii c in ((n =? 32) || (n =? 9) || (n =? 10) || (n =? 13))%N.

Definition is_digit_char (c : ascii) : bool :=
  let n := N_of_ascii c in ((48 <=? n) && (n <=? 57))%N.

Fixpoint all_digits (s : string) : bool :=
  match s with
  | EmptyString => true
  | String c r => is_digit_char c && all_digits r
  end.

Definition word_token (w : string) : token :=
  if String.eqb w "true" then T_bool true
  else if String.eqb w "false" then T_bool false
  else if String.eqb w "null" then T_null
  else match w with
       | String "-"%char (String c r) =>
           if all_digits (String c r) then T_number w else T_invalid
       | String _ _ => if all_digits w then T_number w else T_invalid
       | EmptyString => T_invalid
       end.

Definition punctuation (c : ascii) : option token :=
  if Ascii.eqb c "["%char then Some T_left_bracket
  else if Ascii.eqb c "]"%char then Some T_right_bracket
  else if Ascii.eqb c "{"%char then Some T_left_brace
  else if Ascii.eqb c "}"%char then Some T_right_brace
  else if Ascii.eqb c ","%char then Some T_comma
  else if Ascii.eqb c ":"%char then Some T_colon
  else None.

(** Strings are read up to the closing quote; escapes are not decoded,
    a backslash makes the token invalid. *)
Fixpoint scan (mode : scanning) (s : string) : list token :=
  match s with
  | EmptyString =>
      match mode with
      | between => []
      | in_string _ => [T_invalid]
      | in_word w => [word_token w]
      end
  | String c r =>
      match mode with
      | in_string acc =>
          if Ascii.eqb c "034"%char then T_string acc :: scan between r
          else if Ascii.eqb c "\"%char then [T_invalid]
          else scan (in_string (acc +:+ String c EmptyString)) r
      | in_word w =>
          if is_space c then word_token w :: scan between r
          else match punctuation c with
               | Some t => word_token w :: t :: scan between r
               | None =>
                   if Ascii.eqb c "034"%char then [word_token w; T_invalid]
                   else scan (in_word (w +:+ String c EmptyString)) r
               end
      | between =>
          if is_space c then scan between r
          else if Ascii.eqb c "034"%char then scan (in_string EmptyString) r
          else match punctuation c with
               | Some t => t :: scan between r
               | None => scan (in_word (String c EmptyString)) r
               end
      end
  end.

Inductive position :=
  | at_start | at_end
  | map_start | map_sep | map_need_val | map_got_val | map_need_key
  | array_start | array_got_val | array_need_val.

Definition after_value (stack : list position) : list position :=
  match stack with
  | at_start :: r => at_end :: r
  | map_need_val :: r => map_got_val :: r
  | array_start :: r | array_need_val :: r => array_got_val :: r
  | _ => stack
  end.

Definition and_then (ev : yajl_event) (k : list yajl_event * bool)
    : list yajl_event * bool :=
  (ev :: k.1, k.2).

Definition syntax_error : list yajl_event * bool := ([], true).

Fixpoint parse (stack : list position) (toks : list token)
    : list yajl_event * bool :=
  match toks with
  | [] =>
      match stack with
      | [at_end] => ([], false)
      | _ => syntax_error
      end
  | t :: rest =>
      match stack with
      | [] => syntax_error
      | (at_start | map_need_val | array_need_val | array_start) as s :: r =>
          match t with
          | T_string x => and_then (yajl_string x) (parse (after_value stack) rest)
          | T_number x => and_then (yajl_number x) (parse (after_value stack) rest)
          | T_bool b => and_then (yajl_boolean b) (parse (after_value stack) rest)
          | T_null => and_then yajl_null (parse (after_value stack) rest)
          | T_left_brace => and_then yajl_start_map (parse (map_start :: stack) rest)
          | T_left_bracket => and_then yajl_start_array (parse (array_start :: stack) rest)
          | T_right_bracket =>
              match s with
              | array_start => and_then yajl_end_array (parse (after_value r) rest)
              | _ => syntax_error
              end
          | _ => syntax_error
          end
      | (map_start | map_need_key) as s :: r =>
          match t with
          | T_string x => and_then (yajl_map_key x) (parse (map_sep :: r) rest)
          | T_right_brace =>
              match s with
              | map_start => and_then yajl_end_map (parse (after_value r) rest)
              | _ => syntax_error
              end
          | _ => syntax_error
          end
      | map_sep :: r =>
          match t with
          | T_colon => parse (map_need_val :: r) rest
          | _ => syntax_error
          end
      | map_got_val :: r =>
          match t with
          | T_right_brace => and_then yajl_end_map (parse (after_value r) rest)
          | T_comma => parse (map_need_key :: r) rest
          | _ => syntax_error
          end
      | array_got_val :: r =>
          match t with
          | T_right_bracket => and_then yajl_end_array (parse (after_value r) rest)
          | T_comma => parse (array_need_val :: r) rest
          | _ => syntax_error
          end
      | at_end :: _ => syntax_error
      end
  end.

Definition lex (text : string) : list yajl_event * bool :=
  parse [at_start] (scan between text).

(** The writer: compact JSON text. *)
Inductive writing := w_array (first : bool) | w_key (first : bool) | w_value.

Definition separator (stack : list writing) : string * list writing :=
  match stack with
  | [] => ("", [])
  | w_array first :: r => (if first then "" else ",", w_array false :: r)
  | w_key first :: r => (if first then "" else ",", w_value :: r)
  | w_value :: r => (":", w_key false :: r)
  end.

Fixpoint escape (s : string) : string :=
  match s with
  | EmptyString => EmptyString
  | String c r =>
      if Ascii.eqb c "034"%char || Ascii.eqb c "\"%char
      then String "\"%char (String c (escape r))
      else String c (escape r)
  end.

Definition scalar_text (c : yajl_gen_call) : string :=
  match c with
  | yajl_gen_null => "null"
  | yajl_gen_bool b => if b then "true" else "false"
  | yajl_gen_integer n => pretty n
  | yajl_gen_double _ => "0.0"
  | yajl_gen_string s => dq +:+ escape s +:+ dq
  | _ => ""
  end.

Fixpoint write (stack : list writing) (gen : yajl_gen) : string :=
  match gen with
  | [] => ""
  | c :: rest =>
      match c with
      | yajl_gen_array_close => "]" +:+ write (tail stack) rest
      | yajl_gen_map_close => "}" +:+ write (tail stack) rest
      | yajl_gen_array_open =>
          let '(sep, stack') := separator stack in
          sep +:+ "[" +:+ write (w_array true :: stack') rest
      | yajl_gen_map_open =>
          let '(sep, stack') := separator stack in
          sep +:+ "{" +:+ write (w_key true :: stack') rest
      | _ =>
          let '(sep, stack') := separator stack in
          sep +:+ scalar_text c +:+ write stack' rest
      end
  end.

#[global] Instance yajl : Yajl := {|
  yajl_lex := lex;
  yajl_gen_get_buf := write []
|}.

Definition no_rect : Rect.t := Rect.mk 0 0 0 0.

Definition leaf (a : Z) (l : layout_t) (children : list Con) : Con :=
  {| addr := a; type := 2; scratchpad_state := SCRATCHPAD_NONE;
     percent := 0%float; urgent := false; mark := None;
     layout := l; workspace_layout := L_DEFAULT; border_style := BS_NORMAL;
     current_border_width := 2; rect := no_rect; window_rect := no_rect;
     geometry := no_rect; name := "con"; window := None; num := -1;
     nodes_head := children; floating_head := []; focus_head := [];
     fullscreen_mode := 0; floating := FLOATING_AUTO_OFF;
     swallow_head := []; depth := 0 |}.

Definition no_colors : Barconfig.bar_colors :=
  Barconfig.mk_colors None None None None None None None None None None
                      None None None None None.

Definition bar (name : string) : Barconfig.t :=
  {| Barconfig.id := name; Barconfig.outputs := [];
     Barconfig.tray_output := None; Barconfig.socket_path := None;
     Barconfig.mode := Barconfig.M_DOCK;
     Barconfig.hidden_state := Barconfig.S_HIDE;
     Barconfig.modifier := Barconfig.M_MOD4;
     Barconfig.position := Barconfig.P_BOTTOM;
     Barconfig.status_command := None; Barconfig.font := None;
     Barconfig.hide_workspace_buttons := false;
     Barconfig.hide_binding_mode_indicator := false;
     Barconfig.verbose := false; Barconfig.colors := no_colors |}.

(** A development build (assertions on) with two bars and a tree in
    which the child of the root was left at the default layout. *)
#[global] Instance host : Host := {|
  NDEBUG := false;
  EAGAIN := 11;
  EINTR := 4;
  I3_IPC_REPLY_TYPE_COMMAND := 0;
  I3_IPC_REPLY_TYPE_WORKSPACES := 1;
  I3_IPC_REPLY_TYPE_SUBSCRIBE := 2;
  I3_IPC_REPLY_TYPE_OUTPUTS := 3;
  I3_IPC_REPLY_TYPE_TREE := 4;
  I3_IPC_REPLY_TYPE_MARKS := 5;
  I3_IPC_REPLY_TYPE_BAR_CONFIG := 6;
  I3_IPC_REPLY_TYPE_VERSION := 7;
  CT_WORKSPACE := 4;
  CT_DOCKAREA := 5;
  MAJOR_VERSION := 4;
  MINOR_VERSION := 7;
  PATCH_VERSION := 0;
  I3_VERSION := "4.7";
  croot := leaf 1 L_SPLITH [leaf 2 L_DEFAULT []];
  focused := 2;
  all_cons := [];
  outputs := [];
  barconfigs := [bar "bar-0"; bar "bar-1"];
  con_is_split := fun con => negb (bool_decide (nodes_head con = []));
  con_orientation := fun _ => HORIZ;
  con_get_workspace := fun a => a;
  con_is_internal := fun _ => false;
  output_get_content := fun con => con;
  workspace_is_visible := fun _ => true;
  con_get_fullscreen_con := fun _ => None;
  parse_command := fun _ => ret {| json_gen := [yajl_gen_array_open; yajl_gen_array_close];
                                   needs_tree_render := false |};
  tree_render := ret tt
|}.

(** Messages used in the examples. *)
Definition quoted (s : string) : string := dq +:+ s +:+ dq.

Definition empty_state : ipc_state :=
  {| all_clients := []; heap := ∅; trace := [] |}.

(** Four clients: 5 holds the same name twice, 6 holds it in another
    case, 7 holds another name, 8 holds none. *)
Definition four_clients : ipc_state :=
  {| all_clients := [ {| fd := 5; events := [1; 2]%positive |};
                      {| fd := 6; events := [3%positive] |};
                      {| fd := 7; events := [4%positive] |};
                      {| fd := 8; events := [] |} ];
     heap := list_to_map [ (1%positive, "workspace"); (2%positive, "workspace");
                           (3%positive, "Workspace"); (4%positive, "output") ];
     trace := [sys_close 9] |}.

End Sample.

(** ** More that the theorems speak about: the heap of event names *)

(** Every allocated buffer is one that a registered client points to. *)
Definition heap_tight (st : ipc_state) : Prop :=
  map_Forall (fun p _ => p ∈ event_ptrs (all_clients st)) (heap st).

#[global] Instance heap_tight_dec st : Decision (heap_tight st).
Proof. unfold heap_tight. apply _. Defined.

(** The functions of other files that run inside [handle_command]
    leave no buffer behind that the registry does not point to. *)
Definition host_keeps_heap `{Host} : Prop :=
  (∀ command st, registry_ok st → heap_tight st →
     heap_tight (parse_command command st).2)
  ∧ (∀ st, registry_ok st → heap_tight st → heap_tight (tree_render st).2).

(** A computation that never stops with the fault [f], whatever the
    state it starts in. *)
Definition never (f : fault) {A} (m : M A) : Prop :=
  ∀ st, (m st).1 ≠ Crash f.

(** The functions of other files that run inside [handle_command] do
    not stop with the fault [f]. *)
Definition host_never `{Host} (f : fault) : Prop :=
  (∀ command, never f (parse_command command)) ∧ never f tree_render.

(** The step copies a message whose length makes [message_size + 1]
    wrap: a COMMAND or a GET_BAR_CONFIG message of length 4294967295
    that was received without error. *)
Definition overruns (e : reactor_event) : Prop :=
  match e with
  | readable _ ret_ _ message_type message_length _ =>
      (0 ≤ ret_)%Z ∧ (message_type = 0%N ∨ message_type = 6%N)
      ∧ message_length = UINT32_MAX
  | _ => False
  end.

(** The length of the message is one its header can carry. *)
Definition fits_header (e : reactor_event) : Prop :=
  match e with
  | readable _ _ _ _ message_length _ => (message_length ≤ UINT32_MAX)%N
  | _ => True
  end.

(** ** The documents the replies denote *)

(** A field that is written only if the string is set. *)
Definition opt_field (key : string) (value : option string)
    : list (string * json) :=
  match value with
  | Some v => [(cstr key, JString (cstr v))]
  | None => []
  end.

Definition rect_json (r : Rect.t) : json :=
  JObject [("x", JInteger (Rect.x r)); ("y", JInteger (Rect.y r));
           ("width", JInteger (Rect.width r)); ("height", JInteger (Rect.height r))].

Section Replies.
Context `{Host}.

(** GET_MARKS: the marks of the containers that have one. *)
Definition marks_json : json :=
  JArray ((fun m => JString (cstr m)) <$> omap mark all_cons).

(** GET_VERSION. *)
Definition version_json : json :=
  JObject [("major", JInteger MAJOR_VERSION); ("minor", JInteger MINOR_VERSION);
           ("patch", JInteger PATCH_VERSION);
           ("human_readable", JString (cstr I3_VERSION))].

(** GET_OUTPUTS: one object for each output. *)
Definition output_json (output : Output.t) : json :=
  JObject [("name", JString (cstr (Output.name output)));
           ("active", JBool (Output.active output));
           ("primary", JBool (Output.primary output));
           ("rect", rect_json (Output.rect output));
           ("current_workspace",
            match Output.con output ≫= con_get_fullscreen_con with
            | Some ws => JString (cstr (name ws))
            | None => JNull
            end)].

Definition outputs_json : json := JArray (output_json <$> outputs).

(** GET_WORKSPACES: one object for each child of the content container
    of each output that is not internal. *)
Definition listed_workspaces : list (Con * Con) :=
  output ← nodes_head croot;
  if con_is_internal output then []
  else (fun ws => (output, ws)) <$> nodes_head (output_get_content output).

Definition workspace_json (listed : Con * Con) : json :=
  let '(output, ws) := listed in
  JObject [("num", if (num ws =? -1)%Z then JNull else JInteger (num ws));
           ("name", JString (cstr (name ws)));
           ("visible", JBool (workspace_is_visible ws));
           ("focused", JBool (addr ws =? con_get_workspace focused)%Z);
           ("rect", rect_json (rect ws));
           ("output", JString (cstr (name output)));
           ("urgent", JBool (urgent ws))].

Definition workspaces_json : json := JArray (workspace_json <$> listed_workspaces).

(** The assertion of the loop holds for every listed container. *)
Definition all_workspaces : bool :=
  forallb (fun listed : Con * Con => (type listed.2 =? CT_WORKSPACE)%Z)
          listed_workspaces.

End Replies.

(** What a loop body has done to the generator when it has written
    [items] into the array that is open. *)
Definition writes_items (g g' : yajl_gen) (items : list json) : Prop :=
  ∀ r0 its stack top,
    json_read g r0 = Some (in_array its :: stack, top) →
    json_read g' r0 = Some (in_array (rev items ++ its) :: stack, top).

(** What a run of generator calls does to the reading it starts in. *)
Definition reads (f : yajl_gen → yajl_gen) (r : json_reading)
    (r' : option json_reading) : Prop :=
  ∀ g r0, json_read g r0 = Some r → json_read (f g) r0 = r'.

(** GET_BAR_CONFIG for a bar that was found. *)
Definition bar_mode_token (mode : Barconfig.mode_t) : string :=
  match mode with
  | Barconfig.M_DOCK => "dock"
  | Barconfig.M_HIDE => "hide"
  | Barconfig.M_INVISIBLE => "invisible"
  end.

Definition bar_hidden_state_token (state : Barconfig.hidden_state_t) : string :=
  match state with
  | Barconfig.S_HIDE => "hide"
  | Barconfig.S_SHOW => "show"
  end.

Definition bar_modifier_token (modifier : Barconfig.modifier_t) : string :=
  match modifier with
  | Barconfig.M_CONTROL => "ctrl"
  | Barconfig.M_SHIFT => "shift"
  | Barconfig.M_MOD1 => "Mod1"
  | Barconfig.M_MOD2 => "Mod2"
  | Barconfig.M_MOD3 => "Mod3"
  | Barconfig.M_MOD5 => "Mod5"
  | Barconfig.M_MOD4 | Barconfig.M_NONE => "Mod4"
  end.

Definition bar_position_token (position : Barconfig.position_t) : string :=
  match position with
  | Barconfig.P_BOTTOM => "bottom"
  | Barconfig.P_TOP => "top"
  end.

Definition bar_colors_json (colors : Barconfig.bar_colors) : json :=
  JObject
    (opt_field "background" (Barconfig.background colors)
     ++ opt_field "statusline" (Barconfig.statusline colors)
     ++ opt_field "separator" (Barconfig.separator colors)
     ++ opt_field "focused_workspace_border" (Barconfig.focused_workspace_border colors)
     ++ opt_field "focused_workspace_bg" (Barconfig.focused_workspace_bg colors)
     ++ opt_field "focused_workspace_text" (Barconfig.focused_workspace_text colors)
     ++ opt_field "active_workspace_border" (Barconfig.active_workspace_border colors)
     ++ opt_field "active_workspace_bg" (Barconfig.active_workspace_bg colors)
     ++ opt_field "active_workspace_text" (Barconfig.active_workspace_text colors)
     ++ opt_field "inactive_workspace_border" (Barconfig.inactive_workspace_border colors)
     ++ opt_field "inactive_workspace_bg" (Barconfig.inactive_workspace_bg colors)
     ++ opt_field "inactive_workspace_text" (Barconfig.inactive_workspace_text colors)
     ++ opt_field "urgent_workspace_border" (Barconfig.urgent_workspace_border colors)
     ++ opt_field "urgent_workspace_bg" (Barconfig.urgent_workspace_bg colors)
     ++ opt_field "urgent_workspace_text" (Barconfig.urgent_workspace_text colors)).

Definition bar_config_json (config : Barconfig.t) : json :=
  JObject
    ([("id", JString (cstr (Barconfig.id config)))]
     ++ (if (0 <? Barconfig.num_outputs config)%nat
         then [("outputs",
                JArray ((fun o => JString (cstr o)) <$> Barconfig.outputs config))]
         else [])
     ++ opt_field "tray_output" (Barconfig.tray_output config)
     ++ opt_field "socket_path" (Barconfig.socket_path config)
     ++ [("mode", JString (bar_mode_token (Barconfig.mode config)));
         ("hidden_state",
          JString (bar_hidden_state_token (Barconfig.hidden_state config)));
         ("modifier", JString (bar_modifier_token (Barconfig.modifier config)));
         ("position", JString (bar_position_token (Barconfig.position config)))]
     ++ opt_field "status_command" (Barconfig.status_command config)
     ++ opt_field "font" (Barconfig.font config)
     ++ [("workspace_buttons",
          JBool (negb (Barconfig.hide_workspace_buttons config)));
         ("binding_mode_indicator",
          JBool (negb (Barconfig.hide_binding_mode_indicator config)));
         ("verbose", JBool (Barconfig.verbose config));
         ("colors", bar_colors_json (Barconfig.colors config))]).

(** GET_TREE: the document of a container and its descendants. *)
Definition scratchpad_state_token (state : scratchpad_state_t) : string :=
  match state with
  | SCRATCHPAD_NONE => "none"
  | SCRATCHPAD_FRESH => "fresh"
  | SCRATCHPAD_CHANGED => "changed"
  end.

(** The token for [workspace_layout]; only three layouts have one. *)
Definition workspace_layout_token (l : layout_t) : option string :=
  match l with
  | L_DEFAULT => Some "default"
  | L_STACKED => Some "stacked"
  | L_TABBED => Some "tabbed"
  | _ => None
  end.

Definition last_split_layout_token (l : layout_t) : string :=
  match l with
  | L_SPLITV => "splitv"
  | _ => "splith"
  end.

Definition border_style_token (style : border_style_t) : string :=
  match style with
  | BS_NORMAL => "normal"
  | BS_NONE => "none"
  | BS_PIXEL => "pixel"
  end.

Definition floating_token (f : floating_t) : string :=
  match f with
  | FLOATING_AUTO_OFF => "auto_off"
  | FLOATING_AUTO_ON => "auto_on"
  | FLOATING_USER_OFF => "user_off"
  | FLOATING_USER_ON => "user_on"
  end.

Definition token_json (token : option string) : json :=
  match token with
  | Some t => JString t
  | None => JNull
  end.

Definition swallow_json (match_ : Match.t) : list json :=
  if negb (Match.dock match_ =? -1)%Z
  then [JObject [("dock", JInteger (Match.dock match_));
                 ("insert_where", JInteger (Match.insert_where match_))]]
  else [].

(** The name that is shown: the title of the window if it has one. *)
Definition shown_name (con : Con) : string :=
  match window con with
  | Some w =>
      match Window.name w with
      | Some n => n
      | None => name con
      end
  | None => name con
  end.

Section Tree.
Context `{Host}.

Definition orientation_token (con : Con) : string :=
  if negb (con_is_split con) then "none"
  else match con_orientation con with
       | HORIZ => "horizontal"
       | _ => "vertical"
       end.

(** The children in [nodes_head] are written unless the container is a
    dock area and the tree is dumped for a restart in place. *)
Definition dumps_nodes (inplace_restart : bool) (con : Con) : bool :=
  negb (type con =? CT_DOCKAREA)%Z || negb inplace_restart.

(** The fields before [layout], those between [workspace_layout] and
    [nodes], and those after [floating_nodes]. *)
Definition con_head_fields (con : Con) : list (string * json) :=
  [("id", JInteger (addr con));
   ("type", JInteger (type con));
   ("orientation", JString (orientation_token con));
   ("scratchpad_state", JString (scratchpad_state_token (scratchpad_state con)));
   ("percent", if PrimFloat.eqb (percent con) 0%float then JNull
               else JDouble (percent con));
   ("urgent", JBool (urgent con))]
  ++ opt_field "mark" (mark con)
  ++ [("focused", JBool (addr con =? focused)%Z)].

Definition con_middle_fields (con : Con) : list (string * json) :=
  [("last_split_layout", JString (last_split_layout_token (layout con)));
   ("border", JString (border_style_token (border_style con)));
   ("current_border_width", JInteger (current_border_width con));
   ("rect", rect_json (rect con));
   ("window_rect", rect_json (window_rect con));
   ("geometry", rect_json (geometry con));
   ("name", JString (cstr (shown_name con)))]
  ++ (if (type con =? CT_WORKSPACE)%Z then [("num", JInteger (num con))] else [])
  ++ [("window", match window con with
                 | Some w => JInteger (Window.id w)
                 | None => JNull
                 end)].

Definition con_tail_fields (inplace_restart : bool) (con : Con)
    : list (string * json) :=
  [("focus", JArray (JInteger <$> focus_head con));
   ("fullscreen_mode", JInteger (fullscreen_mode con));
   ("floating", JString (floating_token (floating con)));
   ("swallows",
    JArray ((swallow_head con ≫= swallow_json)
            ++ (if inplace_restart
                then match window con with
                     | Some w => [JObject [("id", JInteger (Window.id w));
                                           ("restart_mode", JBool true)]]
                     | None => []
                     end
                else [])))]
  ++ (if inplace_restart && bool_decide (is_Some (window con))
      then [("depth", JInteger (depth con))] else []).

Fixpoint con_json (inplace_restart : bool) (con : Con) : json :=
  JObject
    (con_head_fields con
     ++ [("layout", token_json (layout_token (layout con)));
         ("workspace_layout",
          token_json (workspace_layout_token (workspace_layout con)))]
     ++ con_middle_fields con
     ++ [("nodes", JArray (if dumps_nodes inplace_restart con
                           then List.map (con_json inplace_restart) (nodes_head con)
                           else []));
         ("floating_nodes",
          JArray (List.map (con_json inplace_restart) (floating_head con)))]
     ++ con_tail_fields inplace_restart con).

(** Every container that is written has a layout and a workspace layout
    for which [dump_node] has a token. *)
Fixpoint tree_ok (inplace_restart : bool) (con : Con) : bool :=
  bool_decide (is_Some (layout_token (layout con)))
  && bool_decide (is_Some (workspace_layout_token (workspace_layout con)))
  && (if dumps_nodes inplace_restart con
      then forallb (tree_ok inplace_restart) (nodes_head con)
      else true)
  && forallb (tree_ok inplace_restart) (floating_head con).

(** What [dump_node] has done when it returns: the generator has been
    handed the document of the container as one value, and nothing was
    logged. *)
Definition writes_con (inplace_restart : bool) (con : Con) : Prop :=
  ∀ gen st, ∃ gen',
    dump_node gen con inplace_restart st = (Done gen', st)
    ∧ ∀ r0 stack top,
        json_read gen r0 = Some (stack, top) →
        json_read gen' r0 = json_value (con_json inplace_restart con) (stack, top).

End Tree.

(** A second host: a release build with two outputs, marks and a tree in
    which every container has a layout. *)
Module Tidy.

Definition workspace (a n : Z) (title : string) (children : list Con) : Con :=
  {| addr := a; type := 4; scratchpad_state := SCRATCHPAD_NONE;
     percent := 0.5%float; urgent := false; mark := Some title;
     layout := L_SPLITV; workspace_layout := L_STACKED; border_style := BS_PIXEL;
     current_border_width := 1; rect := Rect.mk 0 0 800 600;
     window_rect := Sample.no_rect; geometry := Sample.no_rect; name := title;
     window := Some (Window.mk 77 None); num := n;
     nodes_head := children; floating_head := []; focus_head := [a];
     fullscreen_mode := 0; floating := FLOATING_USER_ON;
     swallow_head := [Match.mk 1 2; Match.mk (-1) 0]; depth := 24 |}.

Definition tree : Con :=
  Sample.leaf 1 L_OUTPUT
    [Sample.leaf 2 L_SPLITH [workspace 3 1 "1: www" []; workspace 4 (-1) "mail" []]].

Definition host : Host := {|
  NDEBUG := true;
  EAGAIN := 11;
  EINTR := 4;
  I3_IPC_REPLY_TYPE_COMMAND := 0;
  I3_IPC_REPLY_TYPE_WORKSPACES := 1;
  I3_IPC_REPLY_TYPE_SUBSCRIBE := 2;
  I3_IPC_REPLY_TYPE_OUTPUTS := 3;
  I3_IPC_REPLY_TYPE_TREE := 4;
  I3_IPC_REPLY_TYPE_MARKS := 5;
  I3_IPC_REPLY_TYPE_BAR_CONFIG := 6;
  I3_IPC_REPLY_TYPE_VERSION := 7;
  CT_WORKSPACE := 4;
  CT_DOCKAREA := 5;
  MAJOR_VERSION := 4;
  MINOR_VERSION := 7;
  PATCH_VERSION := 2;
  I3_VERSION := "4.7.2";
  croot := tree;
  focused := 3;
  all_cons := [workspace 3 1 "1: www" []; Sample.leaf 2 L_SPLITH [];
               workspace 4 (-1) "mail" []];
  outputs := [Output.mk "LVDS1" true true (Rect.mk 0 0 800 600) None];
  barconfigs := [Sample.bar "bar-0"];
  con_is_split := fun con => negb (bool_decide (nodes_head con = []));
  con_orientation := fun _ => VERT;
  con_get_workspace := fun a => a;
  con_is_internal := fun _ => false;
  output_get_content := fun con => con;
  workspace_is_visible := fun _ => true;
  con_get_fullscreen_con := fun _ => None;
  parse_command := fun _ => ret {| json_gen := [yajl_gen_array_open; yajl_gen_array_close];
                                   needs_tree_render := true |};
  tree_render := perform [log DLOG "-- BEGIN RENDERING --"]
|}.

End Tidy.

(** ** main (main.c, lines 425-464): arguments sent as a command

    [i3 border none] acts like i3-msg: the arguments that follow the
    options are joined and sent to the running i3 as one message of type
    COMMAND, the type whose handler is the first of [handlers]. *)

(** The loop over [argv[optind]] to [argv[argc-1]]; [payload] is NULL
    before the first turn. *)
Fixpoint command_payload_loop (payload : option string) (argv : list string)
    : option string :=
  match argv with
  | [] => payload
  | arg :: rest =>
      let payload :=
        match payload with
        | None => cstr arg                            (* sstrdup(argv[optind]) *)
        | Some payload => cstr payload +:+ " " +:+ cstr arg
                                           (* sasprintf(&both, "%s %s", ...) *)
        end in
      command_payload_loop (Some payload) rest
  end.

Definition command_payload (argv : list string) : option string :=
  command_payload_loop None argv.

(** A string without NUL byte: a C string as a whole. *)
Definition no_nul (s : string) : Prop :=
  ∀ c, In c (list_ascii_of_string s) → c ≠ NUL.

(** ** mkdirp (ipc.c, lines 44-68)

    Emulates [mkdir -p]. The file system is outside the program:
    [mkdir path] on a file system either returns 0 ([None]) or fails with
    an [errno]. The function calls itself on the same path after it has
    created the parent, so the model counts the calls that may nest. *)
Module Mkdirp.

Inductive outcome :=
  | returned (result : bool)
  | out_of_bounds          (* copy[strlen(copy)-1] with strlen(copy) == 0 *)
  | out_of_fuel.

Definition slash : ascii := "/"%char.

(** [while (copy[strlen(copy)-1] == '/') copy[strlen(copy)-1] = '\0';]
    on the characters of [copy] from the last to the first. The test
    reads the byte before the buffer once nothing is left. *)
Fixpoint strip_trailing (reversed : list ascii) : option (list ascii) :=
  match reversed with
  | [] => None
  | c :: rest =>
      if Ascii.eqb c slash then strip_trailing rest else Some reversed
  end.

(** [sep = strrchr(copy, '/')] and [*sep = '\0'], on the same order:
    what is left of [copy], or [None] if [sep] is NULL. *)
Fixpoint cut_last_component (reversed : list ascii) : option (list ascii) :=
  match reversed with
  | [] => None
  | c :: rest =>
      if Ascii.eqb c slash then Some rest else cut_last_component rest
  end.

Section Mkdirp.
Variable fs : Type.
Variable mkdir : string → fs → option Z * fs.
Variable ENOENT : Z.

Fixpoint mkdirp (fuel : nat) (path : string) (st : fs * list effect)
    : outcome * (fs * list effect) :=
  match fuel with
  | 0 => (out_of_fuel, st)
  | S fuel =>
      match mkdir path st.1 with
      | (None, files) => (returned true, (files, st.2))
      | (Some errno, files) =>
          if negb (errno =? ENOENT)%Z then
            (returned false, (files, st.2 ++ [log ELOG "mkdir(%s) failed: %s"]))
          else
            let copy := cstr path in
            (* strip trailing slashes, if any *)
            match strip_trailing (rev (list_ascii_of_string copy)) with
            | None => (out_of_bounds, (files, st.2))
            | Some stripped =>
                match cut_last_component stripped with
                | None => (returned false, (files, st.2))
                | Some parent =>
                    let copy := string_of_list_ascii (rev parent) in
                    match mkdirp fuel copy (files, st.2) with
                    | (returned true, st') => mkdirp fuel path st'
                    | other => other
                    end
                end
            end
      end
  end.

End Mkdirp.

(** A file system for the examples: the directories that exist, the
    last one made first, below a working directory that exists. [mkdir] fails with
    EEXIST (17) on a directory that exists and with ENOENT (2) on the
    empty path and on a path whose parent does not exist. *)
Definition parent_of (path : string) : option string :=
  (fun parent => string_of_list_ascii (rev parent))
    <$> cut_last_component (rev (list_ascii_of_string path)).

Definition sample_mkdir (path : string) (dirs : list string)
    : option Z * list string :=
  if bool_decide (path = EmptyString) then (Some 2%Z, dirs)
  else if bool_decide (path ∈ dirs) then (Some 17%Z, dirs)
  else match parent_of path with
       | Some parent =>
           if bool_decide (parent ∈ dirs) then (None, path :: dirs)
           else (Some 2%Z, dirs)
       | None => (None, path :: dirs)
       end.

End Mkdirp.

(** ** xkb_got_event (main.c, lines 152-212)

    The handler reads every pending XKB event and re-grabs the keys for
    a changed keyboard mapping once, after the loop. [events] is what
    [XNextEvent] returns while [XPending] is not zero. *)
Module Xkb.

Inductive event :=
  | other_type                 (* ev.type != xkb_event_base *)
  | map_notify                 (* XkbMapNotify *)
  | state_notify (group : Z)   (* XkbStateNotify, with ev.state.group *)
  | unknown_xkb_type.

(** The calls into other files and the log lines, in order. *)
Inductive call :=
  | grab_all_keys (bind_mode_switch : bool)
  | ungrab_all_keys
  | xcb_key_symbols_free
  | xcb_key_symbols_alloc
  | aio_get_mod_mask_for_num_lock
  | translate_keysyms
  | xkb_log (level : log_level) (fmt : string).

Record state := mk_state {
  xkb_current_group : Z;
  mapping_changed : bool;
  calls : list call
}.

Definition call_all (cs : list call) (st : state) : state :=
  {| xkb_current_group := xkb_current_group st;
     mapping_changed := mapping_changed st;
     calls := calls st ++ cs |}.

Section Xkb.
(** Constants of the X11 headers. *)
Variable XkbGroup1Index XkbGroup2Index : Z.

(** One turn of the [while] loop. *)
Definition xkb_turn (st : state) (ev : event) : state :=
  match ev with
  | other_type => st
  | map_notify =>
      {| xkb_current_group := xkb_current_group st; mapping_changed := true;
         calls := calls st |}
  | unknown_xkb_type =>
      call_all [xkb_log ELOG "Unknown XKB event received (type %d)"] st
  | state_notify group =>
      (* We check if the current group (each group contains two levels)
         has been changed. *)
      if (xkb_current_group st =? group)%Z then st
      else
        let st := {| xkb_current_group := group;
                     mapping_changed := mapping_changed st;
                     calls := calls st |} in
        let st :=
          if (group =? XkbGroup2Index)%Z
          then call_all [xkb_log DLOG "Mode_switch enabled"; grab_all_keys true] st
          else st in
        if (group =? XkbGroup1Index)%Z
        then call_all [xkb_log DLOG "Mode_switch disabled"; ungrab_all_keys;
                       grab_all_keys false] st
        else st
  end.

Definition xkb_got_event (events : list event) (group : Z) : state :=
  let st := {| xkb_current_group := group; mapping_changed := false;
               calls := [xkb_log DLOG "Handling XKB event"] |} in
  let st := fold_left xkb_turn events st in
  if negb (mapping_changed st) then st
  else
    call_all
      [xkb_log DLOG "Keyboard mapping changed, updating keybindings";
       xcb_key_symbols_free; xcb_key_symbols_alloc;
       aio_get_mod_mask_for_num_lock;
       ungrab_all_keys;
       xkb_log DLOG "Re-grabbing...";
       translate_keysyms;
       grab_all_keys (xkb_current_group st =? XkbGroup2Index)%Z;
       xkb_log DLOG "Done"] st.

End Xkb.

(** The group of the last state notification, if there is one. *)
Definition last_group (events : list event) (group : Z) : Z :=
  fold_left (fun group ev => match ev with
                             | state_notify g => g
                             | _ => group
                             end) events group.

Definition is_map_notify (ev : event) : bool :=
  match ev with
  | map_notify => true
  | _ => false
  end.

Definition is_translate_keysyms (c : call) : bool :=
  match c with
  | translate_keysyms => true
  | _ => false
  end.

(** What the pending events make the loop call, said event by event. A
    state notification for a group other than the current one makes that
    group current; if it is the second group the keys are grabbed with
    the mode switch, if it is the first group they are ungrabbed and
    grabbed without it. An XKB event of another type is logged. Nothing
    else is called. *)
Fixpoint loop_calls (XkbGroup1Index XkbGroup2Index : Z)
    (events : list event) (group : Z) : list call :=
  match events with
  | [] => []
  | state_notify new_group :: rest =>
      (if (group =? new_group)%Z then []
       else
         (if (new_group =? XkbGroup2Index)%Z
          then [xkb_log DLOG "Mode_switch enabled"; grab_all_keys true]
          else [])
         ++ (if (new_group =? XkbGroup1Index)%Z
             then [xkb_log DLOG "Mode_switch disabled"; ungrab_all_keys;
                   grab_all_keys false]
             else []))
      ++ loop_calls XkbGroup1Index XkbGroup2Index rest new_group
  | unknown_xkb_type :: rest =>
      xkb_log ELOG "Unknown XKB event received (type %d)"
      :: loop_calls XkbGroup1Index XkbGroup2Index rest group
  | _ :: rest => loop_calls XkbGroup1Index XkbGroup2Index rest group
  end.

End Xkb.

(** The functions of other files that run inside [handle_command]
    touch neither the queue of clients nor their event names. *)
Definition host_leaves_registry `{Host} : Prop :=
  (∀ command st, all_clients (parse_command command st).2 = all_clients st
                 ∧ heap (parse_command command st).2 = heap st)
  ∧ (∀ st, all_clients (tree_render st).2 = all_clients st
           ∧ heap (tree_render st).2 = heap st).

(** The event ends the connection on [sockfd]: a read error on it that
    is not a spurious wake-up, or the shutdown. *)
Definition closes `{Host} (e : reactor_event) (sockfd : Z) : Prop :=
  match e with
  | readable w_fd ret_ errno _ _ _ =>
      w_fd = sockfd ∧ (ret_ < 0)%Z ∧ ¬ (ret_ = -1 ∧ errno = EAGAIN)%Z
  | shut_down => True
  | _ => False
  end.

(** The client on [sockfd] is registered and subscribed to [event]. *)
Definition listens (st : ipc_state) (sockfd : Z) (event : string) : Prop :=
  ∃ c, c ∈ all_clients st ∧ fd c = sockfd ∧ subscribed st event c.

(** * Properties *)

(** ** C strings *)

Section CStringFacts.

Lemma is_nul_NUL c : is_nul c = true ↔ c = NUL.
Proof.
  unfold is_nul. rewrite N.eqb_eq. split.
  - intros Hc. rewrite <- (ascii_N_embedding c), Hc. reflexivity.
  - intros ->. reflexivity.
Qed.

Lemma uchar_inj c1 c2 : uchar c1 = uchar c2 → c1 = c2.
Proof.
  unfold uchar. intros Hc%(inj Z.of_N).
  rewrite <- (ascii_N_embedding c1), <- (ascii_N_embedding c2), Hc.
  reflexivity.
Qed.

Lemma uchar_zero c : uchar c = 0%Z ↔ c = NUL.
Proof.
  split; [ | intros ->; reflexivity ].
  intros Hc. apply uchar_inj. exact Hc.
Qed.

Lemma tolower_nul c : is_nul (tolower c) = is_nul c.
Proof.
  destruct c as [[] [] [] [] [] [] [] []]; reflexivity.
Qed.

Lemma tolower_NUL c : tolower c = NUL ↔ c = NUL.
Proof. rewrite <- !is_nul_NUL, tolower_nul. reflexivity. Qed.

Lemma cstr_empty s : cstr s = EmptyString ↔ peek s = NUL.
Proof.
  destruct s as [ | c r ]; simpl; [ tauto | ].
  destruct (is_nul c) eqn:Hc.
  - apply is_nul_NUL in Hc. tauto.
  - split; [ discriminate | ].
    intros Hn%is_nul_NUL. congruence.
Qed.

Lemma lower_empty s : lower s = EmptyString ↔ s = EmptyString.
Proof. destruct s; simpl; split; congruence. Qed.

(** The comparison loop returns 0 exactly on names that are equal up
    to case. *)
Lemma strcasecmp_ci_equal s1 s2 : strcasecmp s1 s2 = 0%Z ↔ ci_equal s1 s2.
Proof.
  unfold ci_equal. revert s2.
  assert (Hend : ∀ s2, (0 - uchar (tolower (peek s2)))%Z = 0%Z
                       ↔ EmptyString = lower (cstr s2)).
  { intros s2. rewrite Z.sub_move_0_r, (eq_comm 0%Z), uchar_zero, tolower_NUL.
    rewrite <- cstr_empty, (eq_comm EmptyString), lower_empty. reflexivity. }
  induction s1 as [ | c1 r1 IH ]; intros s2; simpl; [ apply Hend | ].
  destruct (is_nul c1) eqn:Hc1; [ apply Hend | ].
  assert (Hl1 : uchar (tolower c1) ≠ 0%Z).
  { rewrite uchar_zero, tolower_NUL, <- is_nul_NUL. congruence. }
  destruct s2 as [ | c2 r2 ]; simpl.
  { split; [ tauto | discriminate ]. }
  destruct (Z.eqb_spec (uchar (tolower c1)) (uchar (tolower c2))) as [Heq | Hne].
  - apply uchar_inj in Heq.
    assert (Hc2 : is_nul c2 = false).
    { rewrite <- tolower_nul, <- Heq, tolower_nul. exact Hc1. }
    rewrite Hc2. simpl. rewrite IH, Heq. split; [ congruence | ].
    intros Hs. injection Hs. tauto.
  - split; [ lia | ].
    destruct (is_nul c2); simpl; [ discriminate | ].
    intros Hs. injection Hs. intros _ Hc. congruence.
Qed.

Lemma strcmp_cstr s1 s2 : strcmp s1 s2 = 0%Z ↔ cstr s1 = cstr s2.
Proof.
  revert s2.
  assert (Hend : ∀ s2, (0 - uchar (peek s2))%Z = 0%Z ↔ EmptyString = cstr s2).
  { intros s2. rewrite Z.sub_move_0_r, (eq_comm 0%Z), uchar_zero.
    rewrite <- cstr_empty, (eq_comm EmptyString). reflexivity. }
  induction s1 as [ | c1 r1 IH ]; intros s2; simpl; [ apply Hend | ].
  destruct (is_nul c1) eqn:Hc1; [ apply Hend | ].
  assert (Hl1 : uchar c1 ≠ 0%Z).
  { rewrite uchar_zero, <- is_nul_NUL. congruence. }
  destruct s2 as [ | c2 r2 ]; simpl.
  { split; [ tauto | discriminate ]. }
  destruct (Z.eqb_spec (uchar c1) (uchar c2)) as [Heq | Hne].
  - apply uchar_inj in Heq. subst c2. rewrite Hc1, IH.
    split; [ congruence | ]. intros Hs. injection Hs. tauto.
  - split; [ lia | ].
    destruct (is_nul c2); [ discriminate | ].
    intros Hs. injection Hs. intros _ Hc. congruence.
Qed.

(** On names without a NUL byte, [cstr] is the identity. *)
Lemma cstr_id s : (∀ c, In c (list_ascii_of_string s) → c ≠ NUL) → cstr s = s.
Proof.
  induction s as [ | c r IH ]; simpl; intros Hs; [ reflexivity | ].
  destruct (is_nul c) eqn:Hc.
  - apply is_nul_NUL in Hc. exfalso. apply (Hs c); auto.
  - rewrite IH; [ reflexivity | ]. intros c' Hc'. apply Hs. auto.
Qed.

Lemma cstr_idemp s : cstr (cstr s) = cstr s.
Proof.
  induction s as [ | c r IH ]; simpl; [ reflexivity | ].
  destruct (is_nul c) eqn:Hc; simpl; [ reflexivity | ].
  rewrite Hc, IH. reflexivity.
Qed.

Lemma substring_all s : substring 0 (String.length s) s = s.
Proof.
  induction s as [ | c r IH ]; simpl; [ reflexivity | ].
  rewrite IH. reflexivity.
Qed.

End CStringFacts.

(** ** The state and the monad *)

Lemma emit_nil st : emit [] st = st.
Proof. destruct st. unfold emit. simpl. rewrite app_nil_r. reflexivity. Qed.

Lemma emit_emit es1 es2 st : emit es2 (emit es1 st) = emit (es1 ++ es2) st.
Proof. unfold emit. simpl. rewrite app_assoc. reflexivity. Qed.

Lemma bind_done {A B} (m : M A) (k : A → M B) st a st' :
  m st = (Done a, st') → bind m k st = k a st'.
Proof. unfold bind. intros ->. reflexivity. Qed.

Lemma bind_crash {A B} (m : M A) (k : A → M B) st f st' :
  m st = (Crash f, st') → bind m k st = (Crash f, st').
Proof. unfold bind. intros ->. reflexivity. Qed.

Lemma messages_app tr1 tr2 : messages (tr1 ++ tr2) = messages tr1 ++ messages tr2.
Proof. unfold messages. apply omap_app. Qed.

Lemma messages_to_app sockfd tr1 tr2 :
  messages_to sockfd (tr1 ++ tr2) = messages_to sockfd tr1 ++ messages_to sockfd tr2.
Proof. unfold messages_to. rewrite messages_app. apply omap_app. Qed.

(** ** The invariant of the registry

    It holds of the empty registry, does not depend on the trace, and
    is kept by every function that changes the registry (see
    [registry_ok_new_client], [add_subscription_spec] and
    [registry_ok_delete]); [reachable_registry_ok] at the end puts
    these together. *)

Lemma registry_ok_empty h tr :
  registry_ok {| all_clients := []; heap := h; trace := tr |}.
Proof.
  unfold registry_ok, event_ptrs. simpl.
  split_and!; [ apply NoDup_nil_2 | apply NoDup_nil_2 | apply Forall_nil_2 ].
Qed.

Lemma registry_ok_emit es st : registry_ok (emit es st) ↔ registry_ok st.
Proof. reflexivity. Qed.

(** ** ipc_send_event *)

Section SendEvent.
Implicit Types (st : ipc_state) (cs : list ipc_client) (c : ipc_client).

(** The inner loop decides [subscribed], reading only live buffers. *)
Lemma interested_subscribed st c event :
  Forall (fun p => is_Some (heap st !! p)) (events c) →
  interested (events c) event st = (Done (bool_decide (subscribed st event c)), st).
Proof.
  intros Hlive.
  cut (∃ b : bool, interested (events c) event st = (Done b, st)
         ∧ (b = true ↔ subscribed st event c)).
  { intros (b & -> & Hb). do 2 f_equal. symmetry.
    destruct b; [ apply bool_decide_eq_true_2 | apply bool_decide_eq_false_2 ].
    - apply Hb. reflexivity.
    - rewrite <- Hb. discriminate. }
  unfold subscribed, subscriptions. revert Hlive.
  generalize (events c) as evs. clear c.
  induction evs as [ | p rest IH ]; intros Hlive.
  - exists false. split; [ reflexivity | ].
    split; [ discriminate | ]. intros Hex. apply Exists_nil in Hex. destruct Hex.
  - apply Forall_cons in Hlive as [[name Hname] Hrest].
    destruct (IH Hrest) as (b & Hrun & Hb).
    cbn [interested omap list_omap]. unfold bind, deref. rewrite Hname.
    destruct (Z.eqb_spec (strcasecmp name event) 0) as [Hz | Hnz].
    + exists true. split; [ reflexivity | ].
      split; [ | reflexivity ]. intros _.
      apply Exists_cons_hd, strcasecmp_ci_equal. exact Hz.
    + exists b. split; [ exact Hrun | ].
      rewrite Hb, Exists_cons, <- strcasecmp_ci_equal. tauto.
Qed.

Lemma ipc_send_event_loop_spec cs event message_type payload st :
  Forall (fun p => is_Some (heap st !! p)) (event_ptrs cs) →
  ipc_send_event_loop cs event message_type payload st
  = (Done tt, emit (event_message message_type payload
                      <$> filter (subscribed st event) cs) st).
Proof.
  revert st. induction cs as [ | c rest IH ]; intros st Hlive.
  - simpl. rewrite emit_nil. reflexivity.
  - unfold event_ptrs in Hlive. rewrite bind_cons in Hlive.
    apply Forall_app in Hlive as [Hc Hrest].
    simpl. rewrite (bind_done _ _ _ _ _ (interested_subscribed st c event Hc)).
    rewrite filter_cons.
    destruct (decide (subscribed st event c)) as [Hs | Hs].
    + rewrite bool_decide_eq_true_2 by exact Hs.
      unfold bind at 1. unfold perform.
      rewrite IH by exact Hrest. rewrite emit_emit. reflexivity.
    + rewrite bool_decide_eq_false_2 by exact Hs.
      unfold bind at 1. unfold ret at 1.
      rewrite IH by exact Hrest. reflexivity.
Qed.

Lemma ipc_send_event_spec event message_type payload st :
  registry_ok st →
  ipc_send_event event message_type payload st
  = (Done tt, emit (event_message message_type payload
                      <$> filter (subscribed st event) (all_clients st)) st).
Proof.
  intros (_ & _ & Hlive). unfold ipc_send_event.
  apply ipc_send_event_loop_spec. exact Hlive.
Qed.

(** Whatever the run does, it only adds to the trace. *)
Lemma ipc_send_event_loop_emits cs event message_type payload st :
  ∃ es, (ipc_send_event_loop cs event message_type payload st).2 = emit es st.
Proof.
  assert (Hint : ∀ evs st, (interested evs event st).2 = st).
  { induction evs as [ | p rest IHe ]; intros st'; simpl; [ reflexivity | ].
    unfold bind, deref. destruct (heap st' !! p); simpl; [ | reflexivity ].
    destruct (strcasecmp s event =? 0)%Z; [ reflexivity | apply IHe ]. }
  revert st. induction cs as [ | c rest IH ]; intros st; simpl.
  { exists []. rewrite emit_nil. reflexivity. }
  unfold bind. specialize (Hint (events c) st).
  destruct (interested (events c) event st) as [[i | f] st1]; simpl in Hint;
    subst st1.
  - destruct i; unfold perform, ret.
    + destruct (IH (emit [ipc_send_message (fd c) (strlen payload)
                                           message_type payload] st))
        as [es Hes].
      rewrite Hes, emit_emit. eauto.
    + apply IH.
  - exists []. rewrite emit_nil. reflexivity.
Qed.

(** The messages that went to a descriptor which occurs once in the
    list of clients. *)
Lemma messages_to_event_messages message_type payload cs c (P : ipc_client → Prop)
    `{!∀ c, Decision (P c)} :
  NoDup (fd <$> cs) → c ∈ cs →
  messages_to (fd c) (event_message message_type payload <$> filter P cs)
  = if decide (P c) then [(strlen payload, message_type, payload)] else [].
Proof.
  induction cs as [ | c0 rest IH ]; intros Hnd Hin.
  - apply elem_of_nil in Hin. destruct Hin.
  - rewrite fmap_cons in Hnd. apply NoDup_cons in Hnd as [Hfresh Hnd].
    assert (Hnone : ∀ c', fd c' ∉ fd <$> rest →
              messages_to (fd c') (event_message message_type payload <$> filter P rest) = []).
    { clear. intros c' Hc'. induction rest as [ | c1 rest IH ]; [ reflexivity | ].
      rewrite fmap_cons, not_elem_of_cons in Hc'. destruct Hc' as [Hne Hc'].
      rewrite filter_cons. destruct (decide (P c1)); [ | by apply IH ].
      rewrite fmap_cons. change (?x :: ?l) with ([x] ++ l).
      rewrite messages_to_app, IH by exact Hc'.
      unfold messages_to. simpl. rewrite decide_False by congruence. reflexivity. }
    rewrite filter_cons. apply elem_of_cons in Hin as [-> | Hin].
    + destruct (decide (P c0)).
      * rewrite fmap_cons. change (?x :: ?l) with ([x] ++ l).
        rewrite messages_to_app, Hnone by exact Hfresh.
        unfold messages_to. simpl. rewrite decide_True by reflexivity. reflexivity.
      * apply Hnone. exact Hfresh.
    + assert (Hne : fd c0 ≠ fd c).
      { intros Heq. apply Hfresh. rewrite Heq. apply list_elem_of_fmap_2. exact Hin. }
      destruct (decide (P c0)); [ | by apply IH ].
      rewrite fmap_cons. change (?x :: ?l) with ([x] ++ l).
      rewrite messages_to_app, IH by assumption.
      unfold messages_to at 1. simpl. rewrite decide_False by exact Hne. reflexivity.
Qed.

End SendEvent.

(** C1: [ipc_send_event] hands exactly one message [(message_type,
    payload)] to [ipc_send_message] for each registered client that has
    an entry equal to [event] up to case, however many such entries it
    has, and none for any other client; the messages go out in the order
    of the registry. *)
Theorem ipc_send_event_delivers st event message_type payload :
  registry_ok st →
  ∃ st',
    ipc_send_event event message_type payload st = (Done tt, st')
    ∧ trace st' = trace st
        ++ (event_message message_type payload
              <$> filter (subscribed st event) (all_clients st))
    ∧ ∀ c, c ∈ all_clients st →
        messages_to (fd c) (drop (length (trace st)) (trace st'))
        = if decide (subscribed st event c)
          then [(strlen payload, message_type, payload)] else [].
Proof.
  intros Hok. eexists. split; [ apply ipc_send_event_spec; exact Hok | ].
  split; [ reflexivity | ].
  intros c Hc. simpl. rewrite drop_app_length.
  apply messages_to_event_messages; [ apply Hok | exact Hc ].
Qed.

Lemma ipc_send_event_delivers_witness :
  registry_ok Sample.four_clients
  ∧ ∃ st',
      ipc_send_event "workspace" 2147483648 "{}" Sample.four_clients = (Done tt, st')
      ∧ trace st' = trace Sample.four_clients
          ++ (event_message 2147483648 "{}"
                <$> filter (subscribed Sample.four_clients "workspace")
                           (all_clients Sample.four_clients))
      ∧ ∀ c, c ∈ all_clients Sample.four_clients →
          messages_to (fd c) (drop (length (trace Sample.four_clients)) (trace st'))
          = if decide (subscribed Sample.four_clients "workspace" c)
            then [(strlen "{}", 2147483648%N, "{}")] else [].
Proof.
  split.
  - apply (bool_decide_unpack _). vm_compute. exact I.
  - apply ipc_send_event_delivers.
    apply (bool_decide_unpack _). vm_compute. exact I.
Defined.

(** The run on the sample registry: one message each for 5 (which holds
    the name twice) and 6 (which holds it capitalised), none for 7
    and 8. *)
Example ipc_send_event_sample :
  messages (trace (ipc_send_event "workspace" 2147483648 "{}" Sample.four_clients).2)
  = [(5%Z, 2%N, 2147483648%N, "{}"); (6%Z, 2%N, 2147483648%N, "{}")].
Proof. vm_compute. reflexivity. Qed.

(** C10: [ipc_send_event] changes neither the registry nor any buffer
    of event names, so every client keeps its subscriptions; on a
    well-formed registry it runs to completion. *)
Theorem ipc_send_event_read_only st event message_type payload :
  registry_ok st →
  ∃ st',
    ipc_send_event event message_type payload st = (Done tt, st')
    ∧ all_clients st' = all_clients st
    ∧ heap st' = heap st
    ∧ ∀ c, subscriptions st' c = subscriptions st c.
Proof.
  intros Hok. eexists. split; [ apply ipc_send_event_spec; exact Hok | ].
  repeat split; reflexivity.
Qed.

Lemma ipc_send_event_read_only_witness :
  registry_ok Sample.four_clients
  ∧ ∃ st',
      ipc_send_event "workspace" 2147483648 "{}" Sample.four_clients = (Done tt, st')
      ∧ all_clients st' = all_clients Sample.four_clients
      ∧ heap st' = heap Sample.four_clients
      ∧ ∀ c, subscriptions st' c = subscriptions Sample.four_clients c.
Proof.
  split.
  - apply (bool_decide_unpack _). vm_compute. exact I.
  - apply ipc_send_event_read_only.
    apply (bool_decide_unpack _). vm_compute. exact I.
Defined.

(** Also on a registry that is not well formed, where the run may stop
    at a dangling pointer, nothing but the trace has changed. *)
Lemma ipc_send_event_frame st event message_type payload :
  all_clients (ipc_send_event event message_type payload st).2 = all_clients st
  ∧ heap (ipc_send_event event message_type payload st).2 = heap st.
Proof.
  unfold ipc_send_event.
  destruct (ipc_send_event_loop_emits (all_clients st) event message_type payload st)
    as [es ->].
  split; reflexivity.
Qed.

(** ** add_subscription and handle_subscribe *)

Lemma alter_middle {A} (f : A → A) (l : list A) i x :
  l !! i = Some x →
  ∃ l1 l2, l = l1 ++ x :: l2 ∧ length l1 = i ∧ alter f i l = l1 ++ f x :: l2.
Proof.
  intros Hi. exists (take i l), (drop (S i) l).
  assert (Hlen : length (take i l) = i).
  { rewrite length_take. apply lookup_lt_Some in Hi. lia. }
  split; [ symmetry; apply take_drop_middle; exact Hi | ].
  split; [ exact Hlen | ].
  rewrite <- (take_drop_middle l i x Hi) at 1.
  rewrite alter_app_r_alt by lia. rewrite Hlen, Nat.sub_diag. reflexivity.
Qed.

Lemma subscriptions_weaken st st' c :
  heap st ⊆ heap st' →
  Forall (fun p => is_Some (heap st !! p)) (events c) →
  subscriptions st' c = subscriptions st c.
Proof.
  unfold subscriptions. intros Hsub Hlive.
  induction Hlive as [ | p rest [s Hp] _ IH ]; [ reflexivity | ].
  csimpl. rewrite Hp, (lookup_weaken _ _ _ _ Hp Hsub), IH. reflexivity.
Qed.

Lemma registry_ok_client_live st i c :
  registry_ok st → all_clients st !! i = Some c →
  Forall (fun p => is_Some (heap st !! p)) (events c).
Proof.
  intros (_ & _ & Hlive) Hi.
  apply list_elem_of_lookup_2 in Hi.
  rewrite Forall_forall in Hlive |- *. intros p Hp. apply Hlive.
  unfold event_ptrs. apply list_elem_of_bind. eauto.
Qed.

Lemma subscribed_more_refl i c st :
  registry_ok st → all_clients st !! i = Some c → subscribed_more i [] st st.
Proof.
  intros Hok Hi. unfold subscribed_more. split_and!; try done.
  exists c, c. rewrite app_nil_r. simpl. rewrite Nat.add_0_r. done.
Qed.

Lemma subscribed_more_trans i names1 names2 st1 st2 st3 :
  subscribed_more i names1 st1 st2 → subscribed_more i names2 st2 st3 →
  subscribed_more i (names1 ++ names2) st1 st3.
Proof.
  intros (Hok2 & Hlen12 & Hoth12 & (c1 & c2 & Hc1 & Hc2 & Hfd12 & Hn12 & Hsub12)
                & Hh12 & Hm12)
         (Hok3 & Hlen23 & Hoth23 & (c2' & c3 & Hc2' & Hc3 & Hfd23 & Hn23 & Hsub23)
                & Hh23 & Hm23).
  assert (c2' = c2) as -> by congruence.
  split; [ exact Hok3 | ].
  split; [ congruence | ].
  split; [ intros j Hj; rewrite Hoth23, Hoth12 by exact Hj; reflexivity | ].
  split.
  { exists c1, c3. rewrite Hsub23, Hsub12, app_assoc, length_app.
    split_and!; try congruence. lia. }
  split; [ etrans; eassumption | congruence ].
Qed.

Lemma messages_logs n tr :
  messages (tr ++ replicate n (log DLOG "event %s")) = messages tr.
Proof.
  rewrite messages_app.
  assert (Hn : messages (replicate n (log DLOG "event %s")) = []).
  { induction n as [ | n IH ]; [ reflexivity | exact IH ]. }
  rewrite Hn, app_nil_r. reflexivity.
Qed.

Lemma add_subscription_spec st i c s :
  registry_ok st → all_clients st !! i = Some c →
  ∃ st', add_subscription i s (N.of_nat (String.length s)) st = (Done 1%Z, st')
         ∧ subscribed_more i [s] st st'.
Proof.
  intros Hok Hi.
  pose proof (registry_ok_client_live st i c Hok Hi) as Hclive.
  destruct Hok as (Hfds & Hnd & Hlive).
  set (p := fresh (dom (heap st))).
  assert (Hp : heap st !! p = None).
  { apply not_elem_of_dom. apply is_fresh. }
  assert (Hpnew : p ∉ event_ptrs (all_clients st)).
  { intros Hin. rewrite Forall_forall in Hlive. apply Hlive in Hin.
    rewrite Hp in Hin. destruct Hin as [? ?]. discriminate. }
  destruct (alter_middle (subscribe_client p) _ _ _ Hi) as (l1 & l2 & Hl & Hlen & Halter).
  eexists. split.
  { unfold add_subscription, bind, perform, get, scalloc_copy, ret. simpl.
    rewrite Hi. simpl. rewrite Nat2N.id, substring_all. reflexivity. }
  fold p. simpl.
  assert (Hptrs : event_ptrs (alter (subscribe_client p) i (all_clients st))
                  ≡ₚ p :: event_ptrs (all_clients st)).
  { rewrite Halter, Hl. unfold event_ptrs.
    rewrite !bind_app, !bind_cons. simpl.
    rewrite <- (app_assoc (events c)). simpl.
    rewrite !(app_assoc (l1 ≫= events) (events c)).
    symmetry. apply Permutation_middle. }
  unfold subscribed_more, registry_ok. simpl.
  split; [ split_and! | split_and! ].
  - rewrite Halter. rewrite Hl in Hfds.
    rewrite fmap_app, fmap_cons in Hfds |- *. exact Hfds.
  - rewrite Hptrs. apply NoDup_cons. split; assumption.
  - rewrite Hptrs. apply Forall_cons. split.
    + rewrite lookup_insert_eq. eauto.
    + eapply Forall_impl; [ exact Hlive | ].
      intros q Hq. simpl in Hq. eapply lookup_weaken_is_Some; [ exact Hq | ].
      apply insert_subseteq. exact Hp.
  - apply length_alter.
  - intros j Hj. apply list_lookup_alter_ne. congruence.
  - exists c, (subscribe_client p c).
    split; [ exact Hi | ]. split; [ rewrite list_lookup_alter_eq, Hi; reflexivity | ].
    split; [ reflexivity | ].
    split; [ unfold num_events; simpl; rewrite length_app; reflexivity | ].
    unfold subscriptions. simpl. rewrite omap_app. simpl.
    rewrite lookup_insert_eq. f_equal.
    change (subscriptions (set_heap (<[p:=s]> (heap st)) st) c = subscriptions st c).
    apply subscriptions_weaken; [ apply insert_subseteq; exact Hp | exact Hclive ].
  - apply insert_subseteq. exact Hp.
  - change (log DLOG "event %s" :: replicate (num_events c) (log DLOG "event %s"))
      with (replicate (S (num_events c)) (log DLOG "event %s")).
    rewrite (messages_app _ [_]), messages_logs, !messages_app.
    simpl. rewrite !app_nil_r. reflexivity.
Qed.

Lemma yajl_run_add_subscription evs i c st :
  registry_ok st → all_clients st !! i = Some c →
  ∃ st', yajl_run (add_subscription i) evs st = (Done yajl_status_ok, st')
         ∧ subscribed_more i (string_values evs) st st'.
Proof.
  revert c st. induction evs as [ | ev rest IH ]; intros c st Hok Hi.
  { exists st. split; [ reflexivity | ]. eapply subscribed_more_refl; eassumption. }
  destruct ev; try (apply (IH c st Hok Hi)).
  destruct (add_subscription_spec st i c s Hok Hi) as (st1 & Hrun1 & Hmore1).
  pose proof Hmore1 as (Hok1 & _ & _ & (c0 & c1 & _ & Hc1 & _) & _).
  destruct (IH c1 st1 Hok1 Hc1) as (st' & Hrun & Hmore).
  exists st'. split.
  - cbn [yajl_run]. rewrite (bind_done _ _ _ _ _ Hrun1). exact Hrun.
  - apply (subscribed_more_trans i [s] _ _ _ _ Hmore1 Hmore).
Qed.

(** Without a string value among the events the callback never runs. *)
Lemma yajl_run_no_strings (on_string : string → N → M Z) evs st :
  string_values evs = [] →
  yajl_run on_string evs st = (Done yajl_status_ok, st).
Proof.
  induction evs as [ | ev rest IH ]; [ reflexivity | ].
  destruct ev; try exact IH. discriminate.
Qed.

Section Subscribe.
Context `{Yajl} `{Host}.

Lemma handle_subscribe_spec st fd0 message size message_size message_type
    i c evs syntax_error :
  registry_ok st →
  find_client fd0 (all_clients st) = Some (i, c) →
  yajl_lex (substring 0 (N.to_nat message_size) message) = (evs, syntax_error) →
  ∃ st1 log_error,
    yajl_run (add_subscription i) evs st = (Done yajl_status_ok, st1)
    ∧ subscribed_more i (string_values evs) st st1
    ∧ handle_subscribe fd0 message size message_size message_type st
      = (Done tt, emit (log_error ++ [ipc_send_message fd0
                          (strlen (subscribe_reply syntax_error fd0).2)
                          I3_IPC_REPLY_TYPE_SUBSCRIBE
                          (subscribe_reply syntax_error fd0).2]) st1)
    ∧ messages log_error = [].
Proof.
  intros Hok Hfind Hlex.
  pose proof Hfind as (Hi & Hfd & _)%list_find_Some.
  destruct (yajl_run_add_subscription evs i c st Hok Hi) as (st1 & Hrun & Hmore).
  exists st1, (if syntax_error then [log ELOG "YAJL parse error: %s"] else []).
  split; [ exact Hrun | ]. split; [ exact Hmore | ].
  split; [ | destruct syntax_error; reflexivity ].
  unfold handle_subscribe, bind at 1, get. rewrite Hfind.
  unfold yajl_parse. rewrite Hlex.
  unfold bind. rewrite Hrun. unfold ret, perform.
  destruct syntax_error; simpl; [ rewrite emit_emit | ]; reflexivity.
Qed.

End Subscribe.

(** C2: a SUBSCRIBE request appends every string token the parser
    reports to the requesting client's list, verbatim and in order, one
    entry per token and without looking for duplicates. Whether or not
    the parser then stopped at a syntax error, the names appended so far
    stay; the reply on that connection is [{"success":false}] after a
    syntax error and [{"success":true}] otherwise; and the entries and
    subscriptions of all other clients are as before. *)
Theorem handle_subscribe_appends `{Yajl} `{Host}
    st fd0 message size message_size message_type i c evs syntax_error :
  registry_ok st →
  find_client fd0 (all_clients st) = Some (i, c) →
  yajl_lex (substring 0 (N.to_nat message_size) message) = (evs, syntax_error) →
  ∃ st' c',
    handle_subscribe fd0 message size message_size message_type st = (Done tt, st')
    ∧ all_clients st' !! i = Some c'
    ∧ fd c' = fd0
    ∧ subscriptions st' c' = subscriptions st c ++ string_values evs
    ∧ num_events c' = num_events c + length (string_values evs)
    ∧ messages (trace st')
      = messages (trace st)
        ++ [(fd0, N.of_nat (String.length (success_reply (negb syntax_error))),
             I3_IPC_REPLY_TYPE_SUBSCRIBE, success_reply (negb syntax_error))]
    ∧ length (all_clients st') = length (all_clients st)
    ∧ (∀ j, j ≠ i → all_clients st' !! j = all_clients st !! j)
    ∧ (∀ j cj, j ≠ i → all_clients st !! j = Some cj →
         subscriptions st' cj = subscriptions st cj)
    ∧ registry_ok st'.
Proof.
  intros Hok Hfind Hlex.
  destruct (handle_subscribe_spec st fd0 message size message_size message_type
              i c evs syntax_error Hok Hfind Hlex)
    as (st1 & log_error & _ & Hmore & Hrun & Hlogs).
  destruct Hmore as (Hok1 & Hlen & Hothers & (c0 & c' & Hc0 & Hc' & Hfd & Hnum & Hsubs)
                     & Hheap & Hmsgs).
  pose proof Hfind as (Hi & Hfd0 & _)%list_find_Some.
  assert (c0 = c) as -> by congruence.
  exists (emit (log_error ++ [ipc_send_message fd0
                   (strlen (subscribe_reply syntax_error fd0).2)
                   I3_IPC_REPLY_TYPE_SUBSCRIBE
                   (subscribe_reply syntax_error fd0).2]) st1), c'.
  split; [ exact Hrun | ].
  split; [ exact Hc' | ]. split; [ congruence | ].
  split; [ exact Hsubs | ]. split; [ exact Hnum | ].
  split.
  { simpl. rewrite !messages_app, Hlogs, Hmsgs.
    destruct syntax_error; reflexivity. }
  split; [ exact Hlen | ]. split; [ exact Hothers | ].
  split; [ | exact Hok1 ].
  intros j cj Hj Hcj.
  apply (subscriptions_weaken st); [ exact Hheap | ].
  eapply registry_ok_client_live; eassumption.
Qed.

Lemma handle_subscribe_appends_witness :
  let message := "[" +:+ Sample.quoted "workspace" +:+ ","
                 +:+ Sample.quoted "workspace" +:+ ", oops" in
  let message_size := N.of_nat (String.length message) in
  let c := {| fd := 6; events := [3%positive] |} in
  let evs := [yajl_start_array; yajl_string "workspace"; yajl_string "workspace"] in
  let st := Sample.four_clients in
  ∃ st' c',
    handle_subscribe 6 message 0 message_size 2 st = (Done tt, st')
    ∧ all_clients st' !! 1 = Some c'
    ∧ fd c' = 6%Z
    ∧ subscriptions st' c' = subscriptions st c ++ string_values evs
    ∧ num_events c' = num_events c + length (string_values evs)
    ∧ messages (trace st')
      = messages (trace st)
        ++ [(6%Z, N.of_nat (String.length (success_reply false)),
             I3_IPC_REPLY_TYPE_SUBSCRIBE, success_reply false)]
    ∧ length (all_clients st') = length (all_clients st)
    ∧ (∀ j, j ≠ 1 → all_clients st' !! j = all_clients st !! j)
    ∧ (∀ j cj, j ≠ 1 → all_clients st !! j = Some cj →
         subscriptions st' cj = subscriptions st cj)
    ∧ registry_ok st'.
Proof.
  intros message message_size c evs st.
  apply (handle_subscribe_appends st 6 message 0 message_size 2 1 c evs true).
  - apply (bool_decide_unpack _). vm_compute. exact I.
  - vm_compute. reflexivity.
  - vm_compute. reflexivity.
Defined.

(** C9: the handler asks nothing of the shape of the payload. Whatever
    events the parser reports for a text it accepts (array brackets or
    none, maps, nesting to any depth), exactly the string values among
    them are appended, in order, and the reply is [{"success":true}];
    when there is no string value among them (as for [[]]) the registry
    and the buffers are left as they are. *)
Theorem handle_subscribe_any_shape `{Yajl} `{Host}
    st fd0 message size message_size message_type i c evs :
  registry_ok st →
  find_client fd0 (all_clients st) = Some (i, c) →
  yajl_lex (substring 0 (N.to_nat message_size) message) = (evs, false) →
  ∃ st' c',
    handle_subscribe fd0 message size message_size message_type st = (Done tt, st')
    ∧ all_clients st' !! i = Some c'
    ∧ subscriptions st' c' = subscriptions st c ++ string_values evs
    ∧ messages (trace st')
      = messages (trace st)
        ++ [(fd0, N.of_nat (String.length (success_reply true)),
             I3_IPC_REPLY_TYPE_SUBSCRIBE, success_reply true)]
    ∧ (string_values evs = [] →
         all_clients st' = all_clients st ∧ heap st' = heap st).
Proof.
  intros Hok Hfind Hlex.
  destruct (handle_subscribe_spec st fd0 message size message_size message_type
              i c evs false Hok Hfind Hlex)
    as (st1 & log_error & Hparse & Hmore & Hrun & Hlogs).
  destruct Hmore as (_ & _ & _ & (c0 & c' & Hc0 & Hc' & _ & _ & Hsubs) & _ & Hmsgs).
  pose proof Hfind as (Hi & _ & _)%list_find_Some.
  assert (c0 = c) as -> by congruence.
  eexists _, c'. split; [ exact Hrun | ].
  split; [ exact Hc' | ]. split; [ exact Hsubs | ].
  split.
  { simpl. rewrite !messages_app, Hlogs, Hmsgs. reflexivity. }
  intros Hnone. rewrite (yajl_run_no_strings _ _ _ Hnone) in Hparse.
  injection Hparse as <-. split; reflexivity.
Qed.

Lemma handle_subscribe_any_shape_witness :
  let message := "{" +:+ Sample.quoted "a" +:+ ": [1, "
                 +:+ Sample.quoted "output" +:+ ", {}]}" in
  let message_size := N.of_nat (String.length message) in
  let c := {| fd := 8; events := [] |} in
  let evs := [yajl_start_map; yajl_map_key "a"; yajl_start_array;
              yajl_number "1"; yajl_string "output"; yajl_start_map;
              yajl_end_map; yajl_end_array; yajl_end_map] in
  let st := Sample.four_clients in
  ∃ st' c',
    handle_subscribe 8 message 0 message_size 2 st = (Done tt, st')
    ∧ all_clients st' !! 3 = Some c'
    ∧ subscriptions st' c' = subscriptions st c ++ string_values evs
    ∧ messages (trace st')
      = messages (trace st)
        ++ [(8%Z, N.of_nat (String.length (success_reply true)),
             I3_IPC_REPLY_TYPE_SUBSCRIBE, success_reply true)]
    ∧ (string_values evs = [] →
         all_clients st' = all_clients st ∧ heap st' = heap st).
Proof.
  intros message message_size c evs st.
  apply (handle_subscribe_any_shape st 8 message 0 message_size 2 3 c evs).
  - apply (bool_decide_unpack _). vm_compute. exact I.
  - vm_compute. reflexivity.
  - vm_compute. reflexivity.
Defined.

(** With the sample reader: a bare string is subscribed to, in the
    case it was sent in; the empty array changes nothing; a text that is
    not JSON is refused. *)
Example handle_subscribe_bare_string :
  let message := Sample.quoted "WorkSpace" in
  let r := handle_subscribe 8 message 0 (N.of_nat (String.length message)) 2
                            Sample.four_clients in
  r.1 = Done tt
  ∧ subscriptions r.2 <$> all_clients r.2
    = [["workspace"; "workspace"]; ["Workspace"]; ["output"]; ["WorkSpace"]]
  ∧ messages (trace r.2) = [(8%Z, 16%N, 2%N, success_reply true)].
Proof. vm_compute. split_and!; reflexivity. Qed.

Example handle_subscribe_empty_array :
  let r := handle_subscribe 8 "[]" 0 2 2 Sample.four_clients in
  r.1 = Done tt
  ∧ all_clients r.2 = all_clients Sample.four_clients
  ∧ heap r.2 = heap Sample.four_clients
  ∧ messages (trace r.2) = [(8%Z, 16%N, 2%N, success_reply true)].
Proof. vm_compute. split_and!; reflexivity. Qed.

Example handle_subscribe_not_json :
  let r := handle_subscribe 8 "not-json" 0 8 2 Sample.four_clients in
  r.1 = Done tt
  ∧ all_clients r.2 = all_clients Sample.four_clients
  ∧ heap r.2 = heap Sample.four_clients
  ∧ messages (trace r.2) = [(8%Z, 17%N, 2%N, success_reply false)].
Proof. vm_compute. split_and!; reflexivity. Qed.

(** ** The dispatcher *)

(** C3: a received message whose type is 0..7 is passed to the handler
    at that index of the table, which holds, in this order, the handlers
    for COMMAND, GET_WORKSPACES, SUBSCRIBE, GET_OUTPUTS, GET_TREE,
    GET_MARKS, GET_BAR_CONFIG and GET_VERSION; for a type of 8 or more
    the only thing done is a line in the debug log: no handler runs,
    nothing is sent or closed, and the registry and the buffers are as
    before. *)
Theorem ipc_receive_message_dispatch `{Yajl} `{Host}
    w_fd ret_ errno message_type message_length message st :
  (0 ≤ ret_)%Z →
  let run := ipc_receive_message w_fd ret_ errno message_type message_length
                                 message st in
  (message_type = 0%N →
     run = handle_command w_fd message 0 message_length message_type st)
  ∧ (message_type = 1%N →
     run = handle_get_workspaces w_fd message 0 message_length message_type st)
  ∧ (message_type = 2%N →
     run = handle_subscribe w_fd message 0 message_length message_type st)
  ∧ (message_type = 3%N →
     run = handle_get_outputs w_fd message 0 message_length message_type st)
  ∧ (message_type = 4%N →
     run = handle_tree w_fd message 0 message_length message_type st)
  ∧ (message_type = 5%N →
     run = handle_get_marks w_fd message 0 message_length message_type st)
  ∧ (message_type = 6%N →
     run = handle_get_bar_config w_fd message 0 message_length message_type st)
  ∧ (message_type = 7%N →
     run = handle_get_version w_fd message 0 message_length message_type st)
  ∧ ((8 ≤ message_type)%N →
     run = (Done tt, emit [log DLOG "Unhandled message type: %d"] st)
     ∧ all_clients run.2 = all_clients st
     ∧ heap run.2 = heap st
     ∧ trace run.2 = trace st ++ [log DLOG "Unhandled message type: %d"]
     ∧ messages (trace run.2) = messages (trace st)).
Proof.
  intros Hret run. subst run. unfold ipc_receive_message.
  assert ((ret_ <? 0)%Z = false) as -> by lia.
  change (N.of_nat (length handlers)) with 8%N.
  split_and!; try (intros ->; reflexivity).
  intros Hge. rewrite (proj2 (N.leb_le _ _) Hge).
  unfold perform. simpl. rewrite messages_app, app_nil_r.
  split_and!; reflexivity.
Qed.

Lemma ipc_receive_message_dispatch_witness :
  let run := ipc_receive_message 5 0 0 8 2 "[]" Sample.four_clients in
  (0 ≤ 0)%Z
  ∧ ipc_receive_message 5 0 0 2 2 "[]" Sample.four_clients
    = handle_subscribe 5 "[]" 0 2 2 Sample.four_clients
  ∧ run = (Done tt, emit [log DLOG "Unhandled message type: %d"] Sample.four_clients)
  ∧ all_clients run.2 = all_clients Sample.four_clients
  ∧ heap run.2 = heap Sample.four_clients
  ∧ trace run.2 = trace Sample.four_clients ++ [log DLOG "Unhandled message type: %d"]
  ∧ messages (trace run.2) = messages (trace Sample.four_clients).
Proof.
  intros run. split; [ lia | ]. split.
  - apply (ipc_receive_message_dispatch 5 0 0 2 2 "[]" Sample.four_clients);
      [ lia | reflexivity ].
  - apply (ipc_receive_message_dispatch 5 0 0 8 2 "[]" Sample.four_clients); lia.
Defined.

(** The table itself. *)
Lemma handlers_table `{Yajl} `{Host} :
  handlers = [handle_command; handle_get_workspaces; handle_subscribe;
              handle_get_outputs; handle_tree; handle_get_marks;
              handle_get_bar_config; handle_get_version]
  ∧ length handlers = 8.
Proof. split; reflexivity. Qed.

(** ** New clients and the order of delivery *)

Lemma ipc_new_client_spec `{Host} st w_fd client errno setfl :
  (0 ≤ client)%Z → (0 ≤ setfl)%Z →
  ipc_new_client w_fd client errno setfl st
  = (Done tt,
     set_clients (all_clients st ++ [{| fd := client; events := [] |}])
       (emit [sys_fcntl client F_SETFD_FD_CLOEXEC; sys_fcntl client F_GETFL;
              sys_fcntl client F_SETFL_O_NONBLOCK; ev_io_start client;
              log DLOG "IPC: new client connected on fd %d"] st)).
Proof.
  intros Hclient Hsetfl. unfold ipc_new_client, set_nonblock.
  assert ((client <? 0)%Z = false) as -> by lia.
  assert ((setfl <? 0)%Z = false) as -> by lia.
  unfold bind, perform, ret, set_clients, emit. simpl.
  rewrite <- !app_assoc. reflexivity.
Qed.

Lemma registry_ok_new_client st client tr :
  registry_ok st → client ∉ (fd <$> all_clients st) →
  registry_ok {| all_clients := all_clients st ++ [{| fd := client; events := [] |}];
                 heap := heap st; trace := tr |}.
Proof.
  intros (Hfds & Hnd & Hlive) Hnew. unfold registry_ok, event_ptrs. simpl.
  rewrite fmap_app, bind_app. simpl. rewrite app_nil_r.
  split_and!; [ | exact Hnd | exact Hlive ].
  apply NoDup_app. split_and!; [ exact Hfds | | apply NoDup_singleton ].
  intros f Hf Hf'. apply list_elem_of_singleton in Hf'. congruence.
Qed.

(** C4: a client that connects is put at the tail of the registry,
    behind all clients that connected before and without touching them;
    and when every registered client is subscribed to the published
    event, the messages go out one per client in the order of the
    registry, that is, in the order the clients connected. *)
Theorem ipc_new_client_tail_and_send_order `{Host}
    st w_fd client errno setfl :
  registry_ok st → client ∉ (fd <$> all_clients st) →
  (0 ≤ client)%Z → (0 ≤ setfl)%Z →
  ∃ st1,
    ipc_new_client w_fd client errno setfl st = (Done tt, st1)
    ∧ all_clients st1 = all_clients st ++ [{| fd := client; events := [] |}]
    ∧ heap st1 = heap st
    ∧ registry_ok st1
    ∧ ∀ st2 event message_type payload,
        registry_ok st2 →
        Forall (subscribed st2 event) (all_clients st2) →
        ∃ st3,
          ipc_send_event event message_type payload st2 = (Done tt, st3)
          ∧ messages (drop (length (trace st2)) (trace st3))
            = (fun c => (fd c, strlen payload, message_type, payload))
                <$> all_clients st2.
Proof.
  intros Hok Hnew Hclient Hsetfl. eexists.
  split; [ apply ipc_new_client_spec; assumption | ].
  split; [ reflexivity | ]. split; [ reflexivity | ].
  split; [ unfold set_clients, emit; simpl;
           apply registry_ok_new_client; assumption | ].
  intros st2 event message_type payload Hok2 Hall.
  eexists. split; [ apply ipc_send_event_spec; exact Hok2 | ].
  simpl. rewrite drop_app_length.
  assert (filter (subscribed st2 event) (all_clients st2) = all_clients st2) as ->.
  { clear Hok2. induction Hall as [ | c rest Hc _ IH ]; [ reflexivity | ].
    rewrite filter_cons, decide_True by exact Hc. rewrite IH. reflexivity. }
  generalize (all_clients st2). intros cs.
  induction cs as [ | c rest IH ]; [ reflexivity | ].
  rewrite !fmap_cons. change (?x :: ?l) with ([x] ++ l) at 1.
  rewrite messages_app, IH. reflexivity.
Qed.

Lemma ipc_new_client_tail_and_send_order_witness :
  let st := Sample.four_clients in
  (registry_ok st ∧ (9%Z ∉ fd <$> all_clients st) ∧ (0 ≤ 9)%Z ∧ (0 ≤ 0)%Z)
  ∧ ∃ st1,
      ipc_new_client 3 9 0 0 st = (Done tt, st1)
      ∧ all_clients st1 = all_clients st ++ [{| fd := 9; events := [] |}]
      ∧ heap st1 = heap st
      ∧ registry_ok st1
      ∧ ∀ st2 event message_type payload,
          registry_ok st2 →
          Forall (subscribed st2 event) (all_clients st2) →
          ∃ st3,
            ipc_send_event event message_type payload st2 = (Done tt, st3)
            ∧ messages (drop (length (trace st2)) (trace st3))
              = (fun c => (fd c, strlen payload, message_type, payload))
                  <$> all_clients st2.
Proof.
  intros st.
  assert (Hok : registry_ok st) by (apply (bool_decide_unpack _); vm_compute; exact I).
  assert (Hnew : 9%Z ∉ (fd <$> all_clients st))
    by (apply (bool_decide_unpack _); vm_compute; exact I).
  split; [ split_and!; [ exact Hok | exact Hnew | lia | lia ] | ].
  apply (ipc_new_client_tail_and_send_order st 3 9 0 0 Hok Hnew); lia.
Defined.

(** Clients A, B and C connect in this order, each subscribes to
    "workspace", and the event is published: it goes to A, B, C. *)
Example publish_in_connection_order :
  let sub := "[" +:+ Sample.quoted "workspace" +:+ "]" in
  let n := N.of_nat (String.length sub) in
  let scenario :=
    (ipc_new_client 3 10 0 0 ;; ipc_new_client 3 11 0 0 ;; ipc_new_client 3 12 0 0 ;;
     ipc_receive_message 12 0 0 2 n sub ;;
     ipc_receive_message 10 0 0 2 n sub ;;
     ipc_receive_message 11 0 0 2 n sub ;;
     st <- get ;;
     ipc_send_event "workspace" 2147483648 "{}" ;;
     st' <- get ;;
     ret (messages (drop (length (trace st)) (trace st'))))%ipc in
  (scenario Sample.empty_state).1
  = Done [(10%Z, 2%N, 2147483648%N, "{}"); (11%Z, 2%N, 2147483648%N, "{}");
          (12%Z, 2%N, 2147483648%N, "{}")].
Proof. vm_compute. reflexivity. Qed.

(** ** Teardown of a connection *)

(** [free_events] releases each buffer once. *)
Lemma free_events_spec evs st :
  NoDup evs → Forall (fun p => is_Some (heap st !! p)) evs →
  ∃ h, free_events evs st = (Done tt, set_heap h st)
       ∧ ∀ q, h !! q = if decide (q ∈ evs) then None else heap st !! q.
Proof.
  revert st. induction evs as [ | p rest IH ]; intros st Hnd Hlive.
  { exists (heap st). split; [ destruct st; reflexivity | ].
    intros q. rewrite decide_False; [ reflexivity | apply not_elem_of_nil ]. }
  apply NoDup_cons in Hnd as [Hp Hnd].
  apply Forall_cons in Hlive as [[s Hs] Hlive].
  destruct (IH (set_heap (delete p (heap st)) st) Hnd) as (h & Hrun & Hh).
  { rewrite Forall_forall in Hlive |- *. intros q Hq. simpl.
    rewrite lookup_delete_ne; [ apply Hlive; exact Hq | ].
    intros ->. contradiction. }
  exists h. split.
  - simpl. unfold bind, free at 1. rewrite Hs. exact Hrun.
  - intros q. rewrite Hh. simpl.
    destruct (decide (q = p)) as [-> | Hne].
    + rewrite decide_False by exact Hp. rewrite decide_True by apply list_elem_of_here.
      apply lookup_delete_eq.
    + rewrite lookup_delete_ne by congruence.
      destruct (decide (q ∈ rest)) as [Hin | Hnin].
      * rewrite decide_True by (apply list_elem_of_further; exact Hin). reflexivity.
      * rewrite decide_False; [ reflexivity | ].
        rewrite not_elem_of_cons. split; assumption.
Qed.

Lemma filter_ext_in {A} (P Q : A → Prop) `{!∀ x, Decision (P x), !∀ x, Decision (Q x)}
    (l : list A) :
  (∀ x, x ∈ l → P x ↔ Q x) → filter P l = filter Q l.
Proof.
  induction l as [ | a l IH ]; intros Hext; [ reflexivity | ].
  rewrite !filter_cons, IH by (intros x Hx; apply Hext, list_elem_of_further, Hx).
  destruct (decide (P a)) as [Hp | Hp].
  - rewrite decide_True; [ reflexivity | ].
    apply Hext; [ apply list_elem_of_here | exact Hp ].
  - rewrite decide_False; [ reflexivity | ].
    rewrite <- Hext; [ exact Hp | apply list_elem_of_here ].
Qed.

(** What remains after the entry at [i] has been taken out and its
    buffers released. *)
Lemma registry_ok_delete st i c h :
  registry_ok st → all_clients st !! i = Some c →
  (∀ q, h !! q = if decide (q ∈ events c) then None else heap st !! q) →
  let st' := set_clients (delete i (all_clients st)) (set_heap h st) in
  registry_ok st'
  ∧ (∀ c', c' ∈ all_clients st' → fd c' ≠ fd c)
  ∧ (∀ c', c' ∈ all_clients st' → subscriptions st' c' = subscriptions st c').
Proof.
  intros (Hfds & Hnd & Hlive) Hi Hh st'. subst st'. simpl.
  pose proof (take_drop_middle _ _ _ Hi) as Hl.
  assert (Hlen : length (take i (all_clients st)) = i).
  { rewrite length_take. apply lookup_lt_Some in Hi. lia. }
  assert (Hdel : delete i (all_clients st)
                 = take i (all_clients st) ++ drop (S i) (all_clients st)).
  { apply delete_take_drop. }
  revert Hfds Hnd Hlive. rewrite <- Hl at 1 2 3. rewrite Hdel.
  generalize (take i (all_clients st)) as l1.
  generalize (drop (S i) (all_clients st)) as l2.
  intros l2 l1. unfold registry_ok, event_ptrs. simpl.
  rewrite !fmap_app, !bind_app, !fmap_cons, !bind_cons.
  intros Hfds Hnd Hlive.
  assert (Hdisj : ∀ q, q ∈ (l1 ≫= events) ++ (l2 ≫= events) → q ∉ events c).
  { intros q Hq Hqc.
    apply NoDup_app in Hnd as (_ & Hd1 & Hnd).
    apply NoDup_app in Hnd as (_ & Hd2 & _).
    apply elem_of_app in Hq as [Hq | Hq].
    - apply (Hd1 q Hq). apply elem_of_app. left. exact Hqc.
    - apply (Hd2 q Hqc Hq). }
  split; [ split_and! | split ].
  - apply NoDup_app in Hfds as (H1 & H12 & H2).
    apply NoDup_cons in H2 as [_ H2].
    apply NoDup_app. split_and!; [ exact H1 | | exact H2 ].
    intros f Hf Hf'. apply (H12 f Hf). apply list_elem_of_further. exact Hf'.
  - apply NoDup_app in Hnd as (H1 & H12 & H2).
    apply NoDup_app in H2 as (_ & _ & H2).
    apply NoDup_app. split_and!; [ exact H1 | | exact H2 ].
    intros q Hq Hq'. apply (H12 q Hq). apply elem_of_app. right. exact Hq'.
  - rewrite Forall_forall in Hlive |- *. intros q Hq.
    rewrite Hh, decide_False by (apply Hdisj; exact Hq).
    apply Hlive. apply elem_of_app in Hq as [Hq | Hq]; apply elem_of_app;
      [ left | right; apply elem_of_app; right ]; exact Hq.
  - intros c' Hc' Hfd.
    apply NoDup_app in Hfds as (H1 & H12 & H2).
    apply NoDup_cons in H2 as [H2 _].
    apply elem_of_app in Hc' as [Hc' | Hc'].
    + apply (H12 (fd c')); [ apply list_elem_of_fmap_2; exact Hc' | ].
      rewrite Hfd. apply list_elem_of_here.
    + apply H2. rewrite <- Hfd. apply list_elem_of_fmap_2. exact Hc'.
  - intros c' Hc'. unfold subscriptions. simpl.
    assert (Hown : ∀ q, q ∈ events c' → q ∉ events c).
    { intros q Hq. apply Hdisj.
      rewrite <- bind_app. apply list_elem_of_bind. eauto. }
    revert Hown. generalize (events c') as evs.
    induction evs as [ | q evs IH ]; intros Hown; [ reflexivity | ].
    csimpl. rewrite Hh, decide_False by (apply Hown, list_elem_of_here).
    rewrite IH; [ reflexivity | ].
    intros q' Hq'. apply Hown, list_elem_of_further, Hq'.
Qed.

Lemma delete_client_spec st w_fd i c :
  registry_ok st → find_client w_fd (all_clients st) = Some (i, c) →
  ∃ h, delete_client w_fd st
       = (Done tt, set_clients (delete i (all_clients st)) (set_heap h st))
       ∧ ∀ q, h !! q = if decide (q ∈ events c) then None else heap st !! q.
Proof.
  intros Hok Hfind.
  pose proof Hfind as (Hi & _ & _)%list_find_Some.
  pose proof (registry_ok_client_live st i c Hok Hi) as Hlive.
  assert (Hnd : NoDup (events c)).
  { destruct Hok as (_ & Hnd & _). revert Hnd.
    rewrite <- (take_drop_middle _ _ _ Hi). unfold event_ptrs.
    rewrite bind_app, bind_cons. intros Hnd.
    apply NoDup_app in Hnd as (_ & _ & Hnd).
    apply NoDup_app in Hnd as (Hnd & _). exact Hnd. }
  destruct (free_events_spec (events c) st Hnd Hlive) as (h & Hrun & Hh).
  exists h. split; [ | exact Hh ].
  unfold delete_client, bind at 1, get. rewrite Hfind.
  unfold bind. rewrite Hrun. reflexivity.
Qed.

(** C5: when reading from a connection fails (or meets end of file)
    and the failure is not a spurious wake-up, [ipc_receive_message]
    closes the descriptor, releases every buffer of event names the
    client owned and takes exactly that client's entry out of the
    registry. All other entries, and what they are subscribed to, are
    as before; nothing is sent. An event published afterwards, also one
    the departed client had subscribed to, runs without fault and goes
    to the subscribed clients that remain. *)
Theorem ipc_receive_message_teardown `{Yajl} `{Host}
    st w_fd ret_ errno message_type message_length message i c :
  registry_ok st →
  (ret_ < 0)%Z → ¬ (ret_ = -1 ∧ errno = EAGAIN)%Z →
  find_client w_fd (all_clients st) = Some (i, c) →
  ∃ st',
    ipc_receive_message w_fd ret_ errno message_type message_length message st
      = (Done tt, st')
    ∧ all_clients st' = delete i (all_clients st)
    ∧ (∀ c', c' ∈ all_clients st' → fd c' ≠ w_fd)
    ∧ (∀ p, p ∈ events c → heap st' !! p = None)
    ∧ (∀ p, p ∉ events c → heap st' !! p = heap st !! p)
    ∧ (∀ c', c' ∈ all_clients st' → subscriptions st' c' = subscriptions st c')
    ∧ trace st' = trace st ++ [sys_close w_fd; ev_io_stop w_fd;
                               log DLOG "IPC: client disconnected"]
    ∧ registry_ok st'
    ∧ ∀ event event_type payload,
        ∃ st'',
          ipc_send_event event event_type payload st' = (Done tt, st'')
          ∧ trace st'' = trace st'
              ++ (event_message event_type payload
                    <$> filter (subscribed st event) (delete i (all_clients st))).
Proof.
  intros Hok Hret Hagain Hfind.
  pose proof Hfind as (Hi & Hfd & _)%list_find_Some.
  set (st0 := emit [sys_close w_fd] st).
  assert (Hok0 : registry_ok st0) by exact Hok.
  destruct (delete_client_spec st0 w_fd i c Hok0 Hfind) as (h & Hdel & Hh).
  destruct (registry_ok_delete st0 i c h Hok0 Hi Hh) as (Hok' & Hfds' & Hsubs').
  set (st' := emit [ev_io_stop w_fd; log DLOG "IPC: client disconnected"]
                (set_clients (delete i (all_clients st0)) (set_heap h st0))).
  assert (Hok'' : registry_ok st') by exact Hok'.
  assert (Hsubs'' : ∀ c', c' ∈ delete i (all_clients st) →
                          subscriptions st' c' = subscriptions st c') by exact Hsubs'.
  assert (Hclients : all_clients st' = delete i (all_clients st)) by reflexivity.
  assert (Hheap : heap st' = h) by reflexivity.
  assert (Htrace : trace st' = trace st ++ [sys_close w_fd; ev_io_stop w_fd;
                                           log DLOG "IPC: client disconnected"]).
  { simpl. rewrite <- app_assoc. reflexivity. }
  assert (Hrun : ipc_receive_message w_fd ret_ errno message_type message_length
                                     message st = (Done tt, st')).
  { unfold ipc_receive_message.
    assert ((ret_ <? 0)%Z = true) as -> by lia.
    assert (((ret_ =? -1)%Z && (errno =? EAGAIN)%Z) = false) as ->.
    { apply andb_false_iff. lia. }
    unfold bind at 1. unfold perform at 1. fold st0.
    unfold bind at 1. rewrite Hdel.
    unfold bind, perform. simpl. rewrite emit_emit. reflexivity. }
  clearbody st'. exists st'.
  split; [ exact Hrun | ]. split; [ exact Hclients | ].
  split; [ intros c' Hc'; rewrite <- Hfd; apply Hfds'; rewrite Hclients in Hc'; exact Hc' | ].
  split; [ intros p Hp; rewrite Hheap, Hh, decide_True by exact Hp; reflexivity | ].
  split; [ intros p Hp; rewrite Hheap, Hh, decide_False by exact Hp; reflexivity | ].
  split; [ intros c' Hc'; apply Hsubs''; rewrite Hclients in Hc'; exact Hc' | ].
  split; [ exact Htrace | ]. split; [ exact Hok'' | ].
  intros event event_type payload. eexists.
  split; [ apply ipc_send_event_spec; exact Hok'' | ].
  unfold emit. cbn [trace]. f_equal. f_equal. rewrite Hclients.
  apply filter_ext_in. intros c' Hc'. unfold subscribed.
  rewrite (Hsubs'' c' Hc'). reflexivity.
Qed.

Lemma ipc_receive_message_teardown_witness :
  let st := Sample.four_clients in
  let c := {| fd := 5; events := [1; 2]%positive |} in
  ∃ st',
    ipc_receive_message 5 (-2) 0 0 0 "" st = (Done tt, st')
    ∧ all_clients st' = delete 0 (all_clients st)
    ∧ (∀ c', c' ∈ all_clients st' → fd c' ≠ 5%Z)
    ∧ (∀ p, p ∈ events c → heap st' !! p = None)
    ∧ (∀ p, p ∉ events c → heap st' !! p = heap st !! p)
    ∧ (∀ c', c' ∈ all_clients st' → subscriptions st' c' = subscriptions st c')
    ∧ trace st' = trace st ++ [sys_close 5; ev_io_stop 5;
                               log DLOG "IPC: client disconnected"]
    ∧ registry_ok st'
    ∧ ∀ event event_type payload,
        ∃ st'',
          ipc_send_event event event_type payload st' = (Done tt, st'')
          ∧ trace st'' = trace st'
              ++ (event_message event_type payload
                    <$> filter (subscribed st event) (delete 0 (all_clients st))).
Proof.
  intros st c.
  apply (ipc_receive_message_teardown st 5 (-2) 0 0 0 "" 0 c).
  - apply (bool_decide_unpack _). vm_compute. exact I.
  - lia.
  - intros [Hret _]. lia.
  - vm_compute. reflexivity.
Defined.

(** A spurious wake-up ([ret = -1] with [EAGAIN]) changes nothing. *)
Lemma ipc_receive_message_eagain `{Yajl} `{Host}
    st w_fd message_type message_length message :
  ipc_receive_message w_fd (-1) EAGAIN message_type message_length message st
  = (Done tt, st).
Proof.
  unfold ipc_receive_message. simpl. rewrite Z.eqb_refl. reflexivity.
Qed.

(** On the sample registry: client 5 goes away, its two buffers are
    released, and "workspace" then reaches client 6 only. *)
Example teardown_then_publish :
  let r := (ipc_receive_message 5 (-2) 0 0 0 "" ;;
            ipc_send_event "workspace" 2147483648 "{}")%ipc Sample.four_clients in
  r.1 = Done tt
  ∧ all_clients r.2 = [ {| fd := 6; events := [3%positive] |};
                        {| fd := 7; events := [4%positive] |};
                        {| fd := 8; events := [] |} ]
  ∧ map_to_list (heap r.2) = [(3%positive, "Workspace"); (4%positive, "output")]
  ∧ messages (trace r.2) = [(6%Z, 2%N, 2147483648%N, "{}")].
Proof. vm_compute. split_and!; reflexivity. Qed.

(** ** Shutdown *)

Lemma ipc_shutdown_loop_spec cs st :
  all_clients st = cs →
  ipc_shutdown_loop cs st
  = (Done tt,
     set_clients [] (emit (cs ≫= fun c => [sys_shutdown (fd c); sys_close (fd c)]) st)).
Proof.
  revert st. induction cs as [ | current rest IH ]; intros st Hcs.
  - simpl. destruct st as [cs h tr]. simpl in Hcs. subst cs.
    unfold ret, set_clients, emit. simpl. rewrite app_nil_r. reflexivity.
  - simpl. unfold bind, perform. simpl.
    rewrite IH by reflexivity.
    unfold set_clients, emit. simpl. rewrite <- app_assoc. reflexivity.
Qed.

(** [ipc_shutdown] shuts down and closes every descriptor, head to
    tail, and empties the registry; it sends nothing, and it releases
    no buffer. *)
Lemma ipc_shutdown_spec st :
  ∃ st',
    ipc_shutdown st = (Done tt, st')
    ∧ all_clients st' = []
    ∧ trace st' = trace st
        ++ (all_clients st ≫= fun c => [sys_shutdown (fd c); sys_close (fd c)])
    ∧ messages (trace st') = messages (trace st)
    ∧ heap st' = heap st.
Proof.
  eexists. split; [ apply ipc_shutdown_loop_spec; reflexivity | ].
  simpl. split_and!; try reflexivity.
  rewrite messages_app.
  assert (Hnone : ∀ cs, messages (cs ≫= fun c => [sys_shutdown (fd c); sys_close (fd c)]) = []).
  { induction cs as [ | c cs IH ]; [ reflexivity | ].
    rewrite bind_cons, messages_app, IH. reflexivity. }
  rewrite Hnone, app_nil_r. reflexivity.
Qed.

(** C6: [ipc_shutdown] takes every client out of the registry, after
    [shutdown] and [close] on its descriptor and without sending it
    anything, but it does not release the buffers of event names: on the
    sample registry all four names are still allocated afterwards,
    whereas the teardown in [ipc_receive_message] releases the two
    buffers of the client it removes. *)
Theorem ipc_shutdown_keeps_event_names :
  let st := Sample.four_clients in
  let after_shutdown := ipc_shutdown st in
  let after_teardown := ipc_receive_message 5 (-2) 0 0 0 "" st in
  after_shutdown.1 = Done tt
  ∧ all_clients after_shutdown.2 = []
  ∧ messages (trace after_shutdown.2) = []
  ∧ trace after_shutdown.2
    = [sys_close 9; sys_shutdown 5; sys_close 5; sys_shutdown 6; sys_close 6;
       sys_shutdown 7; sys_close 7; sys_shutdown 8; sys_close 8]
  ∧ heap after_shutdown.2 = heap st
  ∧ heap after_shutdown.2 !! 1%positive = Some "workspace"
  ∧ heap after_shutdown.2 !! 2%positive = Some "workspace"
  ∧ after_teardown.1 = Done tt
  ∧ heap after_teardown.2 !! 1%positive = None
  ∧ heap after_teardown.2 !! 2%positive = None.
Proof. vm_compute. split_and!; reflexivity. Qed.

(** ** GET_BAR_CONFIG *)

Lemma fold_left_ystr {A} (f : A → string) (l : list A) gen :
  fold_left (fun gen a => ystr gen (f a)) l gen
  = gen ++ ((fun a => yajl_gen_string (cstr (f a))) <$> l).
Proof.
  revert gen. induction l as [ | a l IH ]; intros gen; simpl.
  - rewrite app_nil_r. reflexivity.
  - rewrite IH. unfold ystr, y. rewrite <- app_assoc. reflexivity.
Qed.

Lemma json_read_app gen1 gen2 r :
  json_read (gen1 ++ gen2) r
  = match json_read gen1 r with
    | Some r' => json_read gen2 r'
    | None => None
    end.
Proof.
  revert r. induction gen1 as [ | c gen1 IH ]; intros r; simpl; [ reflexivity | ].
  destruct (json_call c r); [ apply IH | reflexivity ].
Qed.

Lemma json_read_strings (l : list string) items stack top :
  json_read (yajl_gen_string <$> l) (in_array items :: stack, top)
  = Some (in_array (rev (JString <$> l) ++ items) :: stack, top).
Proof.
  revert items. induction l as [ | s l IH ]; intros items; simpl; [ reflexivity | ].
  rewrite IH. rewrite <- app_assoc. reflexivity.
Qed.

Lemma find_barconfig_none configs bar_id :
  (∀ config, config ∈ configs → cstr (Barconfig.id config) ≠ cstr bar_id) →
  find_barconfig configs bar_id = None.
Proof.
  induction configs as [ | current rest IH ]; intros Hnone; [ reflexivity | ].
  simpl. destruct (Z.eqb_spec (strcmp (Barconfig.id current) bar_id) 0) as [Heq | Hne].
  - apply strcmp_cstr in Heq. exfalso.
    apply (Hnone current); [ apply list_elem_of_here | exact Heq ].
  - simpl. apply IH. intros config Hin. apply Hnone, list_elem_of_further, Hin.
Qed.

(** The copy of the message, for a length below the one that wraps. *)
Lemma copy_message_ok message message_size st :
  (message_size < UINT32_MAX)%N →
  copy_message message message_size st = (Done (strncpy0 message message_size), st).
Proof.
  intros Hlt. unfold copy_message, UINT32_MAX in *. cbv zeta.
  rewrite N.mod_small by (change (2 ^ 32)%N with 4294967296%N; lia).
  rewrite (proj2 (N.ltb_ge _ _)) by lia. reflexivity.
Qed.

Lemma copy_message_overrun message st :
  copy_message message UINT32_MAX st = (Crash BufferOverflow, st).
Proof. reflexivity. Qed.

Lemma copy_message_cases message message_size st :
  copy_message message message_size st = (Done (strncpy0 message message_size), st)
  ∨ copy_message message message_size st = (Crash BufferOverflow, st).
Proof.
  unfold copy_message. cbv zeta.
  destruct (_ <? _)%N; [ right | left ]; reflexivity.
Qed.

Lemma is_nul_eqb c : is_nul c = Ascii.eqb c NUL.
Proof.
  destruct (Ascii.eqb_spec c NUL) as [-> | Hne]; [ reflexivity | ].
  destruct (is_nul c) eqn:Hc; [ | reflexivity ].
  apply is_nul_NUL in Hc. contradiction.
Qed.

(** What [strncpy] leaves in the zeroed buffer is the text the request
    carries. *)
Lemma strncpy0_requested_text message message_size :
  strncpy0 message message_size = requested_text message message_size.
Proof.
  unfold strncpy0, requested_text.
  generalize (N.to_nat message_size) as n. clear message_size.
  induction message as [ | c message IH ]; intros [ | n ]; try reflexivity.
  change (substring 0 (S n) (String c message))
    with (String c (substring 0 n message)).
  change (take (S n) (list_ascii_of_string (String c message)))
    with (c :: take n (list_ascii_of_string message)).
  cbn [cstr until_nul]. rewrite is_nul_eqb. change "000"%char with NUL.
  destruct (Ascii.eqb c NUL); [ reflexivity | ].
  cbn [string_of_list_ascii]. f_equal. apply IH.
Qed.

Lemma cstr_c_text s : cstr s = c_text s.
Proof.
  unfold c_text. induction s as [ | c s IH ]; [ reflexivity | ].
  cbn [cstr list_ascii_of_string until_nul]. rewrite is_nul_eqb.
  change "000"%char with NUL.
  destruct (Ascii.eqb c NUL); [ reflexivity | ].
  cbn [string_of_list_ascii]. f_equal. exact IH.
Qed.

(** C7: for a GET_BAR_CONFIG request with an empty payload the reply
    is the JSON array of the ids of all bar configurations, in their
    order. For a payload that names no configuration it is the JSON
    object whose only field is ["id"], with the value null, as long as
    the length is below 4294967295. At that length, the largest the
    header can carry, the sum [message_size + 1] wraps to 0: the handler
    writes past a buffer of size 0 and sends no reply. *)
Theorem handle_get_bar_config_reply `{Yajl} `{Host}
    fd0 message size message_size message_type st :
  let ids := (fun config => cstr (Barconfig.id config)) <$> barconfigs in
  let all_ids :=
    [yajl_gen_array_open] ++ (yajl_gen_string <$> ids) ++ [yajl_gen_array_close] in
  let not_found :=
    [yajl_gen_map_open; yajl_gen_string "id"; yajl_gen_null; yajl_gen_map_close] in
  let reply gen :=
    (fd0, N.of_nat (String.length (yajl_gen_get_buf gen)),
     I3_IPC_REPLY_TYPE_BAR_CONFIG, yajl_gen_get_buf gen) in
  let run := handle_get_bar_config fd0 message size message_size message_type st in
  (message_size = 0%N →
     run.1 = Done tt
     ∧ all_clients run.2 = all_clients st
     ∧ heap run.2 = heap st
     ∧ messages (trace run.2) = messages (trace st) ++ [reply all_ids]
     ∧ json_of all_ids = Some (JArray (JString <$> ids)))
  ∧ ((0 < message_size)%N → (message_size < UINT32_MAX)%N →
     (∀ config, config ∈ barconfigs →
        c_text (Barconfig.id config) ≠ requested_text message message_size) →
     run.1 = Done tt
     ∧ all_clients run.2 = all_clients st
     ∧ heap run.2 = heap st
     ∧ messages (trace run.2) = messages (trace st) ++ [reply not_found]
     ∧ json_of not_found = Some (JObject [("id", JNull)]))
  ∧ (message_size = UINT32_MAX → run = (Crash BufferOverflow, st)).
Proof.
  intros ids all_ids not_found reply run. subst run reply not_found all_ids ids.
  unfold handle_get_bar_config. split_and!.
  - intros ->. change (0 =? 0)%N with true. cbv iota. split_and!.
    5: { unfold json_of.
         change (json_read ([yajl_gen_array_open] ++ ?g) ([], None))
           with (json_read g ([in_array []], None)).
         rewrite json_read_app, json_read_strings. simpl.
         rewrite app_nil_r, rev_involutive. reflexivity. }
    4: { unfold perform, ygenalloc. cbn [snd trace emit].
         rewrite fold_left_ystr. unfold y. rewrite messages_app. f_equal.
         rewrite <- list_fmap_compose, <- app_assoc. reflexivity. }
    all: reflexivity.
  - intros Hpos Hlt Hnone.
    rewrite (proj2 (N.eqb_neq message_size 0)) by lia.
    rewrite (bind_done _ _ _ _ _ (copy_message_ok message message_size st Hlt)).
    rewrite find_barconfig_none.
    + unfold bind, perform, ygenalloc, ystr, y. simpl.
      rewrite !messages_app. simpl. rewrite app_nil_r.
      split_and!; reflexivity.
    + intros config Hin. rewrite cstr_c_text.
      replace (cstr (strncpy0 message message_size))
        with (requested_text message message_size); [ apply Hnone, Hin | ].
      rewrite <- strncpy0_requested_text. unfold strncpy0.
      rewrite cstr_idemp. reflexivity.
  - intros ->. reflexivity.
Qed.

Lemma handle_get_bar_config_reply_witness :
  let run_all := handle_get_bar_config 5 "" 0 0 6 Sample.four_clients in
  let run_unknown := handle_get_bar_config 5 "bar-7" 0 5 6 Sample.four_clients in
  let run_wrapped :=
    handle_get_bar_config 5 "bar-7" 0 4294967295 6 Sample.four_clients in
  (messages (trace run_all.2)
   = [(5%Z, 17%N, 6%N, "[" +:+ Sample.quoted "bar-0" +:+ "," +:+ Sample.quoted "bar-1" +:+ "]")]
   ∧ json_of [yajl_gen_array_open; yajl_gen_string "bar-0"; yajl_gen_string "bar-1";
              yajl_gen_array_close]
     = Some (JArray [JString "bar-0"; JString "bar-1"]))
  ∧ (messages (trace run_unknown.2)
     = [(5%Z, 11%N, 6%N, "{" +:+ Sample.quoted "id" +:+ ":null}")]
     ∧ json_of [yajl_gen_map_open; yajl_gen_string "id"; yajl_gen_null;
                yajl_gen_map_close]
       = Some (JObject [("id", JNull)]))
  ∧ run_wrapped = (Crash BufferOverflow, Sample.four_clients).
Proof.
  intros run_all run_unknown run_wrapped. split; [ | split ].
  - destruct (handle_get_bar_config_reply 5 "" 0 0 6 Sample.four_clients)
      as (Hall & _ & _).
    destruct (Hall eq_refl) as (_ & _ & _ & Hmsg & Hjson).
    split; [ exact Hmsg | exact Hjson ].
  - destruct (handle_get_bar_config_reply 5 "bar-7" 0 5 6 Sample.four_clients)
      as (_ & Hunknown & _).
    assert (Hpos : (0 < 5)%N) by reflexivity.
    assert (Hlt : (5 < UINT32_MAX)%N) by reflexivity.
    assert (Hnone : ∀ config, config ∈ barconfigs →
              c_text (Barconfig.id config) ≠ requested_text "bar-7" 5).
    { apply Forall_forall. apply (bool_decide_unpack _). vm_compute. exact I. }
    destruct (Hunknown Hpos Hlt Hnone) as (_ & _ & _ & Hmsg & Hjson).
    split; [ exact Hmsg | exact Hjson ].
  - destruct (handle_get_bar_config_reply 5 "bar-7" 0 4294967295 6
                Sample.four_clients) as (_ & _ & Hwrapped).
    exact (Hwrapped eq_refl).
Defined.

(** ** GET_TREE: dump_node and the layout field *)

(** Induction over a tree of containers, with the hypothesis for the
    children in both child lists. *)
Lemma Con_ind_nested (P : Con → Prop) :
  (∀ con, Forall P (nodes_head con) → Forall P (floating_head con) → P con) →
  ∀ con, P con.
Proof.
  intros Hcon. fix IH 1. intros con. apply Hcon.
  - destruct con as [? ? ? ? ? ? ? ? ? ? ? ? ? ? ? ? nodes ? ? ? ? ? ?]. simpl.
    induction nodes as [ | node nodes IHnodes ]; constructor;
      [ apply IH | exact IHnodes ].
  - destruct con as [? ? ? ? ? ? ? ? ? ? ? ? ? ? ? ? ? nodes ? ? ? ? ?]. simpl.
    induction nodes as [ | node nodes IHnodes ]; constructor;
      [ apply IH | exact IHnodes ].
Qed.

Lemma bind_inv {A B} (m : M A) (k : A → M B) st b st' :
  bind m k st = (Done b, st') →
  ∃ a st1, m st = (Done a, st1) ∧ k a st1 = (Done b, st').
Proof.
  unfold bind. destruct (m st) as [[a | f] st1]; [ eauto | discriminate ].
Qed.

Lemma y_extends g gen c : g `prefix_of` gen → g `prefix_of` y gen c.
Proof. intros Hg. unfold y. apply prefix_app_r. exact Hg. Qed.

Lemma ystr_extends g gen s : g `prefix_of` gen → g `prefix_of` ystr gen s.
Proof. intros Hg. unfold ystr. apply y_extends. exact Hg. Qed.

Lemma fold_left_extends {A} (f : yajl_gen → A → yajl_gen) (l : list A) g gen :
  (∀ gen a, gen `prefix_of` f gen a) →
  g `prefix_of` gen → g `prefix_of` fold_left f l gen.
Proof.
  intros Hf. revert gen. induction l as [ | a l IH ]; intros gen Hg; simpl.
  - exact Hg.
  - apply IH. etrans; [ exact Hg | apply Hf ].
Qed.

Lemma dump_rect_extends g gen name r :
  g `prefix_of` gen → g `prefix_of` dump_rect gen name r.
Proof. intros Hg. unfold dump_rect. do 11 (apply y_extends || apply ystr_extends). exact Hg. Qed.

Ltac extends :=
  lazymatch goal with
  | |- ?g `prefix_of` ?g => reflexivity
  | H : ?g `prefix_of` ?gen |- ?g `prefix_of` ?gen => exact H
  | |- _ `prefix_of` y _ _ => apply y_extends; extends
  | |- _ `prefix_of` ystr _ _ => apply ystr_extends; extends
  | |- _ `prefix_of` dump_rect _ _ _ => apply dump_rect_extends; extends
  | |- _ `prefix_of` fold_left _ _ _ =>
      apply fold_left_extends; [ intros; cbv beta; extends | extends ]
  | |- _ `prefix_of` (match ?x with _ => _ end) => destruct x; extends
  | |- _ `prefix_of` (let gen := _ in _) => cbv zeta; extends
  end.

Section DumpNode.
Context `{Yajl} `{Host}.

Lemma dump_node_unfold gen con inplace_restart :
  dump_node gen con inplace_restart
  = (let gen := dump_node_head gen con in
     let gen := ystr gen "layout" in
     gen <- dump_node_layout gen con ;;
     let gen := ystr gen "workspace_layout" in
     gen <- dump_node_workspace_layout gen con ;;
     let gen := dump_node_middle gen con in
     let gen := ystr gen "nodes" in
     let gen := y gen yajl_gen_array_open in
     gen <- (if negb (type con =? CT_DOCKAREA)%Z || negb inplace_restart
             then foreach (fun node gen => dump_node gen node inplace_restart)
                          (nodes_head con) gen
             else ret gen) ;;
     let gen := y gen yajl_gen_array_close in
     let gen := ystr gen "floating_nodes" in
     let gen := y gen yajl_gen_array_open in
     gen <- foreach (fun node gen => dump_node gen node inplace_restart)
                    (floating_head con) gen ;;
     let gen := y gen yajl_gen_array_close in
     ret (dump_node_tail gen con inplace_restart)).
Proof. destruct con. reflexivity. Qed.

Lemma dump_node_head_extends gen con : gen `prefix_of` dump_node_head gen con.
Proof. unfold dump_node_head. extends. Qed.

Lemma dump_node_middle_extends g gen con :
  g `prefix_of` gen → g `prefix_of` dump_node_middle gen con.
Proof.
  intros Hg. unfold dump_node_middle. extends.
Qed.

Lemma dump_node_tail_extends g gen con inplace_restart :
  g `prefix_of` gen → g `prefix_of` dump_node_tail gen con inplace_restart.
Proof. intros Hg. unfold dump_node_tail. extends. Qed.

Lemma dump_node_layout_extends gen con st gen' st' :
  dump_node_layout gen con st = (Done gen', st') → gen `prefix_of` gen'.
Proof.
  unfold dump_node_layout, bind, perform, assert, ret, crash.
  destruct (layout con); try (intros [= <- _]; extends).
  destruct NDEBUG; simpl; [ intros [= <- _]; reflexivity | discriminate ].
Qed.

Lemma dump_node_workspace_layout_extends gen con st gen' st' :
  dump_node_workspace_layout gen con st = (Done gen', st') → gen `prefix_of` gen'.
Proof.
  unfold dump_node_workspace_layout, bind, perform, assert, ret, crash.
  destruct (workspace_layout con); try (intros [= <- _]; extends);
    destruct NDEBUG; simpl; first [ intros [= <- _]; reflexivity | discriminate ].
Qed.

Lemma foreach_extends {A} (body : A → yajl_gen → M yajl_gen) (l : list A)
    gen st gen' st' :
  Forall (fun a => ∀ gen st gen' st',
            body a gen st = (Done gen', st') → gen `prefix_of` gen') l →
  foreach body l gen st = (Done gen', st') → gen `prefix_of` gen'.
Proof.
  intros Hbody. revert gen st.
  induction Hbody as [ | a l Ha _ IH ]; intros gen st; simpl.
  - intros [= <- _]. reflexivity.
  - intros (g1 & st1 & Hrun1 & Hrest)%bind_inv.
    etrans; [ eapply Ha; exact Hrun1 | eapply IH; exact Hrest ].
Qed.

(** A completed [dump_node] has the generator it was given as a prefix
    of the one it returns, and after the key ["layout"] comes the call
    that [dump_node_layout] made. *)
Lemma dump_node_extends con :
  ∀ gen inplace_restart st gen' st',
    dump_node gen con inplace_restart st = (Done gen', st') →
    ∃ after_layout st1,
      dump_node_layout (ystr (dump_node_head gen con) "layout") con st
        = (Done after_layout, st1)
      ∧ gen `prefix_of` after_layout
      ∧ after_layout `prefix_of` gen'.
Proof.
  induction con as [con IHnodes IHfloating] using Con_ind_nested.
  intros gen inplace_restart st gen' st'.
  rewrite dump_node_unfold. cbv zeta.
  intros (g1 & st1 & Hlayout & Hrest)%bind_inv.
  apply bind_inv in Hrest as (g2 & st2 & Hws & Hrest).
  apply bind_inv in Hrest as (g3 & st3 & Hnodes & Hrest).
  apply bind_inv in Hrest as (g4 & st4 & Hfloating & Hrest).
  injection Hrest as <- _.
  exists g1, st1. split; [ exact Hlayout | ].
  apply dump_node_layout_extends in Hlayout.
  apply dump_node_workspace_layout_extends in Hws.
  assert (Hchildren : ∀ l, Forall (fun con => ∀ gen inplace_restart st gen' st',
              dump_node gen con inplace_restart st = (Done gen', st') →
              ∃ after_layout st1,
                dump_node_layout (ystr (dump_node_head gen con) "layout") con st
                  = (Done after_layout, st1)
                ∧ gen `prefix_of` after_layout ∧ after_layout `prefix_of` gen') l →
            ∀ gen st gen' st',
              foreach (fun node gen => dump_node gen node inplace_restart) l gen st
                = (Done gen', st') → gen `prefix_of` gen').
  { intros l Hl g s g' s'. apply foreach_extends.
    eapply Forall_impl; [ exact Hl | ]. cbv beta.
    intros node Hnode g0 s0 g0' s0' Hrun.
    destruct (Hnode _ _ _ _ _ Hrun) as (? & ? & _ & ? & ?). etrans; eassumption. }
  assert (Hg3 : dump_node_middle g2 con `prefix_of` g3).
  { destruct (negb (type con =? CT_DOCKAREA)%Z || negb inplace_restart).
    - apply Hchildren in Hnodes; [ | exact IHnodes ].
      etrans; [ | exact Hnodes ]. extends.
    - injection Hnodes as <- _. extends. }
  apply Hchildren in Hfloating; [ | exact IHfloating ].
  split.
  - etrans; [ | exact Hlayout ]. apply ystr_extends, dump_node_head_extends.
  - apply dump_node_tail_extends, y_extends.
    etrans; [ | exact Hfloating ]. do 3 apply y_extends || apply ystr_extends.
    etrans; [ | exact Hg3 ]. apply dump_node_middle_extends.
    etrans; [ | exact Hws ]. apply ystr_extends. reflexivity.
Qed.


(** C8: in [dump_node] the layouts splitv, splith, stacked, tabbed,
    dockarea and output are each written as their own fixed string right
    after the key ["layout"], and a completed [dump_node] returns a
    generator that starts with the fields up to that string. For the
    default layout no string is written in any build: the case logs
    that this is a bug and asserts false, so that a build with
    assertions stops [dump_node] there with an assertion failure. *)
Theorem dump_node_layout_token gen con inplace_restart st :
  let key := ystr (dump_node_head gen con) "layout" in
  (∀ token, layout_token (layout con) = Some token →
     dump_node_layout key con st = (Done (key ++ [yajl_gen_string token]), st)
     ∧ ∀ gen' st', dump_node gen con inplace_restart st = (Done gen', st') →
         (key ++ [yajl_gen_string token]) `prefix_of` gen')
  ∧ (layout_token (layout con) = None → layout con = L_DEFAULT)
  ∧ (layout con = L_DEFAULT →
       (dump_node_layout key con st).2 = emit [layout_default_log] st
       ∧ (dump_node_layout key con st).1
         = (if NDEBUG then Done key else Crash AssertionFailed)
       ∧ (NDEBUG = false →
            dump_node gen con inplace_restart st
            = (Crash AssertionFailed, emit [layout_default_log] st))).
Proof.
  intros key. split_and!.
  - intros token Htoken.
    assert (Hrun : dump_node_layout key con st
                   = (Done (key ++ [yajl_gen_string token]), st)).
    { unfold dump_node_layout.
      destruct (layout con); simpl in Htoken; try discriminate;
        injection Htoken as <-; reflexivity. }
    split; [ exact Hrun | ].
    intros gen' st' Hdump.
    destruct (dump_node_extends con gen inplace_restart st gen' st' Hdump)
      as (after_layout & st1 & Hrun' & _ & Hafter).
    fold key in Hrun'. rewrite Hrun in Hrun'. injection Hrun' as <- _.
    exact Hafter.
  - destruct (layout con); simpl; congruence.
  - intros Hdefault.
    assert (Hrun : dump_node_layout key con st
                   = (if NDEBUG then Done key else Crash AssertionFailed,
                      emit [layout_default_log] st)).
    { unfold dump_node_layout. rewrite Hdefault.
      unfold bind, perform, assert. simpl. destruct NDEBUG; reflexivity. }
    split_and!.
    + rewrite Hrun. reflexivity.
    + rewrite Hrun. reflexivity.
    + intros Hdebug. rewrite dump_node_unfold. cbv zeta. fold key.
      unfold bind at 1. rewrite Hrun, Hdebug. reflexivity.
Qed.

End DumpNode.

Lemma dump_node_layout_token_witness :
  let unset := Sample.leaf 2 L_DEFAULT [] in
  let split := Sample.leaf 1 L_SPLITH [] in
  let key := ystr (dump_node_head [] split) "layout" in
  dump_node [] unset false Sample.empty_state
  = (Crash AssertionFailed, emit [layout_default_log] Sample.empty_state)
  ∧ dump_node_layout key split Sample.empty_state
    = (Done (key ++ [yajl_gen_string "splith"]), Sample.empty_state).
Proof.
  intros unset split key. split.
  - apply (dump_node_layout_token [] unset false Sample.empty_state); reflexivity.
  - apply (dump_node_layout_token [] split false Sample.empty_state). reflexivity.
Defined.

(** The table of tokens, read off [layout_token]. *)
Lemma layout_token_table :
  layout_token <$> [L_SPLITV; L_SPLITH; L_STACKED; L_TABBED; L_DOCKAREA; L_OUTPUT;
                    L_DEFAULT]
  = [Some "splitv"; Some "splith"; Some "stacked"; Some "tabbed";
     Some "dockarea"; Some "output"; None].
Proof. reflexivity. Qed.

(** In the sample host, a development build whose tree has a node left
    at the default layout, GET_TREE stops at the assertion and sends no
    reply. *)
Example handle_tree_default_layout :
  let r := ipc_receive_message 5 0 0 4 0 "" Sample.four_clients in
  r.1 = Crash AssertionFailed
  ∧ messages (trace r.2) = []
  ∧ trace r.2 = [sys_close 9; setlocale_numeric "C"; layout_default_log].
Proof. vm_compute. split_and!; reflexivity. Qed.

(** ** The registry invariant holds in every state the reactor reaches *)

Lemma trace_only_ret {A} (a : A) : trace_only (ret a).
Proof. intros st. exists []. rewrite emit_nil. reflexivity. Qed.

Lemma trace_only_crash {A} f : trace_only (@crash A f).
Proof. intros st. exists []. rewrite emit_nil. reflexivity. Qed.

Lemma trace_only_perform es : trace_only (perform es).
Proof. intros st. exists es. reflexivity. Qed.

Lemma trace_only_bind {A B} (m : M A) (k : A → M B) :
  trace_only m → (∀ a, trace_only (k a)) → trace_only (bind m k).
Proof.
  intros Hm Hk st. unfold bind. destruct (Hm st) as [es1 Hes1].
  destruct (m st) as [[a | f] st1]; simpl in Hes1; subst st1.
  - destruct (Hk a (emit es1 st)) as [es2 Hes2].
    exists (es1 ++ es2). rewrite Hes2, emit_emit. reflexivity.
  - exists es1. reflexivity.
Qed.

Lemma trace_only_assert `{Host} c : trace_only (assert c).
Proof.
  unfold assert. destruct (NDEBUG || c);
    [ apply trace_only_ret | apply trace_only_crash ].
Qed.

Lemma trace_only_foreach {A} (body : A → yajl_gen → M yajl_gen) (l : list A) :
  Forall (fun a => ∀ gen, trace_only (body a gen)) l →
  ∀ gen, trace_only (foreach body l gen).
Proof.
  induction 1 as [ | a l Ha _ IH ]; intros gen; simpl.
  - apply trace_only_ret.
  - apply trace_only_bind; [ apply Ha | exact IH ].
Qed.

Lemma trace_only_registry_ok {A} (m : M A) st :
  trace_only m → registry_ok st → registry_ok (m st).2.
Proof. intros Hm Hok. destruct (Hm st) as [es ->]. exact Hok. Qed.

Lemma trace_only_copy_message message message_size :
  trace_only (copy_message message message_size).
Proof.
  unfold copy_message. cbv zeta.
  destruct (_ <? _)%N; [ apply trace_only_crash | apply trace_only_ret ].
Qed.

Ltac trace_only_step :=
  lazymatch goal with
  | |- trace_only (copy_message _ _) => apply trace_only_copy_message
  | |- trace_only (ret _) => apply trace_only_ret
  | |- trace_only (crash _) => apply trace_only_crash
  | |- trace_only (perform _) => apply trace_only_perform
  | |- trace_only (assert _) => apply trace_only_assert
  | |- trace_only (bind _ _) => apply trace_only_bind; [ | intros ? ]
  | |- trace_only (foreach _ _ _) =>
      apply trace_only_foreach; apply Forall_forall; intros ? _ ?
  | |- trace_only (match ?x with _ => _ end) => destruct x
  | |- trace_only (let _ := _ in _) => cbv zeta
  end.

Section Reactor.
Context `{Yajl} `{Host}.

Lemma trace_only_dump_node con :
  ∀ gen inplace_restart, trace_only (dump_node gen con inplace_restart).
Proof.
  induction con as [con IHnodes IHfloating] using Con_ind_nested.
  intros gen inplace_restart. rewrite dump_node_unfold. cbv zeta.
  apply trace_only_bind.
  { unfold dump_node_layout. repeat trace_only_step. }
  intros g1. apply trace_only_bind.
  { unfold dump_node_workspace_layout. repeat trace_only_step. }
  intros g2. apply trace_only_bind.
  { destruct (negb (type con =? CT_DOCKAREA)%Z || negb inplace_restart);
      [ | apply trace_only_ret ].
    apply trace_only_foreach. eapply Forall_impl; [ exact IHnodes | ].
    intros node Hnode g. apply Hnode. }
  intros g3. apply trace_only_bind; [ | intros; apply trace_only_ret ].
  apply trace_only_foreach. eapply Forall_impl; [ exact IHfloating | ].
  intros node Hnode g. apply Hnode.
Qed.

Lemma trace_only_handle_tree fd0 message size message_size message_type :
  trace_only (handle_tree fd0 message size message_size message_type).
Proof.
  unfold handle_tree. cbv zeta.
  apply trace_only_bind; [ apply trace_only_perform | intros _ ].
  apply trace_only_bind; [ apply trace_only_dump_node | intros gen ].
  repeat trace_only_step.
Qed.

Lemma trace_only_handle_get_workspaces fd0 message size message_size message_type :
  trace_only (handle_get_workspaces fd0 message size message_size message_type).
Proof. unfold handle_get_workspaces. repeat trace_only_step. Qed.

Lemma trace_only_handle_get_outputs fd0 message size message_size message_type :
  trace_only (handle_get_outputs fd0 message size message_size message_type).
Proof. unfold handle_get_outputs. repeat trace_only_step. Qed.

Lemma trace_only_handle_get_marks fd0 message size message_size message_type :
  trace_only (handle_get_marks fd0 message size message_size message_type).
Proof. unfold handle_get_marks. repeat trace_only_step. Qed.

Lemma trace_only_handle_get_version fd0 message size message_size message_type :
  trace_only (handle_get_version fd0 message size message_size message_type).
Proof. unfold handle_get_version. repeat trace_only_step. Qed.

Lemma trace_only_handle_get_bar_config fd0 message size message_size message_type :
  trace_only (handle_get_bar_config fd0 message size message_size message_type).
Proof. unfold handle_get_bar_config. repeat trace_only_step. Qed.

Lemma trace_only_ipc_send_event event message_type payload :
  trace_only (ipc_send_event event message_type payload).
Proof.
  intros st. unfold ipc_send_event. apply ipc_send_event_loop_emits.
Qed.

Lemma registry_ok_handle_subscribe fd0 message size message_size message_type st :
  registry_ok st →
  registry_ok (handle_subscribe fd0 message size message_size message_type st).2.
Proof.
  intros Hok.
  destruct (find_client fd0 (all_clients st)) as [[i c] | ] eqn:Hfind.
  - destruct (yajl_lex (substring 0 (N.to_nat message_size) message))
      as [evs syntax_error] eqn:Hlex.
    destruct (handle_subscribe_spec st fd0 message size message_size message_type
                i c evs syntax_error Hok Hfind Hlex)
      as (st1 & log_error & _ & Hmore & -> & _).
    apply Hmore.
  - unfold handle_subscribe, bind, get. rewrite Hfind. exact Hok.
Qed.

Lemma registry_ok_handle_command fd0 message size message_size message_type st :
  host_keeps_registry → registry_ok st →
  registry_ok (handle_command fd0 message size message_size message_type st).2.
Proof.
  intros [Hparse Hrender] Hok. unfold handle_command.
  destruct (copy_message_cases message message_size st) as [Hcopy | Hcopy];
    [ rewrite (bind_done _ _ _ _ _ Hcopy)
    | rewrite (bind_crash _ _ _ _ _ Hcopy); exact Hok ].
  unfold bind, perform. simpl.
  specialize (Hparse (strncpy0 message message_size)
                     (emit [log LOG "IPC: received: *%s*"] st) Hok).
  destruct (parse_command _ _) as [[command_output | f] st1]; simpl in Hparse;
    [ | exact Hparse ].
  destruct (needs_tree_render command_output).
  - specialize (Hrender st1 Hparse).
    destruct (tree_render st1) as [[[] | f] st2]; exact Hrender.
  - exact Hparse.
Qed.

Lemma registry_ok_ipc_receive_message
    w_fd ret_ errno message_type message_length message st :
  host_keeps_registry → registry_ok st →
  registry_ok (ipc_receive_message w_fd ret_ errno message_type message_length
                                   message st).2.
Proof.
  intros Hhost Hok. unfold ipc_receive_message.
  destruct (ret_ <? 0)%Z.
  - destruct ((ret_ =? -1)%Z && (errno =? EAGAIN)%Z); [ exact Hok | ].
    unfold bind at 1, perform at 1.
    set (st0 := emit [sys_close w_fd] st).
    assert (Hok0 : registry_ok st0) by exact Hok.
    unfold bind at 1.
    destruct (find_client w_fd (all_clients st0)) as [[i c] | ] eqn:Hfind.
    + destruct (delete_client_spec st0 w_fd i c Hok0 Hfind) as (h & -> & Hh).
      pose proof Hfind as (Hi & _ & _)%list_find_Some.
      destruct (registry_ok_delete st0 i c h Hok0 Hi Hh) as (Hok' & _).
      exact Hok'.
    + unfold delete_client, bind at 1, get. rewrite Hfind. exact Hok.
  - destruct (N.of_nat (length handlers) <=? message_type)%N; [ exact Hok | ].
    destruct (N.to_nat message_type) as [ | [ | [ | [ | [ | [ | [ | [ | n ]]]]]]]].
    + exact (registry_ok_handle_command _ _ _ _ _ _ Hhost Hok).
    + exact (trace_only_registry_ok _ st
               (trace_only_handle_get_workspaces _ _ _ _ _) Hok).
    + exact (registry_ok_handle_subscribe _ _ _ _ _ _ Hok).
    + exact (trace_only_registry_ok _ st
               (trace_only_handle_get_outputs _ _ _ _ _) Hok).
    + exact (trace_only_registry_ok _ st (trace_only_handle_tree _ _ _ _ _) Hok).
    + exact (trace_only_registry_ok _ st (trace_only_handle_get_marks _ _ _ _ _) Hok).
    + exact (trace_only_registry_ok _ st
               (trace_only_handle_get_bar_config _ _ _ _ _) Hok).
    + exact (trace_only_registry_ok _ st
               (trace_only_handle_get_version _ _ _ _ _) Hok).
    + exact Hok.
Qed.

Lemma registry_ok_ipc_new_client w_fd client errno setfl st :
  registry_ok st → ((0 ≤ client)%Z → client ∉ fd <$> all_clients st) →
  ∀ st', ipc_new_client w_fd client errno setfl st = (Done tt, st') →
         registry_ok st'.
Proof.
  intros Hok Hfresh st'. unfold ipc_new_client, set_nonblock.
  destruct (Z.ltb_spec client 0) as [Hneg | Hpos].
  - destruct (errno =? EINTR)%Z; intros [= <-]; exact Hok.
  - unfold bind, perform, ret, crash, modify. simpl.
    destruct (setfl <? 0)%Z; [ discriminate | ].
    intros [= <-]. unfold set_clients, emit. simpl.
    apply registry_ok_new_client; [ exact Hok | auto ].
Qed.

(** Starting with no clients, and as long as [accept] hands out
    descriptors that are not registered and the command executor leaves
    the registry well formed, the registry is well formed whenever the
    reactor is between two events. *)
Lemma reachable_registry_ok st :
  host_keeps_registry → reachable st → registry_ok st.
Proof.
  intros Hhost. induction 1 as [ | st e st' _ IH Hfresh Hreact ].
  - apply registry_ok_empty.
  - destruct e as [w_fd client errno setfl
                  | w_fd ret_ errno message_type message_length message
                  | event message_type payload | ]; simpl in Hreact, Hfresh.
    + eapply registry_ok_ipc_new_client; eassumption.
    + pose proof (registry_ok_ipc_receive_message w_fd ret_ errno message_type
                    message_length message st Hhost IH) as Hok.
      rewrite Hreact in Hok. exact Hok.
    + pose proof (trace_only_registry_ok _ st
                    (trace_only_ipc_send_event event message_type payload) IH) as Hok.
      rewrite Hreact in Hok. exact Hok.
    + destruct (ipc_shutdown_spec st) as (st1 & Hrun & Hnil & _).
      rewrite Hrun in Hreact. injection Hreact as <-.
      unfold registry_ok, event_ptrs. rewrite Hnil. simpl.
      split_and!; [ apply NoDup_nil_2 | apply NoDup_nil_2 | apply Forall_nil_2 ].
Qed.

End Reactor.

(** The sample host keeps the registry as it is. *)
Lemma sample_host_keeps_registry : host_keeps_registry.
Proof. split; intros; assumption. Qed.

(** * Further properties of the registry *)

Lemma event_ptrs_subscribe (l : list ipc_client) i c p :
  l !! i = Some c →
  event_ptrs (alter (subscribe_client p) i l) ≡ₚ p :: event_ptrs l.
Proof.
  intros Hi.
  destruct (alter_middle (subscribe_client p) _ _ _ Hi) as (l1 & l2 & Hl & _ & ->).
  rewrite Hl. unfold event_ptrs. rewrite !bind_app, !bind_cons. simpl.
  rewrite <- (app_assoc (events c)). simpl.
  rewrite !(app_assoc (l1 ≫= events) (events c)).
  symmetry. apply Permutation_middle.
Qed.

Lemma add_subscription_run st i c s :
  all_clients st !! i = Some c →
  ∃ es, add_subscription i s (N.of_nat (String.length s)) st
        = (Done 1%Z,
           emit es (set_clients (alter (subscribe_client (fresh (dom (heap st)))) i
                                       (all_clients st))
                      (set_heap (<[fresh (dom (heap st)) := s]> (heap st)) st))).
Proof.
  intros Hi. eexists.
  unfold add_subscription, bind, perform, get, scalloc_copy, modify, ret. simpl.
  rewrite Hi. simpl. rewrite Nat2N.id, substring_all.
  unfold emit, set_clients, set_heap. simpl. rewrite <- !app_assoc. reflexivity.
Qed.

Lemma add_subscription_tight st i c s :
  heap_tight st → all_clients st !! i = Some c →
  heap_tight (add_subscription i s (N.of_nat (String.length s)) st).2.
Proof.
  intros Htight Hi. destruct (add_subscription_run st i c s Hi) as [es ->].
  unfold heap_tight. simpl.
  apply map_Forall_insert_2.
  - rewrite (event_ptrs_subscribe _ _ _ _ Hi). apply list_elem_of_here.
  - eapply map_Forall_impl; [ exact Htight | ].
    intros p s0 Hp. simpl in Hp.
    rewrite (event_ptrs_subscribe _ _ _ _ Hi). apply list_elem_of_further, Hp.
Qed.

Lemma yajl_run_add_subscription_tight evs i c st :
  registry_ok st → heap_tight st → all_clients st !! i = Some c →
  heap_tight (yajl_run (add_subscription i) evs st).2.
Proof.
  revert c st. induction evs as [ | ev rest IH ]; intros c st Hok Htight Hi.
  { exact Htight. }
  destruct ev; try (apply (IH c st Hok Htight Hi)).
  destruct (add_subscription_spec st i c s Hok Hi) as (st1 & Hrun1 & Hmore1).
  pose proof (add_subscription_tight st i c s Htight Hi) as Htight1.
  rewrite Hrun1 in Htight1. simpl in Htight1.
  pose proof Hmore1 as (Hok1 & _ & _ & (c0 & c1 & _ & Hc1 & _) & _).
  cbn [yajl_run]. rewrite (bind_done _ _ _ _ _ Hrun1).
  exact (IH c1 st1 Hok1 Htight1 Hc1).
Qed.

Lemma trace_only_heap_tight {A} (m : M A) st :
  trace_only m → heap_tight st → heap_tight (m st).2.
Proof. intros Hm Htight. destruct (Hm st) as [es ->]. exact Htight. Qed.

Section HeapTight.
Context `{Yajl} `{Host}.

Lemma handle_subscribe_tight fd0 message size message_size message_type st :
  registry_ok st → heap_tight st →
  heap_tight (handle_subscribe fd0 message size message_size message_type st).2.
Proof.
  intros Hok Htight. unfold handle_subscribe, bind at 1, get.
  destruct (find_client fd0 (all_clients st)) as [[i c] | ] eqn:Hfind;
    [ | exact Htight ].
  pose proof Hfind as (Hi & _ & _)%list_find_Some.
  unfold yajl_parse.
  destruct (yajl_lex (substring 0 (N.to_nat message_size) message))
    as [evs syntax_error].
  pose proof (yajl_run_add_subscription_tight evs i c st Hok Htight Hi) as Hrun.
  unfold bind.
  destruct (yajl_run (add_subscription i) evs st) as [[stat | f] st1];
    simpl in Hrun; [ | exact Hrun ].
  destruct stat, syntax_error; exact Hrun.
Qed.

Lemma handle_command_tight fd0 message size message_size message_type st :
  host_keeps_registry → host_keeps_heap → registry_ok st → heap_tight st →
  heap_tight (handle_command fd0 message size message_size message_type st).2.
Proof.
  intros [Hrparse Hrrender] [Hparse Hrender] Hok Htight.
  unfold handle_command.
  destruct (copy_message_cases message message_size st) as [Hcopy | Hcopy];
    [ rewrite (bind_done _ _ _ _ _ Hcopy)
    | rewrite (bind_crash _ _ _ _ _ Hcopy); exact Htight ].
  unfold bind, perform. simpl.
  specialize (Hparse (strncpy0 message message_size)
                     (emit [log LOG "IPC: received: *%s*"] st) Hok Htight).
  specialize (Hrparse (strncpy0 message message_size)
                      (emit [log LOG "IPC: received: *%s*"] st) Hok).
  destruct (parse_command _ _) as [[command_output | f] st1];
    simpl in Hparse, Hrparse; [ | exact Hparse ].
  destruct (needs_tree_render command_output).
  - specialize (Hrender st1 Hrparse Hparse).
    destruct (tree_render st1) as [[[] | f] st2]; exact Hrender.
  - exact Hparse.
Qed.

Lemma delete_client_tight w_fd st :
  registry_ok st → heap_tight st → heap_tight (delete_client w_fd st).2.
Proof.
  intros Hok Htight.
  destruct (find_client w_fd (all_clients st)) as [[i c] | ] eqn:Hfind.
  - destruct (delete_client_spec st w_fd i c Hok Hfind) as (h & -> & Hh).
    pose proof Hfind as (Hi & _ & _)%list_find_Some.
    unfold heap_tight. simpl. intros p s Hp.
    rewrite Hh in Hp. destruct (decide (p ∈ events c)) as [ | Hnot ];
      [ discriminate | ].
    apply Htight in Hp. simpl in Hp. revert Hp.
    rewrite <- (take_drop_middle _ _ _ Hi) at 1.
    rewrite delete_take_drop. unfold event_ptrs.
    rewrite !bind_app, bind_cons, !elem_of_app. tauto.
  - unfold delete_client, bind at 1, get. rewrite Hfind. exact Htight.
Qed.

Lemma ipc_receive_message_tight
    w_fd ret_ errno message_type message_length message st :
  host_keeps_registry → host_keeps_heap → registry_ok st → heap_tight st →
  heap_tight (ipc_receive_message w_fd ret_ errno message_type message_length
                                  message st).2.
Proof.
  intros Hhost Hheap Hok Htight. unfold ipc_receive_message.
  destruct (ret_ <? 0)%Z.
  - destruct ((ret_ =? -1)%Z && (errno =? EAGAIN)%Z); [ exact Htight | ].
    unfold bind at 1, perform at 1.
    set (st0 := emit [sys_close w_fd] st).
    pose proof (delete_client_tight w_fd st0 Hok Htight) as Hdel.
    unfold bind at 1.
    destruct (delete_client w_fd st0) as [[[] | f] st1]; exact Hdel.
  - destruct (N.of_nat (length handlers) <=? message_type)%N; [ exact Htight | ].
    destruct (N.to_nat message_type) as [ | [ | [ | [ | [ | [ | [ | [ | n ]]]]]]]].
    + exact (handle_command_tight _ _ _ _ _ _ Hhost Hheap Hok Htight).
    + exact (trace_only_heap_tight _ st
               (trace_only_handle_get_workspaces _ _ _ _ _) Htight).
    + exact (handle_subscribe_tight _ _ _ _ _ _ Hok Htight).
    + exact (trace_only_heap_tight _ st
               (trace_only_handle_get_outputs _ _ _ _ _) Htight).
    + exact (trace_only_heap_tight _ st (trace_only_handle_tree _ _ _ _ _) Htight).
    + exact (trace_only_heap_tight _ st (trace_only_handle_get_marks _ _ _ _ _) Htight).
    + exact (trace_only_heap_tight _ st
               (trace_only_handle_get_bar_config _ _ _ _ _) Htight).
    + exact (trace_only_heap_tight _ st
               (trace_only_handle_get_version _ _ _ _ _) Htight).
    + exact Htight.
Qed.

Lemma ipc_new_client_tight w_fd client errno setfl st :
  heap_tight st → heap_tight (ipc_new_client w_fd client errno setfl st).2.
Proof.
  intros Htight. unfold ipc_new_client, set_nonblock.
  destruct (client <? 0)%Z.
  - destruct (errno =? EINTR)%Z; exact Htight.
  - unfold bind, perform, ret, crash, modify. simpl.
    destruct (setfl <? 0)%Z; [ exact Htight | ].
    unfold heap_tight, event_ptrs in *. simpl.
    rewrite bind_app. simpl. rewrite app_nil_r. exact Htight.
Qed.

(** X1: as long as the IPC is not shut down, no buffer of event names
    is ever left behind: after a connection, a readable descriptor or a
    published event, the registry is still well formed and every
    allocated buffer is still one that a registered client points to. *)
Theorem reactor_step_leaks_nothing e st st' :
  host_keeps_registry → host_keeps_heap →
  registry_ok st → heap_tight st →
  accept_is_fresh e st → e ≠ shut_down →
  react e st = (Done tt, st') →
  registry_ok st' ∧ heap_tight st'.
Proof.
  intros Hhost Hheap Hok Htight Hfresh Hrun Hreact.
  destruct e as [w_fd client errno setfl
                | w_fd ret_ errno message_type message_length message
                | event message_type payload | ]; simpl in Hreact, Hfresh.
  - split.
    + eapply registry_ok_ipc_new_client; eassumption.
    + pose proof (ipc_new_client_tight w_fd client errno setfl st Htight) as Ht.
      rewrite Hreact in Ht. exact Ht.
  - split.
    + pose proof (registry_ok_ipc_receive_message w_fd ret_ errno message_type
                    message_length message st Hhost Hok) as Ho.
      rewrite Hreact in Ho. exact Ho.
    + pose proof (ipc_receive_message_tight w_fd ret_ errno message_type
                    message_length message st Hhost Hheap Hok Htight) as Ht.
      rewrite Hreact in Ht. exact Ht.
  - pose proof (trace_only_ipc_send_event event message_type payload st) as [es Hes].
    rewrite Hreact in Hes. simpl in Hes. subst st'. split; assumption.
  - contradiction.
Qed.

End HeapTight.

Lemma sample_host_keeps_heap : host_keeps_heap.
Proof. split; intros; assumption. Qed.

Lemma reactor_step_leaks_nothing_witness :
  let e := readable 5 (-2) 0 0 0 "" in
  let st := Sample.four_clients in
  let st' := (react e st).2 in
  (registry_ok st ∧ heap_tight st ∧ react e st = (Done tt, st'))
  ∧ registry_ok st' ∧ heap_tight st'.
Proof.
  intros e st st'.
  assert (Hok : registry_ok st) by (apply (bool_decide_unpack _); vm_compute; exact I).
  assert (Htight : heap_tight st) by (apply (bool_decide_unpack _); vm_compute; exact I).
  assert (Hrun : react e st = (Done tt, st')) by (vm_compute; reflexivity).
  split; [ split_and!; assumption | ].
  apply (reactor_step_leaks_nothing e st st' sample_host_keeps_registry
           sample_host_keeps_heap Hok Htight I); [ discriminate | exact Hrun ].
Defined.

(** * Faults on buffers *)

Lemma never_ret f {A} (a : A) : never f (ret a).
Proof. intros st. discriminate. Qed.

Lemma never_perform f es : never f (perform es).
Proof. intros st. discriminate. Qed.

Lemma never_crash f f' {A} : f' ≠ f → never f (@crash A f').
Proof. intros Hne st [= ->]. contradiction. Qed.

Lemma never_bind f {A B} (m : M A) (k : A → M B) :
  never f m → (∀ a, never f (k a)) → never f (bind m k).
Proof.
  intros Hm Hk st. unfold bind. specialize (Hm st).
  destruct (m st) as [[a | f'] st1]; simpl in *; [ apply Hk | ].
  intros [= ->]. apply Hm. reflexivity.
Qed.

Lemma never_assert `{Host} f c : f ≠ AssertionFailed → never f (assert c).
Proof.
  intros Hne. unfold assert.
  destruct (NDEBUG || c); [ apply never_ret | apply never_crash; congruence ].
Qed.

Lemma never_foreach f {A} (body : A → yajl_gen → M yajl_gen) (l : list A) :
  Forall (fun a => ∀ gen, never f (body a gen)) l →
  ∀ gen, never f (foreach body l gen).
Proof.
  induction 1 as [ | a l Ha _ IH ]; intros gen; simpl.
  - apply never_ret.
  - apply never_bind; [ apply Ha | exact IH ].
Qed.

Lemma never_invalid_copy_message message message_size :
  never InvalidPointer (copy_message message message_size).
Proof.
  intros st.
  destruct (copy_message_cases message message_size st) as [-> | ->]; discriminate.
Qed.

Ltac never_step :=
  lazymatch goal with
  | |- never _ (ret _) => apply never_ret
  | |- never _ (perform _) => apply never_perform
  | |- never _ (assert _) => apply never_assert; assumption
  | |- never _ (bind _ _) => apply never_bind; [ | intros ? ]
  | |- never _ (foreach _ _ _) =>
      apply never_foreach; apply Forall_forall; intros ? _ ?
  | |- never _ (match ?x with _ => _ end) => destruct x
  | |- never _ (let _ := _ in _) => cbv zeta
  end.

Section BufferFaults.
Context `{Yajl} `{Host}.

Lemma never_dump_node f con :
  f ≠ AssertionFailed →
  ∀ gen inplace_restart, never f (dump_node gen con inplace_restart).
Proof.
  intros Hne.
  induction con as [con IHnodes IHfloating] using Con_ind_nested.
  intros gen inplace_restart. rewrite dump_node_unfold. cbv zeta.
  apply never_bind.
  { unfold dump_node_layout. repeat never_step. }
  intros g1. apply never_bind.
  { unfold dump_node_workspace_layout. repeat never_step. }
  intros g2. apply never_bind.
  { destruct (negb (type con =? CT_DOCKAREA)%Z || negb inplace_restart);
      [ | apply never_ret ].
    apply never_foreach. eapply Forall_impl; [ exact IHnodes | ].
    intros node Hnode g. apply Hnode. }
  intros g3. apply never_bind; [ | intros; apply never_ret ].
  apply never_foreach. eapply Forall_impl; [ exact IHfloating | ].
  intros node Hnode g. apply Hnode.
Qed.

Lemma never_handle_tree f fd0 message size message_size message_type :
  f ≠ AssertionFailed →
  never f (handle_tree fd0 message size message_size message_type).
Proof.
  intros Hne. unfold handle_tree. cbv zeta.
  apply never_bind; [ apply never_perform | intros _ ].
  apply never_bind; [ apply never_dump_node; exact Hne | intros gen ].
  repeat never_step.
Qed.

Lemma never_handle_get_workspaces f fd0 message size message_size message_type :
  f ≠ AssertionFailed →
  never f (handle_get_workspaces fd0 message size message_size message_type).
Proof. intros Hne. unfold handle_get_workspaces. repeat never_step. Qed.

Lemma never_handle_get_outputs f fd0 message size message_size message_type :
  never f (handle_get_outputs fd0 message size message_size message_type).
Proof. unfold handle_get_outputs. repeat never_step. Qed.

Lemma never_handle_get_marks f fd0 message size message_size message_type :
  never f (handle_get_marks fd0 message size message_size message_type).
Proof. unfold handle_get_marks. repeat never_step. Qed.

Lemma never_handle_get_version f fd0 message size message_size message_type :
  never f (handle_get_version fd0 message size message_size message_type).
Proof. unfold handle_get_version. repeat never_step. Qed.

(** After the copy, [handle_command] stops only where the parser or the
    renderer stops. *)
Lemma handle_command_after_copy f fd0 message size message_size message_type st :
  host_never f →
  copy_message message message_size st = (Done (strncpy0 message message_size), st) →
  (handle_command fd0 message size message_size message_type st).1 ≠ Crash f.
Proof.
  intros [Hparse Hrender] Hcopy. unfold handle_command.
  rewrite (bind_done _ _ _ _ _ Hcopy).
  apply never_bind; [ apply never_perform | intros _ ].
  apply never_bind; [ apply Hparse | intros command_output ].
  apply never_bind; [ | intros _; apply never_perform ].
  destruct (needs_tree_render command_output); [ exact Hrender | apply never_ret ].
Qed.

Lemma handle_get_bar_config_after_copy f fd0 message size message_size message_type st :
  copy_message message message_size st = (Done (strncpy0 message message_size), st) →
  (handle_get_bar_config fd0 message size message_size message_type st).1 ≠ Crash f.
Proof.
  intros Hcopy. unfold handle_get_bar_config. cbv zeta.
  destruct (message_size =? 0)%N; [ discriminate | ].
  rewrite (bind_done _ _ _ _ _ Hcopy). discriminate.
Qed.

Lemma handle_subscribe_done fd0 message size message_size message_type st :
  registry_ok st →
  (handle_subscribe fd0 message size message_size message_type st).1 = Done tt.
Proof.
  intros Hok.
  destruct (find_client fd0 (all_clients st)) as [[i c] | ] eqn:Hfind.
  - destruct (yajl_lex (substring 0 (N.to_nat message_size) message))
      as [evs syntax_error] eqn:Hlex.
    destruct (handle_subscribe_spec st fd0 message size message_size message_type
                i c evs syntax_error Hok Hfind Hlex)
      as (st1 & log_error & _ & _ & -> & _).
    reflexivity.
  - unfold handle_subscribe, bind, get. rewrite Hfind. reflexivity.
Qed.

Lemma delete_client_done w_fd st :
  registry_ok st → (delete_client w_fd st).1 = Done tt.
Proof.
  intros Hok.
  destruct (find_client w_fd (all_clients st)) as [[i c] | ] eqn:Hfind.
  - destruct (delete_client_spec st w_fd i c Hok Hfind) as (h & -> & _).
    reflexivity.
  - unfold delete_client, bind at 1, get. rewrite Hfind. reflexivity.
Qed.

(** A message or an error on a descriptor: the run stops with a fault on
    a buffer only where the message is copied, and there only by
    overrunning the copy. *)
Lemma ipc_receive_message_faults
    w_fd ret_ errno message_type message_length message st :
  host_never InvalidPointer → host_never BufferOverflow → registry_ok st →
  (message_length ≤ UINT32_MAX)%N →
  let run := ipc_receive_message w_fd ret_ errno message_type message_length
                                 message st in
  run.1 ≠ Crash InvalidPointer
  ∧ (run.1 = Crash BufferOverflow
     ↔ overruns (readable w_fd ret_ errno message_type message_length message)).
Proof.
  intros Hinvalid Hoverflow Hok Hfits run. subst run.
  assert (Hnot : ∀ o : outcome unit,
            o ≠ Crash InvalidPointer → o ≠ Crash BufferOverflow →
            ¬ overruns (readable w_fd ret_ errno message_type message_length message) →
            o ≠ Crash InvalidPointer
            ∧ (o = Crash BufferOverflow
               ↔ overruns (readable w_fd ret_ errno message_type message_length
                                    message))).
  { intros o Ho1 Ho2 Hno. split; [ exact Ho1 | ]. split; [ | ]; intros; contradiction. }
  assert (Hdiff : AssertionFailed ≠ InvalidPointer ∧ AssertionFailed ≠ BufferOverflow)
    by (split; discriminate).
  unfold ipc_receive_message.
  destruct (Z.ltb_spec ret_ 0) as [Hneg | Hpos].
  { assert (Hno : ¬ overruns (readable w_fd ret_ errno message_type message_length
                                      message)) by (simpl; lia).
    destruct ((ret_ =? -1)%Z && (errno =? EAGAIN)%Z);
      [ apply Hnot; [ discriminate | discriminate | exact Hno ] | ].
    pose proof (delete_client_done w_fd (emit [sys_close w_fd] st) Hok) as Hdel.
    apply Hnot; [ | | exact Hno ];
      unfold bind, perform; cbv beta iota;
      destruct (delete_client w_fd (emit [sys_close w_fd] st)) as [[[] | f] st1];
      simpl in Hdel; discriminate. }
  destruct (N.leb_spec (N.of_nat (length handlers)) message_type) as [Hlarge | Hsmall].
  { apply Hnot; [ discriminate | discriminate | ].
    simpl in Hlarge |- *. lia. }
  assert (Hcopy : message_length ≠ UINT32_MAX →
            copy_message message message_length st
            = (Done (strncpy0 message message_length), st)).
  { intros Hne. apply copy_message_ok. lia. }
  destruct (N.to_nat message_type) as [ | [ | [ | [ | [ | [ | [ | [ | n ]]]]]]]]
    eqn:Hty; cbn [lookup list_lookup handlers].
  - assert (message_type = 0%N) as -> by lia.
    destruct (N.eq_dec message_length UINT32_MAX) as [-> | Hne].
    + split; [ discriminate | ].
      split; [ intros _; simpl; split_and!; [ lia | left | ]; reflexivity
             | intros _; reflexivity ].
    + apply Hnot; [ | | simpl; tauto ].
      * apply handle_command_after_copy; [ exact Hinvalid | exact (Hcopy Hne) ].
      * apply handle_command_after_copy; [ exact Hoverflow | exact (Hcopy Hne) ].
  - apply Hnot; [ | | simpl; lia ];
      apply never_handle_get_workspaces; apply not_eq_sym, Hdiff.
  - apply Hnot; [ | | simpl; lia ];
      rewrite (handle_subscribe_done _ _ _ _ _ _ Hok); discriminate.
  - apply Hnot; [ | | simpl; lia ]; apply never_handle_get_outputs.
  - apply Hnot; [ | | simpl; lia ];
      apply never_handle_tree; apply not_eq_sym, Hdiff.
  - apply Hnot; [ | | simpl; lia ]; apply never_handle_get_marks.
  - assert (message_type = 6%N) as -> by lia.
    destruct (N.eq_dec message_length UINT32_MAX) as [-> | Hne].
    + split; [ discriminate | ].
      split; [ intros _; simpl; split_and!; [ lia | right | ]; reflexivity
             | intros _; reflexivity ].
    + apply Hnot; [ | | simpl; tauto ];
        apply handle_get_bar_config_after_copy; exact (Hcopy Hne).
  - apply Hnot; [ | | simpl; lia ]; apply never_handle_get_version.
  - simpl in Hsmall. lia.
Qed.

Lemma ipc_new_client_faults w_fd client errno setfl st :
  (ipc_new_client w_fd client errno setfl st).1 ≠ Crash InvalidPointer
  ∧ (ipc_new_client w_fd client errno setfl st).1 ≠ Crash BufferOverflow.
Proof.
  unfold ipc_new_client, set_nonblock.
  destruct (client <? 0)%Z.
  - destruct (errno =? EINTR)%Z; split; discriminate.
  - unfold bind, perform, ret, crash, modify. simpl.
    destruct (setfl <? 0)%Z; split; discriminate.
Qed.

(** X2: faults on buffers, in every state the event loop can reach from
    start-up. It is assumed that [accept] returns descriptors that are not
    registered, that the length of a message fits the [uint32_t] of its
    header, and that the command parser and the renderer keep the
    registry well formed and do not themselves stop with a fault on a
    buffer. Then the registry is well formed; whatever happens next
    (a connection, a message or an error on any descriptor, a published
    event, the shutdown), no event-name buffer that is freed or was never
    allocated is read or freed; the step writes past the buffer into
    which a handler copies its message exactly if it is a COMMAND or
    GET_BAR_CONFIG message of length 4294967295 that was received without
    error, where the size of the copy wraps to 0; and publishing an event
    always runs to its end. *)
Theorem reachable_buffer_faults st e :
  host_keeps_registry → host_never InvalidPointer → host_never BufferOverflow →
  reachable st → fits_header e →
  registry_ok st
  ∧ (react e st).1 ≠ Crash InvalidPointer
  ∧ ((react e st).1 = Crash BufferOverflow ↔ overruns e)
  ∧ ∀ event message_type payload,
      (ipc_send_event event message_type payload st).1 = Done tt.
Proof.
  intros Hkeeps Hinvalid Hoverflow Hreach Hfits.
  pose proof (reachable_registry_ok st Hkeeps Hreach) as Hok.
  split; [ exact Hok | ].
  cut (((react e st).1 ≠ Crash InvalidPointer
        ∧ ((react e st).1 = Crash BufferOverflow ↔ overruns e))
       ∧ ∀ event message_type payload,
           (ipc_send_event event message_type payload st).1 = Done tt);
    [ tauto | ].
  split.
  - destruct e as [w_fd client errno setfl
                  | w_fd ret_ errno message_type message_length message
                  | event message_type payload | ]; simpl.
    + destruct (ipc_new_client_faults w_fd client errno setfl st) as [Hi Ho].
      split; [ exact Hi | ]. split; [ intros Hc; contradiction | intros [] ].
    + apply ipc_receive_message_faults; assumption.
    + rewrite (ipc_send_event_spec _ _ _ _ Hok).
      split; [ discriminate | ]. split; [ discriminate | intros [] ].
    + destruct (ipc_shutdown_spec st) as (st1 & -> & _).
      split; [ discriminate | ]. split; [ discriminate | intros [] ].
  - intros event message_type payload.
    rewrite (ipc_send_event_spec _ _ _ _ Hok). reflexivity.
Qed.

End BufferFaults.

Lemma sample_host_never f : host_never f.
Proof. split; [ intros command st | intros st ]; discriminate. Qed.

Lemma reachable_buffer_faults_witness :
  let sub := "[" +:+ Sample.quoted "workspace" +:+ "]" in
  let st0 := {| all_clients := []; heap := ∅; trace := [] |} in
  let st1 := (react (connection 3 5 0 0) st0).2 in
  let st2 := (react (readable 5 0 0 2 (N.of_nat (String.length sub)) sub) st1).2 in
  let e := readable 5 0 0 0 UINT32_MAX "nop" in
  (reachable st2 ∧ fits_header e)
  ∧ registry_ok st2
  ∧ (react e st2).1 ≠ Crash InvalidPointer
  ∧ ((react e st2).1 = Crash BufferOverflow ↔ overruns e)
  ∧ ∀ event message_type payload,
      (ipc_send_event event message_type payload st2).1 = Done tt.
Proof.
  intros sub st0 st1 st2 e.
  assert (Hreach : reachable st2).
  { apply (reachable_step st1 (readable 5 0 0 2 (N.of_nat (String.length sub)) sub));
      [ | exact I | vm_compute; reflexivity ].
    apply (reachable_step st0 (connection 3 5 0 0));
      [ apply reachable_start | | vm_compute; reflexivity ].
    intros _. apply (bool_decide_unpack _). vm_compute. exact I. }
  assert (Hfits : fits_header e) by (simpl; reflexivity).
  split; [ split; assumption | ].
  exact (reachable_buffer_faults st2 e sample_host_keeps_registry
           (sample_host_never InvalidPointer) (sample_host_never BufferOverflow)
           Hreach Hfits).
Defined.

(** * Shutdown, failed connections and unknown descriptors *)

Lemma ipc_send_event_no_clients event message_type payload st :
  all_clients st = [] → ipc_send_event event message_type payload st = (Done tt, st).
Proof. intros Hnil. unfold ipc_send_event. rewrite Hnil. reflexivity. Qed.

Lemma set_clients_same st : set_clients (all_clients st) st = st.
Proof. destruct st. reflexivity. Qed.

(** X3: [ipc_shutdown] on any registry. Every client is shut down and
    then closed, from the head of the queue to its tail; nothing is sent;
    the queue is empty afterwards, so that a second shutdown and every
    later event do nothing at all. No buffer of event names is freed:
    the heap is what it was, and none of it is referenced any more. *)
Theorem ipc_shutdown_drains st :
  ∃ st',
    ipc_shutdown st = (Done tt, st')
    ∧ all_clients st' = []
    ∧ trace st' = trace st
        ++ (all_clients st ≫= fun c => [sys_shutdown (fd c); sys_close (fd c)])
    ∧ messages (trace st') = messages (trace st)
    ∧ heap st' = heap st
    ∧ registry_ok st'
    ∧ (heap_tight st' ↔ heap st = ∅)
    ∧ ipc_shutdown st' = (Done tt, st')
    ∧ ∀ event message_type payload,
        ipc_send_event event message_type payload st' = (Done tt, st').
Proof.
  destruct (ipc_shutdown_spec st) as (st' & Hrun & Hnil & Htrace & Hmsgs & Hheap).
  exists st'. split_and!; try assumption.
  - unfold registry_ok, event_ptrs. rewrite Hnil. simpl.
    split_and!; [ apply NoDup_nil_2 | apply NoDup_nil_2 | apply Forall_nil_2 ].
  - unfold heap_tight, event_ptrs. rewrite Hnil, Hheap. simpl. split.
    + intros Hnone. apply map_empty. intros p.
      destruct (heap st !! p) as [s | ] eqn:Hp; [ | reflexivity ].
      specialize (Hnone p s Hp). simpl in Hnone. inversion Hnone.
    + intros ->. apply map_Forall_empty.
  - unfold ipc_shutdown. rewrite Hnil. reflexivity.
  - intros event message_type payload.
    apply ipc_send_event_no_clients. exact Hnil.
Qed.

(** X4: the outcomes of [ipc_new_client]. A client is registered
    exactly when [accept] and [fcntl(F_SETFL)] both succeed; it is then the
    last of the queue and has no subscription. A failed [accept] leaves the
    registry as it is and is logged unless it was interrupted; a failed
    [fcntl] stops the process before the descriptor is watched. In no
    case is a message sent or a buffer touched. *)
Theorem ipc_new_client_outcomes `{Host} st w_fd client errno setfl :
  let run := ipc_new_client w_fd client errno setfl st in
  heap run.2 = heap st
  ∧ messages (trace run.2) = messages (trace st)
  ∧ ((client < 0)%Z →
       run = (Done tt, emit (if (errno =? EINTR)%Z then []
                             else [log PERROR "accept()"]) st))
  ∧ ((0 ≤ client)%Z → (setfl < 0)%Z →
       run.1 = Crash ProcessExit
       ∧ all_clients run.2 = all_clients st
       ∧ ev_io_start client ∉ drop (length (trace st)) (trace run.2))
  ∧ ((0 ≤ client)%Z → (0 ≤ setfl)%Z →
       run.1 = Done tt
       ∧ all_clients run.2 = all_clients st ++ [{| fd := client; events := [] |}]
       ∧ ev_io_start client ∈ drop (length (trace st)) (trace run.2))
  ∧ (length (all_clients run.2) = S (length (all_clients st))
     ↔ (0 ≤ client)%Z ∧ (0 ≤ setfl)%Z).
Proof.
  intros run. subst run. unfold ipc_new_client, set_nonblock.
  destruct (Z.ltb_spec client 0) as [Hneg | Hpos].
  - destruct (errno =? EINTR)%Z.
    + split_and!; try reflexivity; try (intros; lia).
      * intros _. unfold ret. rewrite emit_nil. reflexivity.
      * split; [ simpl; lia | lia ].
    + split_and!; try reflexivity; try (intros; lia).
      * unfold perform. simpl. rewrite messages_app. simpl.
        rewrite app_nil_r. reflexivity.
      * split; [ simpl; lia | lia ].
  - unfold bind, perform, ret, crash, modify. simpl.
    destruct (Z.ltb_spec setfl 0) as [Hfail | Hset]; simpl.
    + split_and!; try reflexivity; try (intros; lia).
      * rewrite !messages_app. simpl. rewrite !app_nil_r. reflexivity.
      * intros _ _. split_and!; try reflexivity.
        rewrite <- !app_assoc, drop_app_length. simpl.
        intros Hin. repeat (apply elem_of_cons in Hin as [Hin | Hin];
                            [ discriminate | ]).
        inversion Hin.
    + split_and!; try reflexivity; try (intros; lia).
      * rewrite !messages_app. simpl. rewrite !app_nil_r. reflexivity.
      * intros _ _. split_and!; try reflexivity.
        rewrite <- !app_assoc, drop_app_length. simpl.
        do 3 apply list_elem_of_further. apply list_elem_of_here.
      * rewrite length_app. simpl. split; [ lia | lia ].
Qed.

Lemma delete_client_unknown w_fd st :
  find_client w_fd (all_clients st) = None → delete_client w_fd st = (Done tt, st).
Proof. intros Hfind. unfold delete_client, bind, get. rewrite Hfind. reflexivity. Qed.

Section UnknownDescriptor.
Context `{Yajl} `{Host}.

(** X5: a descriptor that no registered client holds. A read error
    on it closes the descriptor and stops its watcher, and the registry and
    the subscriptions of all clients stay as they are; a SUBSCRIBE request
    on it is logged as an error and gets no reply at all. *)
Theorem unknown_descriptor st w_fd ret_ errno message_type message_length message :
  (w_fd ∉ fd <$> all_clients st) →
  ((ret_ < 0)%Z → ¬ (ret_ = -1 ∧ errno = EAGAIN)%Z →
     ipc_receive_message w_fd ret_ errno message_type message_length message st
     = (Done tt, emit [sys_close w_fd; ev_io_stop w_fd;
                       log DLOG "IPC: client disconnected"] st))
  ∧ ((0 ≤ ret_)%Z → message_type = 2%N →
       ipc_receive_message w_fd ret_ errno message_type message_length message st
       = (Done tt,
          emit [log ELOG "Could not find ipc_client data structure for fd %d"] st)
       ∧ messages_to w_fd (trace (ipc_receive_message w_fd ret_ errno message_type
                                    message_length message st).2)
         = messages_to w_fd (trace st)).
Proof.
  intros Hunknown.
  assert (Hfind : find_client w_fd (all_clients st) = None).
  { apply list_find_None, Forall_forall. intros c Hc <-.
    apply Hunknown, list_elem_of_fmap_2, Hc. }
  split.
  - intros Hneg Hspurious. unfold ipc_receive_message.
    rewrite (proj2 (Z.ltb_lt _ _) Hneg).
    assert (Hor : ((ret_ =? -1)%Z && (errno =? EAGAIN)%Z) = false).
    { destruct (Z.eqb_spec ret_ (-1)) as [Hret | Hret];
        destruct (Z.eqb_spec errno EAGAIN) as [Herrno | Herrno]; try reflexivity.
      exfalso. apply Hspurious. split; assumption. }
    rewrite Hor.
    rewrite (bind_done _ _ st tt (emit [sys_close w_fd] st) eq_refl). cbv beta.
    rewrite (bind_done _ _ _ tt _
               (delete_client_unknown w_fd (emit [sys_close w_fd] st) Hfind)).
    unfold bind, perform, emit. simpl. rewrite <- !app_assoc. reflexivity.
  - intros Hpos ->. unfold ipc_receive_message.
    rewrite (proj2 (Z.ltb_ge _ _) Hpos). simpl.
    unfold handle_subscribe, bind, get. rewrite Hfind. split; [ reflexivity | ].
    unfold perform, emit. simpl. rewrite messages_to_app. simpl.
    rewrite app_nil_r. reflexivity.
Qed.

End UnknownDescriptor.

Lemma unknown_descriptor_witness :
  let st := Sample.four_clients in
  (42%Z ∉ fd <$> all_clients st)
  ∧ ipc_receive_message 42 (-1) 0 0 0 "" st
    = (Done tt, emit [sys_close 42; ev_io_stop 42;
                      log DLOG "IPC: client disconnected"] st)
  ∧ ipc_receive_message 42 0 0 2 2 "[]" st
    = (Done tt,
       emit [log ELOG "Could not find ipc_client data structure for fd %d"] st).
Proof.
  intros st.
  assert (Hunknown : 42%Z ∉ fd <$> all_clients st).
  { apply (bool_decide_unpack _). vm_compute. exact I. }
  destruct (unknown_descriptor st 42 (-1) 0 2 2 "[]" Hunknown) as [Herror _].
  destruct (unknown_descriptor st 42 0 0 2 2 "[]" Hunknown) as [_ Hsub].
  split_and!.
  - exact Hunknown.
  - vm_compute. reflexivity.
  - apply Hsub; [ lia | reflexivity ].
Defined.

(** * The documents the replies denote *)

Lemma json_read_y g c r0 r r' :
  json_read g r0 = Some r → json_call c r = Some r' →
  json_read (y g c) r0 = Some r'.
Proof.
  intros Hg Hc. unfold y. rewrite json_read_app, Hg. simpl. rewrite Hc. reflexivity.
Qed.

Lemma json_read_ystr g s r0 r r' :
  json_read g r0 = Some r → json_value (JString (cstr s)) r = Some r' →
  json_read (ystr g s) r0 = Some r'.
Proof. intros Hg Hs. unfold ystr. eapply json_read_y; [ exact Hg | exact Hs ]. Qed.

Lemma json_read_nil r : json_read [] r = Some r.
Proof. reflexivity. Qed.

(** A loop that writes items into the open array. *)
Lemma json_read_fold_left {A} (f : yajl_gen → A → yajl_gen) (items : A → list json)
    (l : list A) :
  (∀ a g r0 its stack top,
     json_read g r0 = Some (in_array its :: stack, top) →
     json_read (f g a) r0 = Some (in_array (rev (items a) ++ its) :: stack, top)) →
  ∀ g r0 its stack top,
    json_read g r0 = Some (in_array its :: stack, top) →
    json_read (fold_left f l g) r0
    = Some (in_array (rev (l ≫= items) ++ its) :: stack, top).
Proof.
  intros Hf. induction l as [ | a l IH ]; intros g r0 its stack top Hg; simpl.
  - exact Hg.
  - rewrite (IH _ _ _ _ _ (Hf a _ _ _ _ _ Hg)).
    rewrite rev_app_distr, <- app_assoc. reflexivity.
Qed.

Lemma json_of_array g items :
  json_read g ([], None) = Some ([in_array (rev items ++ [])], None) →
  json_of (y g yajl_gen_array_close) = Some (JArray items).
Proof.
  intros Hg. unfold json_of.
  rewrite (json_read_y _ _ _ _ ([], Some (JArray items)) Hg); [ reflexivity | ].
  simpl. rewrite app_nil_r, rev_involutive. reflexivity.
Qed.

Lemma bind_fmap_singleton {A B} (f : A → B) (l : list A) :
  (l ≫= fun a => [f a]) = f <$> l.
Proof. induction l as [ | a l IH ]; [ reflexivity | ]. csimpl. rewrite IH. reflexivity. Qed.

(** Reads the calls a straight run of [y] and [ystr] makes, innermost
    first. *)
Ltac json_read_step :=
  lazymatch goal with
  | |- json_read (y _ _) _ = Some _ =>
      eapply json_read_y; [ json_read_step | cbn; reflexivity ]
  | |- json_read (ystr _ _) _ = Some _ =>
      eapply json_read_ystr; [ json_read_step | cbn; reflexivity ]
  | |- json_read [] _ = Some _ => apply json_read_nil
  | |- json_read ygenalloc _ = Some _ => apply json_read_nil
  | H : json_read ?g ?r0 = Some _ |- json_read ?g ?r0 = Some _ => exact H
  end.

Section Replies.
Context `{Yajl} `{Host}.

(** X6: the reply to GET_MARKS always is a JSON array of strings:
    the marks of the containers that have one, in the order of
    [all_cons], each read as a C string. *)
Theorem handle_get_marks_reply fd0 message size message_size message_type st :
  ∃ gen,
    handle_get_marks fd0 message size message_size message_type st
    = (Done tt,
       emit [ipc_send_message fd0 (N.of_nat (String.length (yajl_gen_get_buf gen)))
                              I3_IPC_REPLY_TYPE_MARKS (yajl_gen_get_buf gen)] st)
    ∧ json_of gen = Some marks_json.
Proof.
  eexists. split; [ reflexivity | ]. unfold marks_json.
  apply json_of_array.
  rewrite <- bind_fmap_singleton.
  replace (omap mark all_cons ≫= fun m => [JString (cstr m)])
    with (all_cons ≫= fun con => match mark con with
                                  | Some m => [JString (cstr m)]
                                  | None => []
                                  end).
  - apply json_read_fold_left; [ | json_read_step ].
    intros con g r0 its stack top Hg. destruct (mark con) as [m | ].
    + json_read_step.
    + exact Hg.
  - induction all_cons as [ | con l IH ]; [ reflexivity | ].
    csimpl. rewrite IH. destruct (mark con); reflexivity.
Qed.

(** The reply to GET_VERSION is a JSON object with the three numbers of
    the version and its text, in this order. *)
Lemma handle_get_version_reply fd0 message size message_size message_type st :
  ∃ gen,
    handle_get_version fd0 message size message_size message_type st
    = (Done tt,
       emit [ipc_send_message fd0 (N.of_nat (String.length (yajl_gen_get_buf gen)))
                              I3_IPC_REPLY_TYPE_VERSION (yajl_gen_get_buf gen)] st)
    ∧ json_of gen = Some version_json.
Proof. eexists. split; reflexivity. Qed.

(** X7: the reply to GET_OUTPUTS always is a JSON array with one
    object for each output, in the order of [outputs]; the current
    workspace of an output without container or without fullscreen
    container is null. *)
Theorem handle_get_outputs_reply fd0 message size message_size message_type st :
  ∃ gen,
    handle_get_outputs fd0 message size message_size message_type st
    = (Done tt,
       emit [ipc_send_message fd0 (N.of_nat (String.length (yajl_gen_get_buf gen)))
                              I3_IPC_REPLY_TYPE_OUTPUTS (yajl_gen_get_buf gen)] st)
    ∧ json_of gen = Some outputs_json.
Proof.
  eexists. split; [ reflexivity | ]. unfold outputs_json.
  apply json_of_array. rewrite <- bind_fmap_singleton.
  apply json_read_fold_left; [ | json_read_step ].
  intros output g r0 its stack top Hg. cbv zeta. unfold output_json.
  destruct (Output.con output) as [c | ]; csimpl;
    [ destruct (con_get_fullscreen_con c) as [ws | ] | ]; json_read_step.
Qed.

Lemma foreach_writes_items {A} (body : A → yajl_gen → M yajl_gen)
    (items : A → list json) (l : list A) st :
  (∀ a, a ∈ l → ∀ g, ∃ g', body a g st = (Done g', st)
                           ∧ writes_items g g' (items a)) →
  ∀ g, ∃ g', foreach body l g st = (Done g', st)
             ∧ writes_items g g' (l ≫= items).
Proof.
  induction l as [ | a l IH ]; intros Hbody g.
  - exists g. split; [ reflexivity | ]. intros r0 its stack top Hg. exact Hg.
  - destruct (Hbody a (list_elem_of_here _ _) g) as (g1 & Hrun1 & Hg1).
    destruct (IH (fun b Hb => Hbody b (list_elem_of_further _ _ _ Hb)) g1)
      as (g2 & Hrun2 & Hg2).
    exists g2. split.
    + simpl. rewrite (bind_done _ _ _ _ _ Hrun1). exact Hrun2.
    + intros r0 its stack top Hg. csimpl.
      rewrite rev_app_distr, <- app_assoc.
      apply Hg2, Hg1, Hg.
Qed.

Lemma foreach_crashes {A} (body : A → yajl_gen → M yajl_gen) (bad : A → bool)
    (l : list A) f st :
  (∀ a g, a ∈ l →
     if bad a then body a g st = (Crash f, st)
     else ∃ g', body a g st = (Done g', st)) →
  forallb (fun a => negb (bad a)) l = false →
  ∀ g, foreach body l g st = (Crash f, st).
Proof.
  induction l as [ | a l IH ]; intros Hbody Hbad g; [ discriminate | ].
  simpl in *. pose proof (Hbody a g (list_elem_of_here _ _)) as Ha.
  unfold bind. destruct (bad a).
  - rewrite Ha. reflexivity.
  - destruct Ha as [g' ->]. simpl in Hbad.
    apply IH; [ | exact Hbad ].
    intros b g0 Hb. apply Hbody, list_elem_of_further, Hb.
Qed.

Lemma fmap_bind_list {A B C} (g : B → C) (f : A → list B) (l : list A) :
  g <$> (l ≫= f) = l ≫= fun a => g <$> f a.
Proof.
  induction l as [ | a l IH ]; [ reflexivity | ].
  csimpl. rewrite fmap_app, IH. reflexivity.
Qed.

Lemma forallb_negb_negb {A} (p : A → bool) (l : list A) :
  forallb (fun a => negb (negb (p a))) l = forallb p l.
Proof.
  induction l as [ | a l IH ]; [ reflexivity | ].
  simpl. rewrite IH, negb_involutive. reflexivity.
Qed.

Lemma forallb_bind {A B} (p : B → bool) (f : A → list B) (l : list A) :
  forallb p (l ≫= f) = forallb (fun a => forallb p (f a)) l.
Proof.
  induction l as [ | a l IH ]; [ reflexivity | ].
  csimpl. rewrite forallb_app, IH. reflexivity.
Qed.

Lemma forallb_fmap {A B} (p : B → bool) (f : A → B) (l : list A) :
  forallb p (f <$> l) = forallb (fun a => p (f a)) l.
Proof.
  induction l as [ | a l IH ]; [ reflexivity | ]. csimpl. rewrite IH. reflexivity.
Qed.

(** One turn of the inner loop of [handle_get_workspaces]. *)
Lemma workspace_writes_items output ws g st
    (body := fun ws gen =>
       (assert (type ws =? CT_WORKSPACE)%Z ;;
        let gen := y gen yajl_gen_map_open in
        let gen := ystr gen "num" in
        let gen :=
          if (num ws =? -1)%Z then y gen yajl_gen_null
          else y gen (yajl_gen_integer (num ws)) in
        let gen := ystr gen "name" in
        let gen := ystr gen (name ws) in
        let gen := ystr gen "visible" in
        let gen := y gen (yajl_gen_bool (workspace_is_visible ws)) in
        let gen := ystr gen "focused" in
        let gen := y gen (yajl_gen_bool (addr ws =? con_get_workspace focused)%Z) in
        let gen := ystr gen "rect" in
        let gen := y gen yajl_gen_map_open in
        let gen := ystr gen "x" in
        let gen := y gen (yajl_gen_integer (Rect.x (rect ws))) in
        let gen := ystr gen "y" in
        let gen := y gen (yajl_gen_integer (Rect.y (rect ws))) in
        let gen := ystr gen "width" in
        let gen := y gen (yajl_gen_integer (Rect.width (rect ws))) in
        let gen := ystr gen "height" in
        let gen := y gen (yajl_gen_integer (Rect.height (rect ws))) in
        let gen := y gen yajl_gen_map_close in
        let gen := ystr gen "output" in
        let gen := ystr gen (name output) in
        let gen := ystr gen "urgent" in
        let gen := y gen (yajl_gen_bool (urgent ws)) in
        ret (y gen yajl_gen_map_close))%ipc) :
  if NDEBUG || (type ws =? CT_WORKSPACE)%Z
  then ∃ g', body ws g st = (Done g', st)
             ∧ writes_items g g' [workspace_json (output, ws)]
  else body ws g st = (Crash AssertionFailed, st).
Proof.
  subst body. cbv beta zeta. unfold assert, bind.
  destruct (NDEBUG || (type ws =? CT_WORKSPACE)%Z); [ | reflexivity ].
  eexists. split; [ reflexivity | ].
  intros r0 its stack top Hg. unfold workspace_json, rect_json.
  destruct (num ws =? -1)%Z; json_read_step.
Qed.

(** X8: the reply to GET_WORKSPACES. If every child of the content
    container of every output that is not internal is a workspace, or
    assertions are compiled out, the reply is a JSON array with one
    object for each of them, outputs in the order of the root's
    children and workspaces in the order of the content container.
    Otherwise the assertion stops the process and no reply is sent. *)
Theorem handle_get_workspaces_reply fd0 message size message_size message_type st :
  let run := handle_get_workspaces fd0 message size message_size message_type st in
  (NDEBUG || all_workspaces = true →
     ∃ gen,
       run = (Done tt,
              emit [ipc_send_message fd0
                      (N.of_nat (String.length (yajl_gen_get_buf gen)))
                      I3_IPC_REPLY_TYPE_WORKSPACES (yajl_gen_get_buf gen)] st)
       ∧ json_of gen = Some workspaces_json)
  ∧ (NDEBUG || all_workspaces = false → run = (Crash AssertionFailed, st)).
Proof.
  intros run. subst run. unfold handle_get_workspaces. cbv zeta.
  unfold all_workspaces, listed_workspaces. rewrite forallb_bind.
  split.
  - intros Hall.
    lazymatch goal with
    | |- context [foreach ?body (nodes_head croot) _] =>
        edestruct (foreach_writes_items body
          (fun output => if con_is_internal output then []
                         else (fun ws => workspace_json (output, ws))
                                <$> nodes_head (output_get_content output))
          (nodes_head croot) st) as (g' & Hrun & Hg')
    end.
    2: { rewrite (bind_done _ _ _ _ _ Hrun).
         eexists. split; [ reflexivity | ].
         apply json_of_array. unfold workspaces_json, listed_workspaces.
         rewrite fmap_bind_list.
         erewrite (list_bind_ext _ _ (nodes_head croot) (nodes_head croot));
           [ apply Hg'; json_read_step | | reflexivity ].
         intros output. simpl. destruct (con_is_internal output); [ reflexivity | ].
         rewrite <- list_fmap_compose. reflexivity. }
    intros output Houtput g.
    destruct (con_is_internal output) eqn:Hinternal.
    { exists g. split; [ reflexivity | ]. intros r0 its stack top Hg. exact Hg. }
    rewrite <- bind_fmap_singleton.
    apply foreach_writes_items. intros ws Hws g0.
    pose proof (workspace_writes_items output ws g0 st) as Hbody.
    cbv zeta in Hbody.
    assert (Hws_ok : NDEBUG || (type ws =? CT_WORKSPACE)%Z = true).
    { destruct NDEBUG; [ reflexivity | ]. simpl in Hall |- *.
      rewrite forallb_forall in Hall. specialize (Hall output).
      rewrite Hinternal, forallb_fmap, forallb_forall in Hall.
      apply Hall; apply list_elem_of_In; assumption. }
    rewrite Hws_ok in Hbody. exact Hbody.
  - intros Hbad. apply orb_false_iff in Hbad as [Hdebug Hbad].
    apply bind_crash.
    apply (foreach_crashes _
      (fun output => negb (forallb (fun listed : Con * Con =>
                                      (type listed.2 =? CT_WORKSPACE)%Z)
         (if con_is_internal output then []
          else (fun ws => (output, ws)) <$> nodes_head (output_get_content output))))).
    + intros output g Houtput.
      destruct (con_is_internal output) eqn:Hinternal; simpl.
      { exists g. reflexivity. }
      rewrite forallb_fmap. simpl.
      destruct (forallb (fun ws => (type ws =? CT_WORKSPACE)%Z)
                        (nodes_head (output_get_content output))) eqn:Hall; simpl.
      * rewrite forallb_forall in Hall.
        lazymatch goal with
        | |- ∃ g', foreach ?body ?l ?g0 _ = _ =>
            assert (Hprem : ∀ ws, ws ∈ l → ∀ g, ∃ g',
                      body ws g st = (Done g', st)
                      ∧ writes_items g g' [workspace_json (output, ws)]);
            [ | destruct (foreach_writes_items body
                            (fun ws => [workspace_json (output, ws)]) l st Hprem g0)
                  as (g' & Hrun & _); exists g'; exact Hrun ]
        end.
        intros ws Hws g0.
        pose proof (workspace_writes_items output ws g0 st) as Hbody.
        cbv zeta in Hbody.
        rewrite (Hall ws), orb_true_r in Hbody;
          [ exact Hbody | apply list_elem_of_In; exact Hws ].
      * apply (foreach_crashes _ (fun ws => negb (type ws =? CT_WORKSPACE)%Z)).
        -- intros ws g0 Hws.
           pose proof (workspace_writes_items output ws g0 st) as Hbody.
           cbv zeta in Hbody. rewrite Hdebug in Hbody. simpl in Hbody.
           destruct (type ws =? CT_WORKSPACE)%Z; simpl;
             [ destruct Hbody as (g' & Hrun & _); exists g'; exact Hrun
             | exact Hbody ].
        -- rewrite forallb_negb_negb. exact Hall.
    + rewrite forallb_negb_negb. exact Hbad.
Qed.

End Replies.

(** ** Reading a run of generator calls step by step *)

Lemma reads_id r : reads (fun g => g) r (Some r).
Proof. intros g r0 Hg. exact Hg. Qed.

Lemma reads_compose (f h : yajl_gen → yajl_gen) r1 r2 r3 :
  reads f r1 (Some r2) → reads h r2 r3 → reads (fun g => h (f g)) r1 r3.
Proof. intros Hf Hh g r0 Hg. apply Hh, Hf, Hg. Qed.

Lemma reads_y c r r' : json_call c r = r' → reads (fun g => y g c) r r'.
Proof.
  intros Hc g r0 Hg. unfold y. rewrite json_read_app, Hg. simpl.
  rewrite Hc. destruct r'; reflexivity.
Qed.

Lemma reads_ystr s r r' :
  json_value (JString (cstr s)) r = r' → reads (fun g => ystr g s) r r'.
Proof. intros Hs. unfold ystr. apply reads_y. exact Hs. Qed.

Lemma reads_eq f r r1 r2 : reads f r r1 → r1 = r2 → reads f r r2.
Proof. intros Hf <-. exact Hf. Qed.

Lemma reads_YSTR_IF_SET key value fields stack top :
  reads (fun g => YSTR_IF_SET g key value)
        (in_object fields None :: stack, top)
        (Some (in_object (opt_field key value ++ fields) None :: stack, top)).
Proof.
  destruct value as [v | ]; simpl.
  - apply (reads_compose (fun g => ystr g key) (fun g => ystr g v)
             _ (in_object fields (Some (cstr key)) :: stack, top));
      apply reads_ystr; reflexivity.
  - apply reads_id.
Qed.

Lemma reads_fold_left {A} (f : yajl_gen → A → yajl_gen) (items : A → list json)
    (l : list A) stack top :
  (∀ a its, reads (fun g => f g a) (in_array its :: stack, top)
                  (Some (in_array (rev (items a) ++ its) :: stack, top))) →
  ∀ its, reads (fun g => fold_left f l g) (in_array its :: stack, top)
               (Some (in_array (rev (l ≫= items) ++ its) :: stack, top)).
Proof.
  intros Hf. induction l as [ | a l IH ]; intros its g r0 Hg; simpl.
  - exact Hg.
  - csimpl. rewrite rev_app_distr, <- app_assoc.
    apply IH. apply (Hf a its g r0 Hg).
Qed.

Lemma reads_dump_rect name r fields stack top :
  reads (fun g => dump_rect g name r) (in_object fields None :: stack, top)
        (Some (in_object ((cstr name, rect_json r) :: fields) None :: stack, top)).
Proof. intros g r0 Hg. unfold dump_rect. json_read_step. Qed.

Lemma rev_opt_field key value : rev (opt_field key value) = opt_field key value.
Proof. destruct value; reflexivity. Qed.

(** One step of a run written as a chain of [let]: the binding is read
    by [leaf], the rest by the next step. *)
Ltac reads_leaf extra :=
  lazymatch goal with
  | |- reads (fun g => g) _ _ => apply reads_id
  | |- reads (fun g => y g _) _ _ => apply reads_y; cbv [json_call]; reflexivity
  | |- reads (fun g => ystr g _) _ _ => apply reads_ystr; reflexivity
  | |- reads (fun g => YSTR_IF_SET g _ _) _ _ => apply reads_YSTR_IF_SET
  | |- reads (fun g => dump_rect g _ _) _ _ => apply reads_dump_rect
  | |- reads (fun g => y (@?f g) ?c) _ _ =>
      eapply (reads_compose f (fun g => y g c));
        [ reads_leaf extra | apply reads_y; cbv [json_call]; reflexivity ]
  | |- reads (fun g => ystr (@?f g) ?s) _ _ =>
      eapply (reads_compose f (fun g => ystr g s));
        [ reads_leaf extra | apply reads_ystr; reflexivity ]
  | |- _ => extra
  end.

Ltac reads_chain extra :=
  lazymatch goal with
  | |- reads (fun gen => let x := @?a gen in @?b x) _ _ =>
      eapply (reads_compose a b); [ reads_leaf extra | reads_chain extra ]
  | |- reads (fun gen => let x := @?a gen in @?b gen x) ?r ?r' =>
      let t := eval cbv beta in (fun gen => b gen (a gen)) in
      change (reads t r r'); reads_chain extra
  | |- _ => reads_leaf extra
  end.

Lemma rev_if_single {A} (c : bool) (x : A) :
  rev (if c then [x] else []) = if c then [x] else [].
Proof. destruct c; reflexivity. Qed.

(** Brings the fields read, which are kept in reverse, and the fields of
    the document to the same form. *)
Ltac fields_normalize :=
  repeat (progress cbn [rev] || rewrite rev_app_distr || rewrite rev_opt_field
          || rewrite rev_if_single || rewrite rev_involutive);
  rewrite <- ?app_assoc; cbn [app].

Section BarConfig.
Context `{Yajl} `{Host}.

Lemma reads_bar_mode mode key fields stack top :
  reads (fun gen => match mode with
                    | Barconfig.M_HIDE => ystr gen "hide"
                    | Barconfig.M_INVISIBLE => ystr gen "invisible"
                    | Barconfig.M_DOCK => ystr gen "dock"
                    end)
        (in_object fields (Some key) :: stack, top)
        (Some (in_object ((key, JString (bar_mode_token mode)) :: fields) None
                 :: stack, top)).
Proof. destruct mode; apply reads_ystr; reflexivity. Qed.

Lemma reads_bar_hidden_state state key fields stack top :
  reads (fun gen => match state with
                    | Barconfig.S_SHOW => ystr gen "show"
                    | Barconfig.S_HIDE => ystr gen "hide"
                    end)
        (in_object fields (Some key) :: stack, top)
        (Some (in_object ((key, JString (bar_hidden_state_token state)) :: fields)
                         None :: stack, top)).
Proof. destruct state; apply reads_ystr; reflexivity. Qed.

Lemma reads_bar_modifier modifier key fields stack top :
  reads (fun gen => match modifier with
                    | Barconfig.M_CONTROL => ystr gen "ctrl"
                    | Barconfig.M_SHIFT => ystr gen "shift"
                    | Barconfig.M_MOD1 => ystr gen "Mod1"
                    | Barconfig.M_MOD2 => ystr gen "Mod2"
                    | Barconfig.M_MOD3 => ystr gen "Mod3"
                    | Barconfig.M_MOD5 => ystr gen "Mod5"
                    | _ => ystr gen "Mod4"
                    end)
        (in_object fields (Some key) :: stack, top)
        (Some (in_object ((key, JString (bar_modifier_token modifier)) :: fields)
                         None :: stack, top)).
Proof. destruct modifier; apply reads_ystr; reflexivity. Qed.

Lemma reads_bar_position position key fields stack top :
  reads (fun gen => match position with
                    | Barconfig.P_BOTTOM => ystr gen "bottom"
                    | _ => ystr gen "top"
                    end)
        (in_object fields (Some key) :: stack, top)
        (Some (in_object ((key, JString (bar_position_token position)) :: fields)
                         None :: stack, top)).
Proof. destruct position; apply reads_ystr; reflexivity. Qed.

Lemma reads_bar_outputs config fields stack top :
  reads (fun gen =>
           if (0 <? Barconfig.num_outputs config)%nat then
             let gen := ystr gen "outputs" in
             let gen := y gen yajl_gen_array_open in
             let gen := fold_left ystr (Barconfig.outputs config) gen in
             y gen yajl_gen_array_close
           else gen)
        (in_object fields None :: stack, top)
        (Some (in_object
                 ((if (0 <? Barconfig.num_outputs config)%nat
                   then [("outputs",
                          JArray ((fun o => JString (cstr o))
                                    <$> Barconfig.outputs config))]
                   else []) ++ fields) None :: stack, top)).
Proof.
  destruct (0 <? Barconfig.num_outputs config)%nat; [ | apply reads_id ].
  eapply reads_eq.
  - reads_chain ltac:(apply (reads_fold_left ystr (fun o => [JString (cstr o)]));
                      intros o its; apply reads_ystr; reflexivity).
  - cbn. rewrite app_nil_r, rev_involutive, bind_fmap_singleton. reflexivity.
Qed.

Ltac reads_bar :=
  first [ apply reads_bar_mode | apply reads_bar_hidden_state
        | apply reads_bar_modifier | apply reads_bar_position
        | apply reads_bar_outputs ].

Lemma reads_dump_bar_config config fs stack top :
  bar_config_json config = JObject fs →
  reads (fun gen => dump_bar_config gen config)
        (in_object [] None :: stack, top)
        (Some (in_object (rev fs) None :: stack, top)).
Proof.
  intros [= <-]. eapply reads_eq.
  - cbv beta delta [dump_bar_config]. reads_chain ltac:(reads_bar).
  - unfold bar_colors_json. fields_normalize. reflexivity.
Qed.

Lemma find_barconfig_first configs bar_id i config :
  configs !! i = Some config →
  cstr (Barconfig.id config) = cstr bar_id →
  (∀ j other, j < i → configs !! j = Some other →
     cstr (Barconfig.id other) ≠ cstr bar_id) →
  find_barconfig configs bar_id = Some config.
Proof.
  revert i. induction configs as [ | current rest IH ]; intros i Hi Hid Hfirst.
  { destruct i; discriminate. }
  simpl. destruct i as [ | i ].
  - injection Hi as ->. apply strcmp_cstr in Hid. rewrite Hid. reflexivity.
  - destruct (Z.eqb_spec (strcmp (Barconfig.id current) bar_id) 0) as [Heq | _].
    + exfalso. apply (Hfirst 0 current); [ lia | reflexivity | ].
      apply strcmp_cstr, Heq.
    + simpl. apply (IH i Hi Hid).
      intros j other Hj Hother. apply (Hfirst (S j) other); [ lia | exact Hother ].
Qed.

(** X9: GET_BAR_CONFIG with the id of a configured bar, in a
    message that is not empty and shorter than 4294967295 bytes. The
    requested id is the first [message_size] bytes of the message up to
    the first NUL byte among them. The reply is the JSON object of the
    first configuration in the list whose id, read as a C string, is that
    text: its id, its outputs if it has any, the strings that are set, the
    tokens of its mode, hidden state, modifier and position, its three
    switches, and its colours as an object of the colours that are set. *)
Theorem handle_get_bar_config_found
    fd0 message size message_size message_type st i config :
  (0 < message_size)%N → (message_size < UINT32_MAX)%N →
  barconfigs !! i = Some config →
  c_text (Barconfig.id config) = requested_text message message_size →
  (∀ j other, j < i → barconfigs !! j = Some other →
     c_text (Barconfig.id other) ≠ requested_text message message_size) →
  ∃ gen,
    handle_get_bar_config fd0 message size message_size message_type st
    = (Done tt,
       emit [log LOG ("IPC: looking for config for bar ID " +:+ dq +:+ "%s" +:+ dq);
             ipc_send_message fd0 (N.of_nat (String.length (yajl_gen_get_buf gen)))
                              I3_IPC_REPLY_TYPE_BAR_CONFIG (yajl_gen_get_buf gen)] st)
    ∧ json_of gen = Some (bar_config_json config).
Proof.
  intros Hpos Hlt Hi Hid Hfirst.
  assert (Hfind : find_barconfig barconfigs (strncpy0 message message_size)
                  = Some config).
  { assert (Htext : cstr (strncpy0 message message_size)
                    = requested_text message message_size).
    { rewrite <- strncpy0_requested_text. unfold strncpy0. apply cstr_idemp. }
    apply (find_barconfig_first _ _ i); [ exact Hi | | ].
    - rewrite cstr_c_text, Htext. exact Hid.
    - intros j other Hj Hother. rewrite cstr_c_text, Htext.
      exact (Hfirst j other Hj Hother). }
  unfold handle_get_bar_config. cbv zeta.
  rewrite (proj2 (N.eqb_neq message_size 0)) by lia.
  rewrite (bind_done _ _ _ _ _ (copy_message_ok message message_size st Hlt)).
  rewrite Hfind.
  eexists. split.
  - unfold bind, perform, emit. simpl. rewrite <- app_assoc. reflexivity.
  - unfold json_of.
    pose proof (reads_dump_bar_config config _ [] None eq_refl
                  (y ygenalloc yajl_gen_map_open) ([], None) eq_refl) as Hread.
    rewrite (json_read_y _ _ _ _ ([], Some (bar_config_json config)) Hread);
      [ reflexivity | ].
    cbv [json_call json_value]. rewrite rev_involutive. reflexivity.
Qed.

End BarConfig.

Lemma handle_get_bar_config_found_witness :
  let config := Sample.bar "bar-1" in
  ((0 < 5)%N ∧ (5 < UINT32_MAX)%N
   ∧ barconfigs !! 1 = Some config
   ∧ c_text (Barconfig.id config) = requested_text "bar-1" 5)
  ∧ ∃ gen,
      handle_get_bar_config 5 "bar-1" 0 5 6 Sample.four_clients
      = (Done tt,
         emit [log LOG ("IPC: looking for config for bar ID " +:+ dq +:+ "%s" +:+ dq);
               ipc_send_message 5 (N.of_nat (String.length (yajl_gen_get_buf gen)))
                                I3_IPC_REPLY_TYPE_BAR_CONFIG (yajl_gen_get_buf gen)]
              Sample.four_clients)
      ∧ json_of gen = Some (bar_config_json config).
Proof.
  intros config.
  assert (Hpos : (0 < 5)%N) by reflexivity.
  assert (Hlt : (5 < UINT32_MAX)%N) by reflexivity.
  assert (Hi : barconfigs !! 1 = Some config) by reflexivity.
  assert (Hid : c_text (Barconfig.id config) = requested_text "bar-1" 5)
    by (vm_compute; reflexivity).
  split; [ split_and!; assumption | ].
  apply (handle_get_bar_config_found 5 "bar-1" 0 5 6 Sample.four_clients 1 config
           Hpos Hlt Hi Hid).
  intros j other Hj Hother.
  destruct j as [ | j ]; [ | lia ].
  injection Hother as <-. vm_compute. discriminate.
Defined.

(** ** The document of a container *)

Section Tree.
Context `{Yajl} `{Host}.

Lemma reads_orientation con key fields stack top :
  reads (fun gen =>
           if negb (con_is_split con) then ystr gen "none"
           else match con_orientation con with
                | HORIZ => ystr gen "horizontal"
                | _ => ystr gen "vertical"
                end)
        (in_object fields (Some key) :: stack, top)
        (Some (in_object ((key, JString (orientation_token con)) :: fields) None
                 :: stack, top)).
Proof.
  unfold orientation_token.
  destruct (negb (con_is_split con)); [ apply reads_ystr; reflexivity | ].
  destruct (con_orientation con); apply reads_ystr; reflexivity.
Qed.

Lemma reads_scratchpad_state state key fields stack top :
  reads (fun gen => match state with
                    | SCRATCHPAD_NONE => ystr gen "none"
                    | SCRATCHPAD_FRESH => ystr gen "fresh"
                    | SCRATCHPAD_CHANGED => ystr gen "changed"
                    end)
        (in_object fields (Some key) :: stack, top)
        (Some (in_object ((key, JString (scratchpad_state_token state)) :: fields)
                         None :: stack, top)).
Proof. destruct state; apply reads_ystr; reflexivity. Qed.

Lemma reads_percent (p : float) key fields stack top :
  reads (fun gen => if PrimFloat.eqb p 0%float then y gen yajl_gen_null
                    else y gen (yajl_gen_double p))
        (in_object fields (Some key) :: stack, top)
        (Some (in_object ((key, if PrimFloat.eqb p 0%float then JNull
                                else JDouble p) :: fields) None :: stack, top)).
Proof. destruct (PrimFloat.eqb p 0%float); apply reads_y; reflexivity. Qed.

Lemma reads_mark (m : option string) fields stack top :
  reads (fun gen => match m with
                    | Some m => ystr (ystr gen "mark") m
                    | None => gen
                    end)
        (in_object fields None :: stack, top)
        (Some (in_object (opt_field "mark" m ++ fields) None :: stack, top)).
Proof. exact (reads_YSTR_IF_SET "mark" m fields stack top). Qed.

Lemma reads_last_split_layout l key fields stack top :
  reads (fun gen => match l with
                    | L_SPLITV => ystr gen "splitv"
                    | _ => ystr gen "splith"
                    end)
        (in_object fields (Some key) :: stack, top)
        (Some (in_object ((key, JString (last_split_layout_token l)) :: fields) None
                 :: stack, top)).
Proof. destruct l; apply reads_ystr; reflexivity. Qed.

Lemma reads_border_style style key fields stack top :
  reads (fun gen => match style with
                    | BS_NORMAL => ystr gen "normal"
                    | BS_NONE => ystr gen "none"
                    | BS_PIXEL => ystr gen "pixel"
                    end)
        (in_object fields (Some key) :: stack, top)
        (Some (in_object ((key, JString (border_style_token style)) :: fields) None
                 :: stack, top)).
Proof. destruct style; apply reads_ystr; reflexivity. Qed.

Lemma reads_shown_name con key fields stack top :
  reads (fun gen => match window con with
                    | Some w =>
                        match Window.name w with
                        | Some n => ystr gen n
                        | None => ystr gen (name con)
                        end
                    | None => ystr gen (name con)
                    end)
        (in_object fields (Some key) :: stack, top)
        (Some (in_object ((key, JString (cstr (shown_name con))) :: fields) None
                 :: stack, top)).
Proof.
  unfold shown_name. destruct (window con) as [w | ];
    [ destruct (Window.name w) | ]; apply reads_ystr; reflexivity.
Qed.

Lemma reads_num con fields stack top :
  reads (fun gen => if (type con =? CT_WORKSPACE)%Z
                    then y (ystr gen "num") (yajl_gen_integer (num con))
                    else gen)
        (in_object fields None :: stack, top)
        (Some (in_object ((if (type con =? CT_WORKSPACE)%Z
                           then [("num", JInteger (num con))] else []) ++ fields)
                         None :: stack, top)).
Proof.
  destruct (type con =? CT_WORKSPACE)%Z; [ | apply reads_id ].
  apply (reads_compose (fun g => ystr g "num")
           (fun g => y g (yajl_gen_integer (num con)))
           _ (in_object fields (Some "num") :: stack, top));
    [ apply reads_ystr | apply reads_y ]; reflexivity.
Qed.

Lemma reads_window (w : option Window.t) key fields stack top :
  reads (fun gen => match w with
                    | Some w => y gen (yajl_gen_integer (Window.id w))
                    | None => y gen yajl_gen_null
                    end)
        (in_object fields (Some key) :: stack, top)
        (Some (in_object ((key, match w with
                                | Some w => JInteger (Window.id w)
                                | None => JNull
                                end) :: fields) None :: stack, top)).
Proof. destruct w; apply reads_y; reflexivity. Qed.

Lemma reads_floating f key fields stack top :
  reads (fun gen => match f with
                    | FLOATING_AUTO_OFF => ystr gen "auto_off"
                    | FLOATING_AUTO_ON => ystr gen "auto_on"
                    | FLOATING_USER_OFF => ystr gen "user_off"
                    | FLOATING_USER_ON => ystr gen "user_on"
                    end)
        (in_object fields (Some key) :: stack, top)
        (Some (in_object ((key, JString (floating_token f)) :: fields) None
                 :: stack, top)).
Proof. destruct f; apply reads_ystr; reflexivity. Qed.

Lemma reads_focus (l : list Z) its stack top :
  reads (fun gen => fold_left (fun gen node => y gen (yajl_gen_integer node)) l gen)
        (in_array its :: stack, top)
        (Some (in_array (rev (JInteger <$> l) ++ its) :: stack, top)).
Proof.
  rewrite <- bind_fmap_singleton.
  apply (reads_fold_left (fun gen node => y gen (yajl_gen_integer node))
           (fun node => [JInteger node])).
  intros node its'. apply reads_y. reflexivity.
Qed.

Lemma reads_swallows (l : list Match.t) its stack top :
  reads (fun gen =>
           fold_left
             (fun gen match_ =>
                if negb (Match.dock match_ =? -1)%Z then
                  let gen := y gen yajl_gen_map_open in
                  let gen := ystr gen "dock" in
                  let gen := y gen (yajl_gen_integer (Match.dock match_)) in
                  let gen := ystr gen "insert_where" in
                  let gen := y gen (yajl_gen_integer (Match.insert_where match_)) in
                  y gen yajl_gen_map_close
                else gen)
             l gen)
        (in_array its :: stack, top)
        (Some (in_array (rev (l ≫= swallow_json) ++ its) :: stack, top)).
Proof.
  apply (reads_fold_left _ swallow_json).
  intros match_ its'. unfold swallow_json.
  destruct (negb (Match.dock match_ =? -1)%Z); [ | apply reads_id ].
  intros g r0 Hg. cbv zeta. json_read_step.
Qed.

Lemma reads_restart_window inplace_restart (w : option Window.t) its stack top :
  reads (fun gen =>
           if inplace_restart : bool then
             match w with
             | Some w =>
                 let gen := y gen yajl_gen_map_open in
                 let gen := ystr gen "id" in
                 let gen := y gen (yajl_gen_integer (Window.id w)) in
                 let gen := ystr gen "restart_mode" in
                 let gen := y gen (yajl_gen_bool true) in
                 y gen yajl_gen_map_close
             | None => gen
             end
           else gen)
        (in_array its :: stack, top)
        (Some (in_array
                 (rev (if inplace_restart
                       then match w with
                            | Some w => [JObject [("id", JInteger (Window.id w));
                                                  ("restart_mode", JBool true)]]
                            | None => []
                            end
                       else []) ++ its) :: stack, top)).
Proof.
  destruct inplace_restart; [ | apply reads_id ].
  destruct w as [w | ]; [ | apply reads_id ].
  intros g r0 Hg. cbv zeta. json_read_step.
Qed.

Lemma reads_depth inplace_restart con fields stack top :
  reads (fun gen =>
           if inplace_restart && bool_decide (is_Some (window con))
           then y (ystr gen "depth") (yajl_gen_integer (depth con))
           else gen)
        (in_object fields None :: stack, top)
        (Some (in_object ((if inplace_restart && bool_decide (is_Some (window con))
                           then [("depth", JInteger (depth con))] else []) ++ fields)
                         None :: stack, top)).
Proof.
  destruct (inplace_restart && bool_decide (is_Some (window con)));
    [ | apply reads_id ].
  apply (reads_compose (fun g => ystr g "depth")
           (fun g => y g (yajl_gen_integer (depth con)))
           _ (in_object fields (Some "depth") :: stack, top));
    [ apply reads_ystr | apply reads_y ]; reflexivity.
Qed.

Ltac reads_con :=
  first [ apply reads_orientation | apply reads_scratchpad_state
        | apply reads_percent | apply reads_mark
        | apply reads_last_split_layout | apply reads_border_style
        | apply reads_shown_name | apply reads_num | apply reads_window
        | apply reads_floating | apply reads_focus | apply reads_swallows
        | apply reads_restart_window | apply reads_depth ].

Lemma reads_dump_node_head con stack top :
  reads (fun gen => dump_node_head gen con) (stack, top)
        (Some (in_object (rev (con_head_fields con)) None :: stack, top)).
Proof.
  eapply reads_eq.
  - cbv beta delta [dump_node_head]. reads_chain ltac:(reads_con).
  - unfold con_head_fields. fields_normalize. reflexivity.
Qed.

Lemma reads_dump_node_middle con fields stack top :
  reads (fun gen => dump_node_middle gen con)
        (in_object fields None :: stack, top)
        (Some (in_object (rev (con_middle_fields con) ++ fields) None :: stack, top)).
Proof.
  eapply reads_eq.
  - cbv beta delta [dump_node_middle]. reads_chain ltac:(reads_con).
  - unfold con_middle_fields. fields_normalize. reflexivity.
Qed.

Lemma reads_dump_node_tail con inplace_restart fields stack top :
  reads (fun gen => dump_node_tail gen con inplace_restart)
        (in_object fields None :: stack, top)
        (json_value (JObject (rev fields ++ con_tail_fields inplace_restart con))
                    (stack, top)).
Proof.
  eapply reads_eq.
  - cbv beta delta [dump_node_tail]. reads_chain ltac:(reads_con).
  - unfold con_tail_fields. f_equal. f_equal. fields_normalize.
    reflexivity.
Qed.

Lemma con_json_unfold inplace_restart con :
  con_json inplace_restart con
  = JObject
      (con_head_fields con
       ++ [("layout", token_json (layout_token (layout con)));
           ("workspace_layout",
            token_json (workspace_layout_token (workspace_layout con)))]
       ++ con_middle_fields con
       ++ [("nodes", JArray (if dumps_nodes inplace_restart con
                             then List.map (con_json inplace_restart) (nodes_head con)
                             else []));
           ("floating_nodes",
            JArray (List.map (con_json inplace_restart) (floating_head con)))]
       ++ con_tail_fields inplace_restart con).
Proof. destruct con. reflexivity. Qed.

Lemma tree_ok_unfold inplace_restart con :
  tree_ok inplace_restart con
  = bool_decide (is_Some (layout_token (layout con)))
    && bool_decide (is_Some (workspace_layout_token (workspace_layout con)))
    && (if dumps_nodes inplace_restart con
        then forallb (tree_ok inplace_restart) (nodes_head con)
        else true)
    && forallb (tree_ok inplace_restart) (floating_head con).
Proof. destruct con. reflexivity. Qed.

Lemma dump_node_layout_ok gen con st token :
  layout_token (layout con) = Some token →
  dump_node_layout gen con st = (Done (ystr gen token), st) ∧ cstr token = token.
Proof.
  unfold dump_node_layout, layout_token.
  destruct (layout con); intros [= <-]; split; reflexivity.
Qed.

Lemma dump_node_layout_bad gen con st :
  layout_token (layout con) = None → NDEBUG = false →
  dump_node_layout gen con st = (Crash AssertionFailed, emit [layout_default_log] st).
Proof.
  unfold dump_node_layout, layout_token.
  destruct (layout con); try discriminate. intros _ Hdebug.
  unfold bind, perform, assert. rewrite Hdebug. reflexivity.
Qed.

Lemma dump_node_workspace_layout_ok gen con st token :
  workspace_layout_token (workspace_layout con) = Some token →
  dump_node_workspace_layout gen con st = (Done (ystr gen token), st)
  ∧ cstr token = token.
Proof.
  unfold dump_node_workspace_layout, workspace_layout_token.
  destruct (workspace_layout con); intros [= <-]; split; reflexivity.
Qed.

Lemma dump_node_workspace_layout_bad gen con st :
  workspace_layout_token (workspace_layout con) = None → NDEBUG = false →
  ∃ line, dump_node_workspace_layout gen con st
          = (Crash AssertionFailed, emit [log DLOG line] st).
Proof.
  unfold dump_node_workspace_layout, workspace_layout_token.
  destruct (workspace_layout con); try discriminate; intros _ Hdebug;
    unfold bind, perform, assert; rewrite Hdebug; eexists; reflexivity.
Qed.

Ltac read_back :=
  lazymatch goal with
  | H : json_read ?g ?r0 = Some _ |- json_read ?g ?r0 = Some _ => exact H
  | H : writes_items _ ?g _ |- json_read ?g _ = Some _ => eapply H; read_back
  | |- json_read (y _ _) _ = Some _ =>
      eapply json_read_y; [ read_back | cbv [json_call]; reflexivity ]
  | |- json_read (ystr _ _) _ = Some _ =>
      eapply json_read_ystr; [ read_back | reflexivity ]
  | |- json_read (dump_node_middle ?g ?con) ?r0 = Some _ =>
      eapply (reads_dump_node_middle con _ _ _ g r0); read_back
  | |- json_read (dump_node_head ?g ?con) ?r0 = Some _ =>
      eapply (reads_dump_node_head con _ _ g r0); read_back
  end.

Lemma children_write inplace_restart (l : list Con) g st :
  Forall (writes_con inplace_restart) l →
  ∃ g', foreach (fun node gen => dump_node gen node inplace_restart) l g st
        = (Done g', st)
        ∧ writes_items g g' (List.map (con_json inplace_restart) l).
Proof.
  intros Hl.
  destruct (foreach_writes_items
              (fun node gen => dump_node gen node inplace_restart)
              (fun node => [con_json inplace_restart node]) l st) with (g := g)
    as (g' & Hrun & Hread).
  - intros node Hnode g0. rewrite Forall_forall in Hl.
    destruct (Hl node Hnode g0 st) as (g1 & Hrun & Hread).
    exists g1. split; [ exact Hrun | ].
    intros r0 its stack top Hg. rewrite (Hread r0 _ _ Hg). reflexivity.
  - exists g'. split; [ exact Hrun | ].
    rewrite bind_fmap_singleton in Hread. exact Hread.
Qed.

Lemma nodes_write inplace_restart con g st :
  (dumps_nodes inplace_restart con = true →
   Forall (writes_con inplace_restart) (nodes_head con)) →
  ∃ g', (if negb (type con =? CT_DOCKAREA)%Z || negb inplace_restart
         then foreach (fun node gen => dump_node gen node inplace_restart)
                      (nodes_head con) g
         else ret g) st = (Done g', st)
        ∧ writes_items g g'
            (if dumps_nodes inplace_restart con
             then List.map (con_json inplace_restart) (nodes_head con) else []).
Proof.
  unfold dumps_nodes.
  destruct (negb (type con =? CT_DOCKAREA)%Z || negb inplace_restart); intros Hl.
  - apply children_write, Hl. reflexivity.
  - exists g. split; [ reflexivity | ]. intros r0 its stack top Hg. exact Hg.
Qed.

Lemma forallb_Forall_impl {A} (p : A → bool) (P : A → Prop) (l : list A) :
  Forall (fun a => p a = true → P a) l → forallb p l = true → Forall P l.
Proof.
  induction 1 as [ | a l Ha _ IH ]; intros Hp; [ constructor | ].
  simpl in Hp. apply andb_true_iff in Hp as [Hpa Hpl].
  constructor; [ apply Ha, Hpa | apply IH, Hpl ].
Qed.

Lemma dump_node_writes inplace_restart con :
  tree_ok inplace_restart con = true → writes_con inplace_restart con.
Proof.
  induction con as [con IHnodes IHfloating] using Con_ind_nested.
  rewrite tree_ok_unfold. intros Hok.
  apply andb_true_iff in Hok as [Hok Hfloating].
  apply andb_true_iff in Hok as [Hok Hnodes].
  apply andb_true_iff in Hok as [Hlayout Hws].
  apply bool_decide_eq_true in Hlayout as [token Hlayout].
  apply bool_decide_eq_true in Hws as [wtoken Hws].
  intros gen st. rewrite dump_node_unfold. cbv zeta.
  destruct (dump_node_layout_ok (ystr (dump_node_head gen con) "layout") con st
              token Hlayout) as [Hrun1 Htoken].
  rewrite (bind_done _ _ _ _ _ Hrun1).
  destruct (dump_node_workspace_layout_ok
              (ystr (ystr (ystr (dump_node_head gen con) "layout") token)
                    "workspace_layout") con st wtoken Hws) as [Hrun2 Hwtoken].
  rewrite (bind_done _ _ _ _ _ Hrun2).
  lazymatch goal with
  | |- context [bind (if _ then foreach _ _ ?g else ret _) _] =>
      destruct (nodes_write inplace_restart con g st) as (g3 & Hrun3 & Hread3)
  end.
  { intros Hdumps. rewrite Hdumps in Hnodes.
    exact (forallb_Forall_impl _ _ _ IHnodes Hnodes). }
  rewrite (bind_done _ _ _ _ _ Hrun3).
  lazymatch goal with
  | |- context [bind (foreach _ _ ?g) _] =>
      destruct (children_write inplace_restart (floating_head con) g st)
        as (g4 & Hrun4 & Hread4)
  end.
  { exact (forallb_Forall_impl _ _ _ IHfloating Hfloating). }
  rewrite (bind_done _ _ _ _ _ Hrun4).
  eexists. split; [ reflexivity | ].
  intros r0 stack top Hgen.
  eapply eq_trans.
  - eapply (reads_dump_node_tail con inplace_restart _ stack top _ r0).
    read_back.
  - rewrite con_json_unfold, Hlayout, Hws, Htoken, Hwtoken.
    f_equal. f_equal. fields_normalize. reflexivity.
Qed.

Lemma bind_ret {A B} (a : A) (k : A → M B) st : bind (ret a) k st = k a st.
Proof. reflexivity. Qed.

(** What [dump_node] has done when an assertion stops it: it has logged
    one line. *)
Lemma children_assert inplace_restart (l : list Con) :
  Forall (fun con => tree_ok inplace_restart con = false →
            ∀ gen st, ∃ line,
              dump_node gen con inplace_restart st
              = (Crash AssertionFailed, emit [log DLOG line] st)) l →
  forallb (tree_ok inplace_restart) l = false →
  ∀ g st, ∃ line,
    foreach (fun node gen => dump_node gen node inplace_restart) l g st
    = (Crash AssertionFailed, emit [log DLOG line] st).
Proof.
  induction 1 as [ | con l Hcon _ IH ]; intros Hbad g st; [ discriminate | ].
  simpl in Hbad |- *.
  destruct (tree_ok inplace_restart con) eqn:Hok.
  - destruct (dump_node_writes inplace_restart con Hok g st) as (g' & Hrun & _).
    rewrite (bind_done _ _ _ _ _ Hrun). apply IH. exact Hbad.
  - destruct (Hcon eq_refl g st) as (line & Hrun).
    exists line. apply bind_crash, Hrun.
Qed.

Lemma dump_node_asserts inplace_restart con :
  NDEBUG = false → tree_ok inplace_restart con = false →
  ∀ gen st, ∃ line,
    dump_node gen con inplace_restart st
    = (Crash AssertionFailed, emit [log DLOG line] st).
Proof.
  intros Hdebug.
  induction con as [con IHnodes IHfloating] using Con_ind_nested.
  rewrite tree_ok_unfold. intros Hbad gen st.
  rewrite dump_node_unfold. cbv zeta.
  destruct (layout_token (layout con)) as [token | ] eqn:Hlayout.
  2: { eexists. apply bind_crash, dump_node_layout_bad; assumption. }
  destruct (dump_node_layout_ok (ystr (dump_node_head gen con) "layout") con st
              token Hlayout) as [Hrun1 _].
  rewrite (bind_done _ _ _ _ _ Hrun1).
  destruct (workspace_layout_token (workspace_layout con)) as [wtoken | ] eqn:Hws.
  2: { edestruct dump_node_workspace_layout_bad as [line Hrun2];
         [ exact Hws | exact Hdebug | ].
       exists line. apply bind_crash, Hrun2. }
  edestruct dump_node_workspace_layout_ok as [Hrun2 _]; [ exact Hws | ].
  rewrite (bind_done _ _ _ _ _ Hrun2).
  simpl in Hbad. unfold dumps_nodes in Hbad.
  destruct (negb (type con =? CT_DOCKAREA)%Z || negb inplace_restart) eqn:Hdumps.
  - destruct (forallb (tree_ok inplace_restart) (nodes_head con)) eqn:Hnodes.
    + edestruct (children_write inplace_restart (nodes_head con))
        as (g3 & Hrun3 & _);
        [ | rewrite (bind_done _ _ _ _ _ Hrun3) ].
      { apply (forallb_Forall_impl (tree_ok inplace_restart)); [ | exact Hnodes ].
        apply Forall_forall. intros node _. apply dump_node_writes. }
      edestruct (children_assert inplace_restart (floating_head con) IHfloating Hbad)
        as (line & Hrun4).
      exists line. apply bind_crash, Hrun4.
    + edestruct (children_assert inplace_restart (nodes_head con) IHnodes Hnodes)
        as (line & Hrun3).
      exists line. apply bind_crash, Hrun3.
  - rewrite bind_ret.
    edestruct (children_assert inplace_restart (floating_head con) IHfloating Hbad)
      as (line & Hrun4).
    exists line. apply bind_crash, Hrun4.
Qed.

(** X10: the reply to GET_TREE. If every container that is written
    has a layout other than the default and a workspace layout that is
    default, stacked or tabbed, the handler sets the numeric locale to C,
    writes the tree, restores the locale and sends one reply, which is the
    JSON object of the root: its fields in the order of the code, with the
    documents of its children in [nodes] and [floating_nodes], in order.
    Nothing is logged. *)
Theorem handle_tree_reply fd0 message size message_size message_type st :
  tree_ok false croot = true →
  ∃ gen,
    handle_tree fd0 message size message_size message_type st
    = (Done tt,
       emit [setlocale_numeric "C"; setlocale_numeric "";
             ipc_send_message fd0 (N.of_nat (String.length (yajl_gen_get_buf gen)))
                              I3_IPC_REPLY_TYPE_TREE (yajl_gen_get_buf gen)] st)
    ∧ json_of gen = Some (con_json false croot).
Proof.
  intros Hok. unfold handle_tree. cbv zeta.
  destruct (dump_node_writes false croot Hok ygenalloc
              (emit [setlocale_numeric "C"] st)) as (gen & Hrun & Hread).
  exists gen. split.
  - rewrite (bind_done _ _ st tt (emit [setlocale_numeric "C"] st) eq_refl).
    rewrite (bind_done _ _ _ _ _ Hrun).
    unfold bind, perform, emit. simpl. rewrite <- !app_assoc. reflexivity.
  - unfold json_of. rewrite (Hread ([], None) [] None eq_refl). reflexivity.
Qed.

(** X11: GET_TREE on a tree that [dump_node] has no token for. With
    assertions compiled in, a container with the default layout, or with
    a workspace layout other than default, stacked and tabbed, anywhere in
    the part of the tree that is written stops the process: no reply is
    sent, and the numeric locale is left at C. *)
Theorem handle_tree_asserts fd0 message size message_size message_type st :
  NDEBUG = false → tree_ok false croot = false →
  let run := handle_tree fd0 message size message_size message_type st in
  run.1 = Crash AssertionFailed
  ∧ messages (trace run.2) = messages (trace st)
  ∧ (setlocale_numeric "" ∉ drop (length (trace st)) (trace run.2))
  ∧ all_clients run.2 = all_clients st ∧ heap run.2 = heap st.
Proof.
  intros Hdebug Hbad run. subst run. unfold handle_tree. cbv zeta.
  destruct (dump_node_asserts false croot Hdebug Hbad ygenalloc
              (emit [setlocale_numeric "C"] st)) as (line & Hrun).
  rewrite (bind_done _ _ st tt (emit [setlocale_numeric "C"] st) eq_refl).
  rewrite (bind_crash _ _ _ _ _ Hrun). simpl.
  split_and!; try reflexivity.
  - rewrite <- app_assoc, messages_app. simpl. rewrite app_nil_r. reflexivity.
  - rewrite <- app_assoc, drop_app_length. simpl.
    intros Hin. repeat (apply elem_of_cons in Hin as [Hin | Hin];
                        [ discriminate | ]).
    inversion Hin.
Qed.

End Tree.

Lemma handle_tree_reply_witness :
  @tree_ok Tidy.host false Tidy.tree = true
  ∧ ∃ gen,
      @handle_tree Sample.yajl Tidy.host 5 "" 0 0 4 Sample.empty_state
      = (Done tt,
         emit [setlocale_numeric "C"; setlocale_numeric "";
               ipc_send_message 5 (N.of_nat (String.length (yajl_gen_get_buf gen)))
                                4 (yajl_gen_get_buf gen)] Sample.empty_state)
      ∧ json_of gen = Some (@con_json Tidy.host false Tidy.tree).
Proof.
  split; [ vm_compute; reflexivity | ].
  apply (@handle_tree_reply Sample.yajl Tidy.host 5 "" 0 0 4 Sample.empty_state).
  vm_compute. reflexivity.
Defined.

Lemma handle_tree_asserts_witness :
  let run := handle_tree 5 "" 0 0 4 Sample.four_clients in
  (NDEBUG = false ∧ tree_ok false croot = false)
  ∧ run.1 = Crash AssertionFailed
  ∧ messages (trace run.2) = messages (trace Sample.four_clients)
  ∧ (setlocale_numeric "" ∉ drop (length (trace Sample.four_clients)) (trace run.2))
  ∧ all_clients run.2 = all_clients Sample.four_clients
  ∧ heap run.2 = heap Sample.four_clients.
Proof.
  intros run.
  assert (Hdebug : NDEBUG = false) by reflexivity.
  assert (Hbad : tree_ok false croot = false) by (vm_compute; reflexivity).
  split; [ split; assumption | ].
  exact (handle_tree_asserts 5 "" 0 0 4 Sample.four_clients Hdebug Hbad).
Defined.


(** The replies of the second host, as the sample writer prints them. *)
Example tidy_replies :
  messages (trace (@handle_get_marks Sample.yajl Tidy.host 5 "" 0 0 5
                     Sample.empty_state).2)
  = [(5%Z, 17%N, 5%N,
      "[" +:+ Sample.quoted "1: www" +:+ "," +:+ Sample.quoted "mail" +:+ "]")]
  ∧ messages (trace (@handle_get_version Sample.yajl Tidy.host 5 "" 0 0 7
                       Sample.empty_state).2)
    = [(5%Z, 56%N, 7%N,
        "{" +:+ Sample.quoted "major" +:+ ":4," +:+ Sample.quoted "minor" +:+ ":7,"
        +:+ Sample.quoted "patch" +:+ ":2," +:+ Sample.quoted "human_readable" +:+ ":"
        +:+ Sample.quoted "4.7.2" +:+ "}")].
Proof. vm_compute. split; reflexivity. Qed.

(** * Arguments forwarded as a command *)

Lemma no_nul_cstr s : no_nul (cstr s).
Proof.
  induction s as [ | c s IH ]; simpl; [ intros c [] | ].
  destruct (is_nul c) eqn:Hc; [ intros c' [] | ].
  intros c' [<- | Hin]; [ | apply IH, Hin ].
  intros ->. rewrite (proj2 (is_nul_NUL NUL) eq_refl) in Hc. discriminate.
Qed.

Lemma list_ascii_of_string_app s1 s2 :
  list_ascii_of_string (s1 +:+ s2)
  = (list_ascii_of_string s1 ++ list_ascii_of_string s2)%list.
Proof.
  induction s1 as [ | c s1 IH ]; [ reflexivity | ].
  change (c :: list_ascii_of_string (s1 +:+ s2)
          = c :: (list_ascii_of_string s1 ++ list_ascii_of_string s2)%list).
  f_equal. exact IH.
Qed.

Lemma no_nul_app s1 s2 : no_nul s1 → no_nul s2 → no_nul (s1 +:+ s2).
Proof.
  intros H1 H2 c. rewrite list_ascii_of_string_app, in_app_iff.
  intros [Hc | Hc]; [ apply H1, Hc | apply H2, Hc ].
Qed.

Lemma no_nul_space : no_nul " ".
Proof. intros c [<- | []]. discriminate. Qed.

Lemma no_nul_concat (l : list string) :
  Forall no_nul l → no_nul (String.concat " " l).
Proof.
  induction 1 as [ | s l Hs Hl IH ]; simpl; [ intros c [] | ].
  destruct l as [ | s' l ]; [ exact Hs | ].
  apply no_nul_app; [ exact Hs | apply no_nul_app; [ apply no_nul_space | exact IH ] ].
Qed.

Lemma string_app_assoc (s1 s2 s3 : string) : (s1 +:+ s2) +:+ s3 = s1 +:+ (s2 +:+ s3).
Proof.
  induction s1 as [ | c s1 IH ]; [ reflexivity | ].
  change (String c ((s1 +:+ s2) +:+ s3) = String c (s1 +:+ (s2 +:+ s3))).
  f_equal. exact IH.
Qed.

Lemma command_payload_loop_joins payload argv :
  no_nul payload →
  command_payload_loop (Some payload) argv
  = Some (String.concat " " (payload :: (cstr <$> argv))).
Proof.
  revert payload. induction argv as [ | arg rest IH ]; intros payload Hpayload.
  { reflexivity. }
  cbn [command_payload_loop]. cbv zeta. rewrite (cstr_id payload Hpayload).
  rewrite IH.
  - f_equal. csimpl. destruct rest as [ | arg' rest ]; csimpl.
    + reflexivity.
    + rewrite !string_app_assoc. reflexivity.
  - apply no_nul_app; [ exact Hpayload | ].
    apply no_nul_app; [ apply no_nul_space | apply no_nul_cstr ].
Qed.

Section Forwarded.
Context `{Yajl} `{Host}.

(** X12: [i3 <words>] reaches the command parser as the words joined
    by single spaces. The payload that [main] builds from its arguments
    is their texts as C strings with one space between two of them and
    holds no NUL byte; sent with its [strlen] as a message of type
    COMMAND, it is dispatched to [handle_command], which, the text being
    shorter than 4294967295 bytes, hands exactly this text to the
    parser, renders the tree if the parser asks for it and then sends the
    reply. *)
Theorem forwarded_command_round_trip (argv : list string) :
  argv ≠ [] →
  let command := String.concat " " (cstr <$> argv) in
  command_payload argv = Some command
  ∧ no_nul command
  ∧ strncpy0 command (strlen command) = command
  ∧ ∀ w_fd errno st,
      (strlen command < UINT32_MAX)%N →
      ipc_receive_message w_fd 0 errno 0 (strlen command) command st
      = (perform [log LOG "IPC: received: *%s*"] ;;
         command_output <- parse_command command ;;
         (if needs_tree_render command_output then tree_render else ret tt) ;;
         let reply := yajl_gen_get_buf (json_gen command_output) in
         perform [ipc_send_message w_fd (N.of_nat (String.length reply))
                                   I3_IPC_REPLY_TYPE_COMMAND reply])%ipc st.
Proof.
  intros Hargv command. subst command.
  destruct argv as [ | arg rest ]; [ contradiction | ].
  assert (Hno : no_nul (String.concat " " (cstr <$> arg :: rest))).
  { apply no_nul_concat, Forall_forall. intros s Hs.
    apply list_elem_of_fmap in Hs as (a & -> & _). apply no_nul_cstr. }
  assert (Hcopy : strncpy0 (String.concat " " (cstr <$> arg :: rest))
                           (strlen (String.concat " " (cstr <$> arg :: rest)))
                  = String.concat " " (cstr <$> arg :: rest)).
  { unfold strncpy0, strlen. rewrite (cstr_id _ Hno), Nat2N.id, substring_all.
    apply cstr_id, Hno. }
  split_and!.
  - unfold command_payload. cbn [command_payload_loop]. cbv zeta.
    apply command_payload_loop_joins, no_nul_cstr.
  - exact Hno.
  - exact Hcopy.
  - intros w_fd errno st Hlt. unfold ipc_receive_message.
    change (0 <? 0)%Z with false. cbv iota.
    change (N.of_nat (length handlers) <=? 0)%N with false. cbv iota.
    change (handlers !! N.to_nat 0) with (Some handle_command). cbv iota beta.
    unfold handle_command.
    rewrite (bind_done _ _ _ _ _ (copy_message_ok _ _ st Hlt)), Hcopy.
    reflexivity.
Qed.

End Forwarded.

Lemma forwarded_command_round_trip_witness :
  let argv := ["border"; "none"] in
  argv ≠ []
  ∧ command_payload argv = Some "border none"
  ∧ no_nul "border none"
  ∧ strncpy0 "border none" (strlen "border none") = "border none"
  ∧ ∀ w_fd errno st,
      ipc_receive_message w_fd 0 errno 0 (strlen "border none") "border none" st
      = (perform [log LOG "IPC: received: *%s*"] ;;
         command_output <- parse_command "border none" ;;
         (if needs_tree_render command_output then tree_render else ret tt) ;;
         let reply := yajl_gen_get_buf (json_gen command_output) in
         perform [ipc_send_message w_fd (N.of_nat (String.length reply))
                                   I3_IPC_REPLY_TYPE_COMMAND reply])%ipc st.
Proof.
  intros argv.
  assert (Hargv : argv ≠ []) by discriminate.
  split; [ exact Hargv | ].
  destruct (forwarded_command_round_trip argv Hargv)
    as (Hpayload & Hno & Hcopy & Hrun).
  split_and!; [ exact Hpayload | exact Hno | exact Hcopy | ].
  intros w_fd errno st. apply Hrun. reflexivity.
Defined.

(** * The command text *)

Lemma strncpy0_cut (s1 s2 : string) (n : nat) :
  no_nul s1 → String.length s1 < n →
  cstr (substring 0 n (s1 +:+ String NUL s2)) = s1.
Proof.
  revert n. induction s1 as [ | c s1 IH ]; intros n Hno Hlen.
  - destruct n as [ | n ]; [ simpl in Hlen; lia | reflexivity ].
  - destruct n as [ | n ]; [ simpl in Hlen; lia | ].
    change (cstr (String c (substring 0 n (s1 +:+ String NUL s2))) = String c s1).
    simpl. destruct (is_nul c) eqn:Hc.
    + apply is_nul_NUL in Hc. exfalso. apply (Hno c); [ left; reflexivity | exact Hc ].
    + f_equal. apply IH; [ | simpl in Hlen; lia ].
      intros c' Hc'. apply Hno. right. exact Hc'.
Qed.

Lemma strncpy0_whole s : no_nul s → strncpy0 s (strlen s) = s.
Proof.
  intros Hno. unfold strncpy0, strlen.
  rewrite (cstr_id _ Hno), Nat2N.id, substring_all. apply cstr_id, Hno.
Qed.

Section CommandText.
Context `{Yajl} `{Host}.

(** X13: [handle_command] reads its message as a C string, in a
    message shorter than 4294967295 bytes. A NUL byte inside the
    [message_size] bytes ends the command: the text the request carries
    is the text before the NUL byte, the bytes after it never reach the
    parser, and the handler logs, parses that text, renders the tree if
    the parser asks for it and sends the reply, as it does for the text
    before the NUL byte alone. *)
Theorem handle_command_cut_at_nul
    fd0 (s1 s2 : string) size message_size message_type st :
  no_nul s1 → (N.of_nat (String.length s1) < message_size)%N →
  (message_size < UINT32_MAX)%N →
  requested_text (s1 +:+ String NUL s2) message_size = s1
  ∧ handle_command fd0 (s1 +:+ String NUL s2) size message_size message_type st
    = (perform [log LOG "IPC: received: *%s*"] ;;
       command_output <- parse_command s1 ;;
       (if needs_tree_render command_output then tree_render else ret tt) ;;
       let reply := yajl_gen_get_buf (json_gen command_output) in
       perform [ipc_send_message fd0 (N.of_nat (String.length reply))
                                 I3_IPC_REPLY_TYPE_COMMAND reply])%ipc st
  ∧ handle_command fd0 (s1 +:+ String NUL s2) size message_size message_type st
    = handle_command fd0 s1 size (strlen s1) message_type st.
Proof.
  intros Hno Hlen Hlt.
  assert (Hcut : strncpy0 (s1 +:+ String NUL s2) message_size = s1).
  { unfold strncpy0. apply strncpy0_cut; [ exact Hno | lia ]. }
  assert (Hshort : (strlen s1 < UINT32_MAX)%N).
  { unfold strlen. rewrite (cstr_id _ Hno). lia. }
  split_and!.
  - rewrite <- strncpy0_requested_text. exact Hcut.
  - unfold handle_command.
    rewrite (bind_done _ _ _ _ _ (copy_message_ok _ _ st Hlt)), Hcut.
    reflexivity.
  - unfold handle_command.
    rewrite (bind_done _ _ _ _ _ (copy_message_ok _ _ st Hlt)), Hcut.
    rewrite (bind_done _ _ _ _ _ (copy_message_ok _ _ st Hshort)).
    rewrite (strncpy0_whole s1 Hno). reflexivity.
Qed.

End CommandText.

Lemma handle_command_cut_at_nul_witness :
  (no_nul "nop" ∧ (N.of_nat (String.length "nop") < 8)%N ∧ (8 < UINT32_MAX)%N)
  ∧ requested_text ("nop" +:+ String NUL "kill") 8 = "nop"
  ∧ handle_command 5 ("nop" +:+ String NUL "kill") 0 8 0 Sample.four_clients
    = (perform [log LOG "IPC: received: *%s*"] ;;
       command_output <- parse_command "nop" ;;
       (if needs_tree_render command_output then tree_render else ret tt) ;;
       let reply := yajl_gen_get_buf (json_gen command_output) in
       perform [ipc_send_message 5 (N.of_nat (String.length reply))
                                 I3_IPC_REPLY_TYPE_COMMAND reply])%ipc
        Sample.four_clients
  ∧ handle_command 5 ("nop" +:+ String NUL "kill") 0 8 0 Sample.four_clients
    = handle_command 5 "nop" 0 (strlen "nop") 0 Sample.four_clients.
Proof.
  assert (Hno : no_nul "nop").
  { intros c Hc. simpl in Hc.
    repeat (destruct Hc as [<- | Hc]; [ discriminate | ]). destruct Hc. }
  assert (Hlen : (N.of_nat (String.length "nop") < 8)%N) by (simpl; lia).
  assert (Hlt : (8 < UINT32_MAX)%N) by reflexivity.
  split; [ split_and!; assumption | ].
  exact (handle_command_cut_at_nul 5 "nop" "kill" 0 8 0 Sample.four_clients
           Hno Hlen Hlt).
Defined.

(** * mkdirp *)

Module MkdirpFacts.
Import Mkdirp.

Section Facts.
Variable fs : Type.
Variable mkdir : string → fs → option Z * fs.
Variable ENOENT : Z.

Lemma strip_trailing_slashes (l : list ascii) :
  Forall (fun c => c = slash) l → strip_trailing l = None.
Proof.
  induction 1 as [ | c l -> _ IH ]; [ reflexivity | ]. simpl. exact IH.
Qed.

Lemma strip_trailing_keeps (c : ascii) (l : list ascii) :
  c ≠ slash → strip_trailing (c :: l) = Some (c :: l).
Proof.
  intros Hc. simpl. destruct (Ascii.eqb_spec c slash) as [-> | _];
    [ contradiction | reflexivity ].
Qed.

Lemma cut_last_component_none (l : list ascii) :
  Forall (fun c => c ≠ slash) l → cut_last_component l = None.
Proof.
  induction 1 as [ | c l Hc _ IH ]; [ reflexivity | ]. simpl.
  destruct (Ascii.eqb_spec c slash) as [-> | _]; [ contradiction | exact IH ].
Qed.

(** X14: [mkdirp] returns true only if its last call of [mkdir] was
    on the path itself and succeeded: it never reports a directory as
    made that it did not just create. In particular it returns false
    for a directory that exists already. *)
Theorem mkdirp_true_just_created fuel path st st' :
  mkdirp fs mkdir ENOENT fuel path st = (returned true, st') →
  ∃ files, mkdir path files = (None, st'.1).
Proof.
  revert path st st'. induction fuel as [ | fuel IH ]; intros path st st' Hrun.
  { discriminate. }
  simpl in Hrun.
  destruct (mkdir path st.1) as [[errno | ] files] eqn:Hmkdir.
  2: { injection Hrun as <-. exists st.1. exact Hmkdir. }
  destruct (negb (errno =? ENOENT)%Z); [ discriminate | ].
  destruct (strip_trailing _) as [stripped | ]; [ | discriminate ].
  destruct (cut_last_component stripped) as [parent | ]; [ | discriminate ].
  destruct (mkdirp fs mkdir ENOENT fuel _ (files, st.2)) as [[[] | | ] st1];
    try discriminate.
  exact (IH _ _ _ Hrun).
Qed.

(** X15: what [mkdirp] does when the first [mkdir] fails. An error
    other than ENOENT is logged and answered with false, with no further
    call. With ENOENT, a path without slash is answered with false
    without a word; and a path that is empty or made of slashes only
    makes the loop that strips trailing slashes read the byte before its
    buffer. *)
Theorem mkdirp_first_failure fuel path files tr errno files' :
  mkdir path files = (Some errno, files') →
  let run := mkdirp fs mkdir ENOENT (S fuel) path (files, tr) in
  (errno ≠ ENOENT →
     run = (returned false, (files', tr ++ [log ELOG "mkdir(%s) failed: %s"])))
  ∧ (errno = ENOENT →
       Forall (fun c => c = slash) (list_ascii_of_string (cstr path)) →
       run = (out_of_bounds, (files', tr)))
  ∧ (errno = ENOENT → cstr path ≠ EmptyString →
       Forall (fun c => c ≠ slash) (list_ascii_of_string (cstr path)) →
       run = (returned false, (files', tr))).
Proof.
  intros Hmkdir run. subst run. simpl. rewrite Hmkdir.
  split_and!.
  - intros Herrno. rewrite (proj2 (Z.eqb_neq _ _) Herrno). reflexivity.
  - intros -> Hslashes. rewrite Z.eqb_refl. simpl.
    rewrite strip_trailing_slashes; [ reflexivity | ].
    apply Forall_forall. intros c Hc. rewrite Forall_forall in Hslashes.
    apply Hslashes. apply list_elem_of_In. apply in_rev.
    apply list_elem_of_In. exact Hc.
  - intros -> Hnonempty Hnoslash. rewrite Z.eqb_refl. simpl.
    assert (Hrev : Forall (fun c => c ≠ slash)
                          (rev (list_ascii_of_string (cstr path)))).
    { apply Forall_forall. intros c Hc. rewrite Forall_forall in Hnoslash.
      apply Hnoslash. apply list_elem_of_In. apply in_rev.
      apply list_elem_of_In. exact Hc. }
    destruct (rev (list_ascii_of_string (cstr path))) as [ | c l ] eqn:Hl.
    + exfalso. apply Hnonempty.
      apply (f_equal (@rev ascii)) in Hl. rewrite rev_involutive in Hl. simpl in Hl.
      rewrite <- (string_of_list_ascii_of_string (cstr path)), Hl. reflexivity.
    + rewrite strip_trailing_keeps; [ | inversion Hrev; assumption ].
      rewrite (cut_last_component_none _ Hrev). reflexivity.
Qed.

End Facts.

Lemma mkdirp_true_just_created_witness :
  let st := ([] : list string, [] : list effect) in
  let st' := (["run/i3"; "run"], [] : list effect) in
  mkdirp (list string) sample_mkdir 2 3 "run/i3" st = (returned true, st')
  ∧ ∃ files, sample_mkdir "run/i3" files = (None, st'.1).
Proof.
  intros st st'.
  assert (Hrun : mkdirp (list string) sample_mkdir 2 3 "run/i3" st
                 = (returned true, st')).
  { vm_compute. reflexivity. }
  split; [ exact Hrun | ].
  exact (mkdirp_true_just_created (list string) sample_mkdir 2 3 "run/i3" st st' Hrun).
Defined.

Lemma mkdirp_first_failure_witness :
  sample_mkdir "" [] = (Some 2%Z, [])
  ∧ mkdirp (list string) sample_mkdir 2 1 "" ([], []) = (out_of_bounds, ([], [])).
Proof.
  assert (Hmkdir : sample_mkdir "" [] = (Some 2%Z, [])) by reflexivity.
  split; [ exact Hmkdir | ].
  destruct (mkdirp_first_failure (list string) sample_mkdir 2 0 "" [] [] 2 [] Hmkdir)
    as (_ & Hbounds & _).
  apply Hbounds; [ reflexivity | constructor ].
Defined.

(** Three missing levels are made from the top down; an existing
    directory is answered with false. *)
Example mkdirp_sample :
  mkdirp (list string) sample_mkdir 2 4 "run/user/i3" ([], [])
  = (returned true, (["run/user/i3"; "run/user"; "run"], []))
  ∧ mkdirp (list string) sample_mkdir 2 4 "run" (["run"], [])
    = (returned false, (["run"], [log ELOG "mkdir(%s) failed: %s"])).
Proof. vm_compute. split; reflexivity. Qed.

End MkdirpFacts.

(** * xkb_got_event *)

Module XkbFacts.
Import Xkb.

Section Facts.
Variable XkbGroup1Index XkbGroup2Index : Z.

Lemma xkb_loop_spec events st :
  fold_left (xkb_turn XkbGroup1Index XkbGroup2Index) events st
  = {| xkb_current_group := last_group events (xkb_current_group st);
       mapping_changed := mapping_changed st || existsb is_map_notify events;
       calls := calls st
                ++ loop_calls XkbGroup1Index XkbGroup2Index events
                     (xkb_current_group st) |}.
Proof.
  revert st. induction events as [ | ev rest IH ]; intros [group changed cs].
  { simpl. rewrite orb_false_r, app_nil_r. reflexivity. }
  cbn [fold_left]. rewrite IH. clear IH.
  destruct ev as [ | | new_group | ]; cbn [xkb_turn loop_calls is_map_notify existsb].
  - reflexivity.
  - cbn. rewrite orb_true_r. reflexivity.
  - cbn [xkb_current_group mapping_changed calls]. unfold last_group at 2.
    cbn [fold_left].
    destruct (Z.eqb_spec group new_group) as [-> | Hne]; [ reflexivity | ].
    destruct (new_group =? XkbGroup2Index)%Z, (new_group =? XkbGroup1Index)%Z;
      cbn; rewrite <- ?app_assoc; reflexivity.
  - cbn. rewrite <- app_assoc. reflexivity.
Qed.

Lemma loop_calls_no_translate events group :
  List.filter is_translate_keysyms
    (loop_calls XkbGroup1Index XkbGroup2Index events group) = [].
Proof.
  revert group. induction events as [ | ev rest IH ]; intros group;
    [ reflexivity | ].
  destruct ev as [ | | new_group | ]; cbn [loop_calls]; try apply IH.
  rewrite List.filter_app, IH, app_nil_r.
  destruct (group =? new_group)%Z; [ reflexivity | ].
  destruct (new_group =? XkbGroup2Index)%Z, (new_group =? XkbGroup1Index)%Z;
    reflexivity.
Qed.

(** X17: one run of [xkb_got_event], as the calls it makes, in
    order. It logs that it handles the event. Then, for the pending
    events in turn: a state notification for a group other than the
    current one makes that group current, grabs the keys with the mode
    switch if it is the second group, and ungrabs them and grabs them
    without it if it is the first group; an XKB event of another type is
    logged; nothing else is called. After the loop the current group is
    that of the last state notification, or the old one if there was
    none. Then, if at least one mapping notification was pending, however
    many there were, the key symbols are reloaded and translated and the
    keys ungrabbed and grabbed once, for the group that is then current;
    without one, nothing more is called. So the key symbols are
    translated once or not at all, while the keys may also be grabbed in
    the loop. *)
Theorem xkb_got_event_calls events group :
  let st := xkb_got_event XkbGroup1Index XkbGroup2Index events group in
  let remapped := existsb is_map_notify events in
  xkb_current_group st = last_group events group
  ∧ mapping_changed st = remapped
  ∧ calls st
    = [xkb_log DLOG "Handling XKB event"]
      ++ loop_calls XkbGroup1Index XkbGroup2Index events group
      ++ (if remapped
          then [xkb_log DLOG "Keyboard mapping changed, updating keybindings";
                xcb_key_symbols_free; xcb_key_symbols_alloc;
                aio_get_mod_mask_for_num_lock;
                ungrab_all_keys;
                xkb_log DLOG "Re-grabbing...";
                translate_keysyms;
                grab_all_keys (last_group events group =? XkbGroup2Index)%Z;
                xkb_log DLOG "Done"]
          else [])
  ∧ length (List.filter is_translate_keysyms (calls st))
    = (if remapped then 1 else 0).
Proof.
  intros st remapped. subst st remapped.
  unfold xkb_got_event. cbv zeta. rewrite xkb_loop_spec.
  cbn [xkb_current_group mapping_changed calls orb negb].
  destruct (existsb is_map_notify events);
    cbn [negb call_all xkb_current_group mapping_changed calls].
  - split_and!; [ reflexivity | reflexivity
                | rewrite <- app_assoc; reflexivity | ].
    rewrite !List.filter_app, loop_calls_no_translate. reflexivity.
  - split_and!; [ reflexivity | reflexivity
                | rewrite app_nil_r; reflexivity | ].
    rewrite !List.filter_app, loop_calls_no_translate. reflexivity.
Qed.

End Facts.

(** xmodmap sends one event for every change; two of them and a switch
    to the second group and back give one translation of the key symbols
    and three grabs of the keys. *)
Example xkb_got_event_sample :
  calls (xkb_got_event 0 1 [map_notify; state_notify 1; map_notify; state_notify 0] 0)
  = [xkb_log DLOG "Handling XKB event";
     xkb_log DLOG "Mode_switch enabled"; grab_all_keys true;
     xkb_log DLOG "Mode_switch disabled"; ungrab_all_keys; grab_all_keys false;
     xkb_log DLOG "Keyboard mapping changed, updating keybindings";
     xcb_key_symbols_free; xcb_key_symbols_alloc; aio_get_mod_mask_for_num_lock;
     ungrab_all_keys; xkb_log DLOG "Re-grabbing..."; translate_keysyms;
     grab_all_keys false; xkb_log DLOG "Done"].
Proof. reflexivity. Qed.

(** A switch to the second group and back grabs the keys twice although
    no mapping notification is pending. *)
Example xkb_got_event_group_switch :
  calls (xkb_got_event 0 1 [state_notify 1; state_notify 0] 0)
  = [xkb_log DLOG "Handling XKB event";
     xkb_log DLOG "Mode_switch enabled"; grab_all_keys true;
     xkb_log DLOG "Mode_switch disabled"; ungrab_all_keys; grab_all_keys false].
Proof. reflexivity. Qed.

End XkbFacts.

(** * Subscriptions last as long as the connection *)

Lemma listens_same st st' sockfd event :
  all_clients st' = all_clients st → heap st' = heap st →
  listens st sockfd event → listens st' sockfd event.
Proof.
  intros Hclients Hheap (c & Hc & Hfd & Hsub). exists c.
  rewrite Hclients. split_and!; [ exact Hc | exact Hfd | ].
  unfold subscribed, subscriptions in *. rewrite Hheap. exact Hsub.
Qed.

Lemma listens_trace_only {A} (m : M A) st sockfd event :
  trace_only m → listens st sockfd event → listens (m st).2 sockfd event.
Proof.
  intros Hm. destruct (Hm st) as [es ->]. apply listens_same; reflexivity.
Qed.

Lemma elem_of_delete_other {A} (l : list A) i x y :
  l !! i = Some x → y ∈ l → y ≠ x → y ∈ delete i l.
Proof.
  intros Hi Hy Hne. rewrite delete_take_drop.
  rewrite <- (take_drop_middle _ _ _ Hi) in Hy.
  apply elem_of_app in Hy as [Hy | Hy]; apply elem_of_app; [ left; exact Hy | ].
  apply elem_of_cons in Hy as [-> | Hy]; [ contradiction | right; exact Hy ].
Qed.

Lemma host_leaves_keeps `{Host} : host_leaves_registry → host_keeps_registry.
Proof.
  intros [Hparse Hrender]. split.
  - intros command st Hok. destruct (Hparse command st) as [Hclients Hheap].
    unfold registry_ok. rewrite Hclients, Hheap. exact Hok.
  - intros st Hok. destruct (Hrender st) as [Hclients Hheap].
    unfold registry_ok. rewrite Hclients, Hheap. exact Hok.
Qed.

Section Persist.
Context `{Yajl} `{Host}.

Lemma listens_handle_command fd0 message size message_size message_type st sockfd event :
  host_leaves_registry → listens st sockfd event →
  listens (handle_command fd0 message size message_size message_type st).2
          sockfd event.
Proof.
  intros [Hparse Hrender] Hlistens. unfold handle_command.
  destruct (copy_message_cases message message_size st) as [Hcopy | Hcopy];
    [ rewrite (bind_done _ _ _ _ _ Hcopy)
    | rewrite (bind_crash _ _ _ _ _ Hcopy); exact Hlistens ].
  unfold bind, perform. simpl.
  pose proof (Hparse (strncpy0 message message_size)
                (emit [log LOG "IPC: received: *%s*"] st)) as [Hc1 Hh1].
  destruct (parse_command _ _) as [[command_output | f] st1]; simpl in Hc1, Hh1.
  2: { apply (listens_same st); assumption. }
  destruct (needs_tree_render command_output).
  - pose proof (Hrender st1) as [Hc2 Hh2].
    destruct (tree_render st1) as [[[] | f] st2]; simpl in Hc2, Hh2;
      apply (listens_same st); simpl; congruence.
  - apply (listens_same st); assumption.
Qed.

Lemma listens_handle_subscribe fd0 message size message_size message_type st
    sockfd event :
  registry_ok st → listens st sockfd event →
  listens (handle_subscribe fd0 message size message_size message_type st).2
          sockfd event.
Proof.
  intros Hok (c & Hc & Hfd & Hsub).
  destruct (find_client fd0 (all_clients st)) as [[i ci] | ] eqn:Hfind.
  2: { unfold handle_subscribe, bind, get. rewrite Hfind.
       apply (listens_same st); [ reflexivity | reflexivity | ].
       exists c. split_and!; assumption. }
  destruct (yajl_lex (substring 0 (N.to_nat message_size) message))
    as [evs syntax_error] eqn:Hlex.
  destruct (handle_subscribe_spec st fd0 message size message_size message_type
              i ci evs syntax_error Hok Hfind Hlex)
    as (st1 & log_error & _ & Hmore & -> & _).
  apply (listens_same st1); [ reflexivity | reflexivity | ].
  destruct Hmore as (Hok1 & _ & Hothers & (c0 & c1 & Hc0 & Hc1 & Hfd1 & _ & Hsubs)
                     & Hheap & _).
  apply list_elem_of_lookup in Hc as [j Hj].
  destruct (decide (j = i)) as [-> | Hne].
  - assert (c = c0) as -> by congruence.
    exists c1. split_and!.
    + apply list_elem_of_lookup. exists i. exact Hc1.
    + congruence.
    + unfold subscribed. rewrite Hsubs. apply Exists_app. left. exact Hsub.
  - exists c. split_and!.
    + apply list_elem_of_lookup. exists j. rewrite (Hothers j Hne). exact Hj.
    + exact Hfd.
    + unfold subscribed.
      rewrite (subscriptions_weaken st st1 c Hheap
                 (registry_ok_client_live st j c Hok Hj)).
      exact Hsub.
Qed.

Lemma listens_delete_client w_fd st sockfd event :
  registry_ok st → w_fd ≠ sockfd → listens st sockfd event →
  listens (delete_client w_fd st).2 sockfd event.
Proof.
  intros Hok Hother (c & Hc & Hfd & Hsub).
  destruct (find_client w_fd (all_clients st)) as [[i ci] | ] eqn:Hfind.
  2: { rewrite (delete_client_unknown _ _ Hfind). exists c. split_and!; assumption. }
  destruct (delete_client_spec st w_fd i ci Hok Hfind) as (h & -> & Hh).
  pose proof Hfind as (Hi & Hfdi & _)%list_find_Some.
  destruct (registry_ok_delete st i ci h Hok Hi Hh) as (_ & _ & Hsubs).
  assert (Hc' : c ∈ delete i (all_clients st)).
  { apply (elem_of_delete_other _ _ ci); [ exact Hi | exact Hc | ].
    intros ->. apply Hother. congruence. }
  exists c. split_and!; [ exact Hc' | exact Hfd | ].
  unfold subscribed. simpl. rewrite (Hsubs c Hc'). exact Hsub.
Qed.

Lemma listens_ipc_receive_message
    w_fd ret_ errno message_type message_length message st sockfd event :
  host_leaves_registry → registry_ok st →
  ¬ closes (readable w_fd ret_ errno message_type message_length message) sockfd →
  listens st sockfd event →
  listens (ipc_receive_message w_fd ret_ errno message_type message_length
                               message st).2 sockfd event.
Proof.
  intros Hhost Hok Hopen Hlistens. unfold ipc_receive_message.
  destruct (Z.ltb_spec ret_ 0) as [Hneg | Hpos].
  - destruct ((ret_ =? -1)%Z && (errno =? EAGAIN)%Z) eqn:Hspurious;
      [ exact Hlistens | ].
    assert (Hother : w_fd ≠ sockfd).
    { intros ->. apply Hopen. split_and!; [ reflexivity | exact Hneg | ].
      intros [-> ->]. rewrite !Z.eqb_refl in Hspurious. discriminate. }
    unfold bind at 1, perform at 1.
    set (st0 := emit [sys_close w_fd] st).
    pose proof (listens_delete_client w_fd st0 sockfd event Hok Hother
                  (listens_same st st0 sockfd event eq_refl eq_refl Hlistens)) as Hdel.
    unfold bind at 1.
    destruct (delete_client w_fd st0) as [[[] | f] st1]; simpl in Hdel;
      [ | exact Hdel ].
    apply (listens_same st1); [ reflexivity | reflexivity | exact Hdel ].
  - destruct (N.of_nat (length handlers) <=? message_type)%N;
      [ apply (listens_same st); [ reflexivity | reflexivity | exact Hlistens ] | ].
    destruct (N.to_nat message_type) as [ | [ | [ | [ | [ | [ | [ | [ | n ]]]]]]]].
    + exact (listens_handle_command _ _ _ _ _ _ _ _ Hhost Hlistens).
    + exact (listens_trace_only _ st _ _
               (trace_only_handle_get_workspaces _ _ _ _ _) Hlistens).
    + exact (listens_handle_subscribe _ _ _ _ _ _ _ _ Hok Hlistens).
    + exact (listens_trace_only _ st _ _
               (trace_only_handle_get_outputs _ _ _ _ _) Hlistens).
    + exact (listens_trace_only _ st _ _ (trace_only_handle_tree _ _ _ _ _) Hlistens).
    + exact (listens_trace_only _ st _ _
               (trace_only_handle_get_marks _ _ _ _ _) Hlistens).
    + exact (listens_trace_only _ st _ _
               (trace_only_handle_get_bar_config _ _ _ _ _) Hlistens).
    + exact (listens_trace_only _ st _ _
               (trace_only_handle_get_version _ _ _ _ _) Hlistens).
    + exact Hlistens.
Qed.

Lemma listens_ipc_new_client w_fd client errno setfl st sockfd event :
  listens st sockfd event →
  listens (ipc_new_client w_fd client errno setfl st).2 sockfd event.
Proof.
  intros (c & Hc & Hfd & Hsub). unfold ipc_new_client, set_nonblock.
  destruct (client <? 0)%Z.
  - destruct (errno =? EINTR)%Z; exists c; split_and!; assumption.
  - unfold bind, perform, ret, crash, modify. simpl.
    destruct (setfl <? 0)%Z; exists c; (split_and!; [ | exact Hfd | exact Hsub ]);
      [ exact Hc | ].
    simpl. apply elem_of_app. left. exact Hc.
Qed.

(** X16: a subscription lasts as long as the connection. If the
    client on a descriptor is subscribed to an event, then after any step
    of the event loop that does not end this connection (a new
    connection, a request or an error on any other descriptor, a request
    of the client itself, a published event) it still is; and the next
    time the event is published, exactly one message goes to this
    descriptor. *)
Theorem subscription_persists e st st' sockfd event :
  host_leaves_registry → registry_ok st → accept_is_fresh e st →
  listens st sockfd event → ¬ closes e sockfd →
  react e st = (Done tt, st') →
  registry_ok st'
  ∧ listens st' sockfd event
  ∧ ∀ message_type payload,
      ∃ st'',
        ipc_send_event event message_type payload st' = (Done tt, st'')
        ∧ messages_to sockfd (drop (length (trace st')) (trace st''))
          = [(strlen payload, message_type, payload)].
Proof.
  intros Hhost Hok Hfresh Hlistens Hopen Hreact.
  assert (Hok' : registry_ok st').
  { destruct e as [w_fd client errno setfl
                  | w_fd ret_ errno message_type message_length message
                  | ev message_type payload | ]; simpl in Hreact, Hfresh.
    - eapply registry_ok_ipc_new_client; eassumption.
    - pose proof (registry_ok_ipc_receive_message w_fd ret_ errno message_type
                    message_length message st (host_leaves_keeps Hhost) Hok) as Ho.
      rewrite Hreact in Ho. exact Ho.
    - pose proof (trace_only_registry_ok _ st
                    (trace_only_ipc_send_event ev message_type payload) Hok) as Ho.
      rewrite Hreact in Ho. exact Ho.
    - exfalso. apply Hopen. exact I. }
  assert (Hlistens' : listens st' sockfd event).
  { destruct e as [w_fd client errno setfl
                  | w_fd ret_ errno message_type message_length message
                  | ev message_type payload | ]; simpl in Hreact.
    - pose proof (listens_ipc_new_client w_fd client errno setfl st sockfd event
                    Hlistens) as Hl.
      rewrite Hreact in Hl. exact Hl.
    - pose proof (listens_ipc_receive_message w_fd ret_ errno message_type
                    message_length message st sockfd event Hhost Hok Hopen Hlistens)
        as Hl.
      rewrite Hreact in Hl. exact Hl.
    - pose proof (listens_trace_only _ st sockfd event
                    (trace_only_ipc_send_event ev message_type payload) Hlistens)
        as Hl.
      rewrite Hreact in Hl. exact Hl.
    - exfalso. apply Hopen. exact I. }
  split_and!; [ exact Hok' | exact Hlistens' | ].
  intros message_type payload. eexists.
  split; [ apply ipc_send_event_spec; exact Hok' | ].
  destruct Hlistens' as (c & Hc & <- & Hsub).
  simpl. rewrite drop_app_length.
  rewrite (messages_to_event_messages message_type payload (all_clients st') c
             (subscribed st' event) (proj1 Hok') Hc).
  rewrite decide_True by exact Hsub. reflexivity.
Qed.

End Persist.

Lemma sample_host_leaves_registry : host_leaves_registry.
Proof. split; intros; split; reflexivity. Qed.

Lemma subscription_persists_witness :
  let st := Sample.four_clients in
  let e := readable 5 (-2) 0 0 0 "" in
  let st' := (react e st).2 in
  (registry_ok st ∧ listens st 6 "workspace" ∧ react e st = (Done tt, st'))
  ∧ registry_ok st'
  ∧ listens st' 6 "workspace"
  ∧ ∀ message_type payload,
      ∃ st'',
        ipc_send_event "workspace" message_type payload st' = (Done tt, st'')
        ∧ messages_to 6 (drop (length (trace st')) (trace st''))
          = [(strlen payload, message_type, payload)].
Proof.
  intros st e st'.
  assert (Hok : registry_ok st) by (apply (bool_decide_unpack _); vm_compute; exact I).
  assert (Hlistens : listens st 6 "workspace").
  { exists {| fd := 6; events := [3%positive] |}.
    split_and!; [ apply list_elem_of_further, list_elem_of_here | reflexivity | ].
    apply (bool_decide_unpack _). vm_compute. exact I. }
  assert (Hrun : react e st = (Done tt, st')) by (vm_compute; reflexivity).
  split; [ split_and!; assumption | ].
  apply (subscription_persists e st st' 6 "workspace" sample_host_leaves_registry
           Hok I Hlistens); [ | exact Hrun ].
  intros (Hfd & _). discriminate.
Defined.
